(** * gtcli: the account store and the OAuth2 authorization flow

    A shallow embedding of [src/account-storage.ts], of the
    authorization flow of [src/oauth-flow.ts], of the [accounts]
    commands and [main] of the CLI entry point, and of
    [src/services/base-service.ts] and [src/services/task-service.ts];
    the properties of the specification proved about them, and further
    properties of the code.

    Conventions.
    - A JavaScript string is a [string]: the sequence of bytes of its
      UTF-8 encoding.  The content of a file is the text that
      [fs.readFileSync(_, "utf8")] returns and [fs.writeFileSync]
      stores.  A lone surrogate, which has no UTF-8 encoding, is
      written as U+FFFD.
    - A JavaScript exception is a value of [Error]; a function that can
      throw returns a [Result].
    - Platform functions ([JSON.parse], [JSON.stringify], [Map], [URL],
      [String.prototype.match], [decodeURIComponent]) are modelled by
      executable definitions of their own, named after them.
    - The callbacks of the local HTTP server are the transitions of a
      state machine; a request reaches the handler while the server
      listens and, over a connection opened before, after it has been
      closed.
    - The Tasks API is a parameter: the state of the server and what
      each method answers.  The requests of a service are recorded with
      the client that sent them. *)

From Stdlib Require Import Ascii String NArith.
From stdpp Require Import base option list strings gmap.

#[local] Set Warnings "-register-all".
Local Open Scope string_scope.

(** ** Exceptions *)

Inductive Error :=
| SyntaxError (message : string)
| TypeError (message : string)
| URIError (message : string)
| PlainError (message : string).

Definition message_of (e : Error) : string :=
  match e with
  | SyntaxError m | TypeError m | URIError m | PlainError m => m
  end.

Inductive Result (A : Type) :=
| Ok (a : A)
| Throw (e : Error).
Arguments Ok {A} a.
Arguments Throw {A} e.

Definition bindR {A B} (r : Result A) (k : A → Result B) : Result B :=
  match r with Ok a => k a | Throw e => Throw e end.

(** [try { body } catch { handler }] *)
Definition try_catch {A} (body : Result A) (handler : Error → Result A) : Result A :=
  match body with Ok a => Ok a | Throw e => handler e end.

Notation "'let!' x ':=' r 'in' k" := (bindR r (λ x, k))
  (at level 10, x name, r at level 100, k at level 200).

(** ** Characters *)

Definition code (c : ascii) : N := N_of_ascii c.
Definition chr (n : N) : ascii := ascii_of_N n.

Definition in_range (lo hi : N) (c : ascii) : bool :=
  ((lo <=? code c) && (code c <=? hi))%N.

Definition dquote : ascii := "034"%char.

Definition is_digit (c : ascii) : bool := in_range 48 57 c.
Definition is_alpha (c : ascii) : bool := in_range 65 90 c || in_range 97 122 c.

Definition hex_value (c : ascii) : option N :=
  if in_range 48 57 c then Some (code c - 48)%N
  else if in_range 97 102 c then Some (code c - 87)%N
  else if in_range 65 70 c then Some (code c - 55)%N
  else None.

Definition hex_digit (n : N) : ascii :=
  if (n <? 10)%N then chr (48 + n) else chr (87 + n).

Fixpoint string_rev_onto (s acc : string) : string :=
  match s with
  | EmptyString => acc
  | String c s' => string_rev_onto s' (String c acc)
  end.

Fixpoint repeat_char (c : ascii) (n : nat) : string :=
  match n with O => "" | S n' => String c (repeat_char c n') end.

(** UTF-8 encoding of one code point below [2^16] (the code points a
    [\uXXXX] escape can name). *)
Definition utf8_encode (u : N) : list ascii :=
  if (u <? 128)%N then [chr u]
  else if (u <? 2048)%N then
    [chr (192 + u / 64); chr (128 + u mod 64)]
  else if (u <? 65536)%N then
    [chr (224 + u / 4096); chr (128 + (u / 64) mod 64); chr (128 + u mod 64)]
  else
    [chr (240 + u / 262144); chr (128 + (u / 4096) mod 64);
     chr (128 + (u / 64) mod 64); chr (128 + u mod 64)].

(** ** JSON values *)

Module Json.

(** The values [JSON.parse] produces.  A number keeps the text of its
    literal; an object keeps its own properties in the order in which
    JavaScript enumerates them. *)
Inductive JSON :=
| JNull
| JBool (b : bool)
| JNumber (lexeme : string)
| JString (s : string)
| JArray (elems : list JSON)
| JObject (members : list (string * JSON)).

(** *** Property order of ordinary objects

    Integer-like keys come first, in ascending numeric order; the other
    keys follow in creation order.  Assigning to an existing key keeps
    its place. *)

Fixpoint decimal_value (s : string) (acc : N) : option N :=
  match s with
  | EmptyString => Some acc
  | String c s' =>
      if is_digit c then decimal_value s' (10 * acc + (code c - 48))%N else None
  end.

(** An array index: the canonical decimal spelling of an integer below
    [2^32 - 1]. *)
Definition array_index (k : string) : option N :=
  match k with
  | EmptyString => None
  | String c rest =>
      if is_digit c then
        if (String.eqb k "0") then Some 0%N
        else if (code c =? 48)%N then None
        else if (10 <? String.length k)%nat then None
        else match decimal_value k 0 with
             | Some n => if (n <? 4294967295)%N then Some n else None
             | None => None
             end
      else None
  end.

Fixpoint has_key (k : string) (ms : list (string * JSON)) : bool :=
  match ms with
  | [] => false
  | (k', _) :: ms' => String.eqb k k' || has_key k ms'
  end.

Fixpoint replace_key (k : string) (v : JSON) (ms : list (string * JSON)) :=
  match ms with
  | [] => []
  | (k', v') :: ms' =>
      if String.eqb k k' then (k', v) :: ms' else (k', v') :: replace_key k v ms'
  end.

(** Insert the index key [k] (of value [n]) before the first member that
    is not an index or is a larger one. *)
Fixpoint insert_index (n : N) (k : string) (v : JSON) (ms : list (string * JSON)) :=
  match ms with
  | [] => [(k, v)]
  | (k', v') :: ms' =>
      match array_index k' with
      | Some n' => if (n' <? n)%N then (k', v') :: insert_index n k v ms'
                   else (k, v) :: ms
      | None => (k, v) :: ms
      end
  end.

(** [obj[k] = v] on an ordinary object (CreateDataProperty). *)
Definition obj_set (k : string) (v : JSON) (ms : list (string * JSON)) :=
  if has_key k ms then replace_key k v ms
  else match array_index k with
       | Some n => insert_index n k v ms
       | None => (ms ++ [(k, v)])%list
       end.

Fixpoint obj_get (k : string) (ms : list (string * JSON)) : option JSON :=
  match ms with
  | [] => None
  | (k', v) :: ms' => if String.eqb k k' then Some v else obj_get k ms'
  end.

(** *** [JSON.stringify(value, null, 2)] *)

Definition escape_char (c : ascii) : string :=
  if (code c =? 34)%N then String "\"%char (String dquote "")
  else if (code c =? 92)%N then "\\"
  else if (code c =? 8)%N then "\b"
  else if (code c =? 12)%N then "\f"
  else if (code c =? 10)%N then "\n"
  else if (code c =? 13)%N then "\r"
  else if (code c =? 9)%N then "\t"
  else if (code c <? 32)%N then
    "\u00" +:+ String (hex_digit (code c / 16)) (String (hex_digit (code c mod 16)) "")
  else String c "".

Fixpoint escape (s : string) : string :=
  match s with
  | EmptyString => ""
  | String c s' => escape_char c +:+ escape s'
  end.

Definition quote (s : string) : string :=
  String dquote (escape s +:+ String dquote "").

Definition newline : string := String "010"%char "".

Definition indent (n : nat) : string := repeat_char " "%char n.

Fixpoint join (sep : string) (parts : list string) : string :=
  match parts with
  | [] => ""
  | [p] => p
  | p :: ps => p +:+ sep +:+ join sep ps
  end.

(** [ind] is the indentation of the line on which the value starts. *)
Fixpoint stringify_at (ind : nat) (v : JSON) : string :=
  match v with
  | JNull => "null"
  | JBool true => "true"
  | JBool false => "false"
  | JNumber lexeme => lexeme
  | JString s => quote s
  | JArray [] => "[]"
  | JArray elems =>
      "[" +:+ newline +:+ indent (ind + 2)
      +:+ join ("," +:+ newline +:+ indent (ind + 2))
               (map (stringify_at (ind + 2)) elems)
      +:+ newline +:+ indent ind +:+ "]"
  | JObject [] => "{}"
  | JObject members =>
      "{" +:+ newline +:+ indent (ind + 2)
      +:+ join ("," +:+ newline +:+ indent (ind + 2))
               (map (λ m, quote (fst m) +:+ ": " +:+ stringify_at (ind + 2) (snd m))
                    members)
      +:+ newline +:+ indent ind +:+ "}"
  end.

Definition stringify (v : JSON) : string := stringify_at 0 v.

(** *** [JSON.parse(text)]

    The parser reads the text one character at a time.  Its state is a
    lexical mode and the stack of the arrays and objects that are still
    open. *)

(** What a string literal has produced so far: bytes, and the surrogate
    code units named by [\uXXXX] escapes (paired up when the literal
    ends). *)
Inductive Item :=
| IByte (c : ascii)
| ISurrogate (u : N).

Definition is_high_surrogate (u : N) : bool := ((55296 <=? u) && (u <? 56320))%N.
Definition is_low_surrogate (u : N) : bool := ((56320 <=? u) && (u <? 57344))%N.

Definition item_of_unit (u : N) : list Item :=
  if is_high_surrogate u || is_low_surrogate u then [ISurrogate u]
  else map IByte (utf8_encode u).

Definition replacement_character : list ascii := [chr 239; chr 191; chr 189].

(** A high surrogate followed by a low one is one code point; a lone
    surrogate has no UTF-8 encoding and is written as U+FFFD. *)
Fixpoint bytes_of_items (items : list Item) : list ascii :=
  match items with
  | [] => []
  | IByte c :: rest => c :: bytes_of_items rest
  | ISurrogate hi :: rest =>
      match rest with
      | ISurrogate lo :: rest' =>
          if is_high_surrogate hi && is_low_surrogate lo
          then (utf8_encode (65536 + (hi - 55296) * 1024 + (lo - 56320))
                ++ bytes_of_items rest')%list
          else (replacement_character ++ bytes_of_items rest)%list
      | _ => (replacement_character ++ bytes_of_items rest)%list
      end
  end.

Definition string_of_items (rev_items : list Item) : string :=
  string_of_list_ascii (bytes_of_items (rev rev_items)).

Inductive Frame :=
| FArray (rev_elems : list JSON)
| FObject (members : list (string * JSON)) (key : option string).

Inductive NumState :=
| NMinus | NZero | NInt | NDot | NFrac | NE | NESign | NExp.

Definition num_accepting (ns : NumState) : bool :=
  match ns with NZero | NInt | NFrac | NExp => true | _ => false end.

Definition num_step (ns : NumState) (c : ascii) : option NumState :=
  match ns with
  | NMinus => if (code c =? 48)%N then Some NZero
              else if in_range 49 57 c then Some NInt else None
  | NZero => if (code c =? 46)%N then Some NDot
             else if (code c =? 101)%N || (code c =? 69)%N then Some NE else None
  | NInt => if is_digit c then Some NInt
            else if (code c =? 46)%N then Some NDot
            else if (code c =? 101)%N || (code c =? 69)%N then Some NE else None
  | NDot => if is_digit c then Some NFrac else None
  | NFrac => if is_digit c then Some NFrac
             else if (code c =? 101)%N || (code c =? 69)%N then Some NE else None
  | NE => if is_digit c then Some NExp
          else if (code c =? 43)%N || (code c =? 45)%N then Some NESign else None
  | NESign => if is_digit c then Some NExp else None
  | NExp => if is_digit c then Some NExp else None
  end.

Inductive Mode :=
| MValue                       (* a value starts here *)
| MArrayStart                  (* after [ : a value or ] *)
| MObjectStart                 (* after { : a key or } *)
| MKey                         (* after , in an object: a key *)
| MColon                       (* after a key: the colon *)
| MAfter                       (* after a value inside an array or object *)
| MDone (v : JSON)             (* the whole value has been read *)
| MString (key : bool) (rev_items : list Item)
| MEscape (key : bool) (rev_items : list Item)
| MUnicode (key : bool) (rev_items : list Item) (digits : list N)
| MNumber (ns : NumState) (rev_lexeme : string)
| MLiteral (rest : string) (v : JSON).

Definition PState : Type := Mode * list Frame.

Definition is_ws (c : ascii) : bool :=
  (code c =? 32)%N || (code c =? 9)%N || (code c =? 10)%N || (code c =? 13)%N.

(** A complete value goes to the innermost open array or object. *)
Definition deliver (v : JSON) (stack : list Frame) : option PState :=
  match stack with
  | [] => Some (MDone v, [])
  | FArray rev_elems :: stack' => Some (MAfter, FArray (v :: rev_elems) :: stack')
  | FObject members (Some k) :: stack' =>
      Some (MAfter, FObject (obj_set k v members) None :: stack')
  | FObject _ None :: _ => None
  end.

Definition end_string (key : bool) (s : string) (stack : list Frame) : option PState :=
  if key then
    match stack with
    | FObject members None :: stack' => Some (MColon, FObject members (Some s) :: stack')
    | _ => None
    end
  else deliver (JString s) stack.

(** The first character of a value. *)
Definition start_value (c : ascii) (stack : list Frame) : option PState :=
  if (code c =? 123)%N then Some (MObjectStart, FObject [] None :: stack)
  else if (code c =? 91)%N then Some (MArrayStart, FArray [] :: stack)
  else if (code c =? 34)%N then Some (MString false [], stack)
  else if (code c =? 45)%N then Some (MNumber NMinus (String c ""), stack)
  else if (code c =? 48)%N then Some (MNumber NZero (String c ""), stack)
  else if in_range 49 57 c then Some (MNumber NInt (String c ""), stack)
  else if (code c =? 116)%N then Some (MLiteral "rue" (JBool true), stack)
  else if (code c =? 102)%N then Some (MLiteral "alse" (JBool false), stack)
  else if (code c =? 110)%N then Some (MLiteral "ull" JNull, stack)
  else None.

(** A character after a complete value. *)
Definition after_value (st : PState) (c : ascii) : option PState :=
  match st with
  | (MDone v, stack) => if is_ws c then Some (MDone v, stack) else None
  | (MAfter, FArray rev_elems :: stack') =>
      if is_ws c then Some st
      else if (code c =? 44)%N then Some (MValue, FArray rev_elems :: stack')
      else if (code c =? 93)%N then deliver (JArray (rev rev_elems)) stack'
      else None
  | (MAfter, FObject members None :: stack') =>
      if is_ws c then Some st
      else if (code c =? 44)%N then Some (MKey, FObject members None :: stack')
      else if (code c =? 125)%N then deliver (JObject members) stack'
      else None
  | _ => None
  end.

Definition step (st : PState) (c : ascii) : option PState :=
  let '(mode, stack) := st in
  match mode with
  | MValue => if is_ws c then Some st else start_value c stack
  | MArrayStart =>
      if is_ws c then Some st
      else if (code c =? 93)%N then
        match stack with
        | FArray _ :: stack' => deliver (JArray []) stack'
        | _ => None
        end
      else start_value c stack
  | MObjectStart =>
      if is_ws c then Some st
      else if (code c =? 125)%N then
        match stack with
        | FObject _ _ :: stack' => deliver (JObject []) stack'
        | _ => None
        end
      else if (code c =? 34)%N then Some (MString true [], stack)
      else None
  | MKey =>
      if is_ws c then Some st
      else if (code c =? 34)%N then Some (MString true [], stack)
      else None
  | MColon =>
      if is_ws c then Some st
      else if (code c =? 58)%N then Some (MValue, stack)
      else None
  | MAfter | MDone _ => after_value st c
  | MString key rev_items =>
      if (code c =? 34)%N then end_string key (string_of_items rev_items) stack
      else if (code c =? 92)%N then Some (MEscape key rev_items, stack)
      else if (code c <? 32)%N then None
      else Some (MString key (IByte c :: rev_items), stack)
  | MEscape key rev_items =>
      let plain (b : N) := Some (MString key (IByte (chr b) :: rev_items), stack) in
      if (code c =? 34)%N then plain 34%N
      else if (code c =? 92)%N then plain 92%N
      else if (code c =? 47)%N then plain 47%N
      else if (code c =? 98)%N then plain 8%N
      else if (code c =? 102)%N then plain 12%N
      else if (code c =? 110)%N then plain 10%N
      else if (code c =? 114)%N then plain 13%N
      else if (code c =? 116)%N then plain 9%N
      else if (code c =? 117)%N then Some (MUnicode key rev_items [], stack)
      else None
  | MUnicode key rev_items digits =>
      match hex_value c with
      | None => None
      | Some d =>
          match digits with
          | [d3; d2; d1] =>
              let u := (((d1 * 16 + d2) * 16 + d3) * 16 + d)%N in
              Some (MString key (rev (item_of_unit u) ++ rev_items)%list, stack)
          | _ => Some (MUnicode key rev_items (d :: digits), stack)
          end
      end
  | MNumber ns rev_lexeme =>
      match num_step ns c with
      | Some ns' => Some (MNumber ns' (String c rev_lexeme), stack)
      | None =>
          if num_accepting ns then
            match deliver (JNumber (string_rev_onto rev_lexeme "")) stack with
            | Some st' => after_value st' c
            | None => None
            end
          else None
      end
  | MLiteral rest v =>
      match rest with
      | String c' rest' =>
          if (code c =? code c')%N then
            match rest' with
            | EmptyString => deliver v stack
            | _ => Some (MLiteral rest' v, stack)
            end
          else None
      | EmptyString => None
      end
  end.

Fixpoint feed (st : PState) (text : string) : option PState :=
  match text with
  | EmptyString => Some st
  | String c text' =>
      match step st c with
      | Some st' => feed st' text'
      | None => None
      end
  end.

(** The value read when the text ends. *)
Definition finish (st : PState) : option JSON :=
  match st with
  | (MDone v, []) => Some v
  | (MNumber ns rev_lexeme, []) =>
      if num_accepting ns then Some (JNumber (string_rev_onto rev_lexeme "")) else None
  | _ => None
  end.

Definition parse (text : string) : Result JSON :=
  match feed (MValue, []) text with
  | Some st =>
      match finish st with
      | Some v => Ok v
      | None => Throw (SyntaxError "Unexpected end of JSON input")
      end
  | None => Throw (SyntaxError "Unexpected token in JSON")
  end.

End Json.

Import Json.

(** ** JavaScript values at run time *)

(** The result of reading a property: [None] is [undefined]. *)
Inductive JSType := TyUndefined | TyObject | TyBoolean | TyNumber | TyString.

#[global] Instance JSType_eq_dec : EqDecision JSType.
Proof. solve_decision. Defined.

Definition typeof (v : option JSON) : JSType :=
  match v with
  | None => TyUndefined
  | Some JNull | Some (JArray _) | Some (JObject _) => TyObject
  | Some (JBool _) => TyBoolean
  | Some (JNumber _) => TyNumber
  | Some (JString _) => TyString
  end.

Definition is_null (v : option JSON) : bool :=
  match v with Some JNull => true | _ => false end.

(** [v.k] for one of the property names the program reads ([email],
    [oauth2], [clientId], [clientSecret], [refreshToken]): an own
    property of an object; [undefined] on an array, string, number or
    boolean, which have no property of these names; a [TypeError] on
    [null] and [undefined]. *)
Definition member (v : option JSON) (k : string) : Result (option JSON) :=
  match v with
  | None => Throw (TypeError "Cannot read properties of undefined")
  | Some JNull => Throw (TypeError "Cannot read properties of null")
  | Some (JObject members) => Ok (obj_get k members)
  | Some _ => Ok None
  end.

(** The same read where the receiver is known to be an object. *)
Definition prop (v : option JSON) (k : string) : option JSON :=
  match v with
  | Some (JObject members) => obj_get k members
  | _ => None
  end.

(** A property that a type guard has shown to be a string. *)
Definition string_prop (v : JSON) (k : string) : string :=
  match prop (Some v) k with
  | Some (JString s) => s
  | _ => ""
  end.

(** ** [Map<string, V>]: entries in insertion order, one per key *)

Module Map.
Section ops.
Context {V : Type}.

Fixpoint get (k : string) (m : list (string * V)) : option V :=
  match m with
  | [] => None
  | (k', v) :: m' => if String.eqb k k' then Some v else get k m'
  end.

Definition has (k : string) (m : list (string * V)) : bool :=
  match get k m with Some _ => true | None => false end.

(** [m.set(k, v)]: an existing key keeps its position. *)
Fixpoint set (k : string) (v : V) (m : list (string * V)) : list (string * V) :=
  match m with
  | [] => [(k, v)]
  | (k', v') :: m' =>
      if String.eqb k k' then (k', v) :: m' else (k', v') :: set k v m'
  end.

(** [m.delete(k)]: whether an entry was removed, and the map without it. *)
Definition delete (k : string) (m : list (string * V)) : bool * list (string * V) :=
  (has k m, List.filter (λ kv, negb (String.eqb k (fst kv))) m).

Definition values (m : list (string * V)) : list V := map snd m.
Definition keys (m : list (string * V)) : list string := map fst m.

End ops.
End Map.

(** ** The file system

    A path names a regular file or a directory.  Reading a path that is
    not a regular file throws; failures of the operating system on a
    write (permissions, full disk) are outside the model.  [writes]
    records each call of [writeFileSync], newest first. *)

Inductive Node :=
| File (content : string)
| Directory.

Record FileSystem := {
  nodes : gmap string Node;
  writes : list (string * string);
}.

Definition existsSync (fs : FileSystem) (path : string) : bool :=
  bool_decide (is_Some (nodes fs !! path)).

Definition readFileSync (fs : FileSystem) (path : string) : Result string :=
  match nodes fs !! path with
  | Some (File content) => Ok content
  | Some Directory => Throw (PlainError "EISDIR: illegal operation on a directory, read")
  | None => Throw (PlainError "ENOENT: no such file or directory")
  end.

Definition writeFileSync (path content : string) (fs : FileSystem) : FileSystem :=
  {| nodes := <[path := File content]> (nodes fs);
     writes := (path, content) :: writes fs |}.

Definition mkdirSync (path : string) (fs : FileSystem) : FileSystem :=
  {| nodes := <[path := Directory]> (nodes fs); writes := writes fs |}.

Definition path_join (dir name : string) : string := dir +:+ "/" +:+ name.

(** ** [types.ts] *)

Record OAuth2Credentials := {
  clientId : string;
  clientSecret : string;
  refreshToken : string;
  accessToken : option string;
}.

Record Account := {
  email : string;
  oauth2 : OAuth2Credentials;
}.

(** The object an [Account] is at run time.  A property whose value is
    [undefined] is left out, as [JSON.stringify] and [toEqual] do. *)
Definition OAuth2Credentials_object (o : OAuth2Credentials) : JSON :=
  JObject ([("clientId", JString (clientId o));
            ("clientSecret", JString (clientSecret o));
            ("refreshToken", JString (refreshToken o))]
           ++ match accessToken o with
              | Some t => [("accessToken", JString t)]
              | None => []
              end)%list.

Definition Account_object (a : Account) : JSON :=
  JObject [("email", JString (email a)); ("oauth2", OAuth2Credentials_object (oauth2 a))].

(** [{ clientId, clientSecret }] of type [StoredCredentials]. *)
Definition StoredCredentials_object (clientId clientSecret : string) : JSON :=
  JObject [("clientId", JString clientId); ("clientSecret", JString clientSecret)].

(** ** [account-storage.ts] *)

Module AccountStorage.

Record t := {
  accounts : list (string * JSON);
  configDir : string;
  accountsFile : string;
  credentialsFile : string;
}.

Definition with_accounts (this : t) (m : list (string * JSON)) : t :=
  {| accounts := m; configDir := configDir this;
     accountsFile := accountsFile this; credentialsFile := credentialsFile this |}.

Definition ensureConfigDir (this : t) (fs : FileSystem) : FileSystem :=
  if negb (existsSync fs (configDir this)) then mkdirSync (configDir this) fs else fs.

Definition isValidAccount (account : option JSON) : bool :=
  if negb (bool_decide (typeof account = TyObject)) || is_null account then false
  else
    let acc := account in
    if negb (bool_decide (typeof (prop acc "email") = TyString)) then false
    else if negb (bool_decide (typeof (prop acc "oauth2") = TyObject))
            || is_null (prop acc "oauth2") then false
    else
      let oauth2 := prop acc "oauth2" in
      bool_decide (typeof (prop oauth2 "clientId") = TyString)
      && bool_decide (typeof (prop oauth2 "clientSecret") = TyString)
      && bool_decide (typeof (prop oauth2 "refreshToken") = TyString).

(** The body of the [for] loop of [loadAccounts]. *)
Definition load_entry (m : list (string * JSON)) (account : JSON) : list (string * JSON) :=
  if isValidAccount (Some account)
  then Map.set (string_prop account "email") account m
  else m.

Definition loadAccounts (this : t) (fs : FileSystem) : Result t :=
  if existsSync fs (accountsFile this) then
    try_catch
      (let! text := readFileSync fs (accountsFile this) in
       let! data := parse text in
       match data with
       | JArray elems => Ok (with_accounts this (fold_left load_entry elems (accounts this)))
       | _ => Ok this
       end)
      (λ _, Ok this)
  else Ok this.

(** [new AccountStorage(configDir)]; [homedir] is [os.homedir()]. *)
Definition new (homedir : string) (dir : option string) (fs : FileSystem)
  : Result (t * FileSystem) :=
  let configDir := default (path_join homedir ".gtcli") dir in
  let this := {| accounts := [];
                 configDir := configDir;
                 accountsFile := path_join configDir "accounts.json";
                 credentialsFile := path_join configDir "credentials.json" |} in
  let fs := ensureConfigDir this fs in
  let! this := loadAccounts this fs in
  Ok (this, fs).

Definition saveAccounts (this : t) (fs : FileSystem) : FileSystem :=
  writeFileSync (accountsFile this) (stringify (JArray (Map.values (accounts this)))) fs.

Definition addAccount (account : Account) (this : t) (fs : FileSystem) : t * FileSystem :=
  let this := with_accounts this (Map.set (email account) (Account_object account) (accounts this)) in
  (this, saveAccounts this fs).

Definition getAccount (email : string) (this : t) : option JSON :=
  Map.get email (accounts this).

Definition getAllAccounts (this : t) : list JSON :=
  Map.values (accounts this).

Definition deleteAccount (email : string) (this : t) (fs : FileSystem)
  : bool * t * FileSystem :=
  let '(deleted, m) := Map.delete email (accounts this) in
  let this := with_accounts this m in
  if deleted then (deleted, this, saveAccounts this fs)
  else (deleted, this, fs).

Definition hasAccount (email : string) (this : t) : bool :=
  Map.has email (accounts this).

Definition setCredentials (clientId clientSecret : string) (this : t) (fs : FileSystem)
  : FileSystem :=
  writeFileSync (credentialsFile this)
                (stringify (StoredCredentials_object clientId clientSecret)) fs.

Definition getCredentials (this : t) (fs : FileSystem) : Result (option JSON) :=
  if negb (existsSync fs (credentialsFile this)) then Ok None
  else
    try_catch
      (let! text := readFileSync fs (credentialsFile this) in
       let! data := parse text in
       let! clientId := member (Some data) "clientId" in
       if bool_decide (typeof clientId = TyString) then
         let! clientSecret := member (Some data) "clientSecret" in
         if bool_decide (typeof clientSecret = TyString) then Ok (Some data)
         else Ok None
       else Ok None)
      (λ _, Ok None).

Definition getConfigDir (this : t) : string := configDir this.

End AccountStorage.

(** ** Strings *)

Fixpoint drop_prefix (p s : string) : option string :=
  match p, s with
  | EmptyString, _ => Some s
  | String a p', String b s' => if (code a =? code b)%N then drop_prefix p' s' else None
  | String _ _, EmptyString => None
  end.

(** [s.includes(needle)] *)
Fixpoint includes (needle s : string) : bool :=
  match drop_prefix needle s with
  | Some _ => true
  | None =>
      match s with
      | EmptyString => false
      | String _ s' => includes needle s'
      end
  end.

(** The longest prefix of [s] without the character of code [stop], and
    the rest from that character on. *)
Fixpoint span_until (stop : N) (s : string) : string * string :=
  match s with
  | EmptyString => ("", "")
  | String c s' =>
      if (code c =? stop)%N then ("", s)
      else let '(a, b) := span_until stop s' in (String c a, b)
  end.

(** [s.match(/code=([^&]+)/)]: the first group of the leftmost match. *)
Fixpoint match_code (s : string) : option string :=
  match s with
  | EmptyString => None
  | String _ s' =>
      match drop_prefix "code=" s with
      | Some rest =>
          match fst (span_until 38 rest) with
          | EmptyString => match_code s'
          | group => Some group
          end
      | None => match_code s'
      end
  end.

(** A text written with an apostrophe where the text meant has a
    double quote (for the JSON texts of the examples). *)
Fixpoint with_double_quotes (s : string) : string :=
  match s with
  | EmptyString => ""
  | String c s' => String (if (code c =? 39)%N then dquote else c) (with_double_quotes s')
  end.

(** ** UTF-8 sequences of decoded bytes *)

Module Utf8.

(** The decoder of the Encoding Standard: the bytes of the sequence
    being read, how many more it needs, and the range allowed for the
    next one. *)
Record State := {
  pending : list ascii;
  needed : nat;
  lower : N;
  upper : N;
}.

Definition initial : State := {| pending := []; needed := 0; lower := 128; upper := 191 |}.

Inductive Step :=
| Emit (bytes : list ascii)      (* a complete code point *)
| More (st : State)              (* the sequence goes on *)
| Invalid.                       (* not UTF-8 here *)

(** A byte when no sequence is open. *)
Definition start (b : ascii) : Step :=
  let n := code b in
  if (n <? 128)%N then Emit [b]
  else if ((194 <=? n) && (n <=? 223))%N then
    More {| pending := [b]; needed := 1; lower := 128; upper := 191 |}
  else if ((224 <=? n) && (n <=? 239))%N then
    More {| pending := [b]; needed := 2;
            lower := if (n =? 224)%N then 160 else 128;
            upper := if (n =? 237)%N then 159 else 191 |}
  else if ((240 <=? n) && (n <=? 244))%N then
    More {| pending := [b]; needed := 3;
            lower := if (n =? 240)%N then 144 else 128;
            upper := if (n =? 244)%N then 143 else 191 |}
  else Invalid.

Definition step (st : State) (b : ascii) : Step :=
  match needed st with
  | O => start b
  | S k =>
      if ((lower st <=? code b) && (code b <=? upper st))%N then
        match k with
        | O => Emit (pending st ++ [b])
        | S _ => More {| pending := (pending st ++ [b])%list; needed := k;
                         lower := 128; upper := 191 |}
        end
      else Invalid
  end.

(** Decoding with replacement (UTF-8 decode without BOM): an invalid
    byte or a sequence cut short becomes U+FFFD, and the byte that cut a
    sequence short is read again as the start of the next one. *)
Fixpoint decode_lossy (st : State) (bytes : list ascii) : list ascii :=
  match bytes with
  | [] => match needed st with O => [] | S _ => Json.replacement_character end
  | b :: rest =>
      match step st b with
      | Emit out => (out ++ decode_lossy initial rest)%list
      | More st' => decode_lossy st' rest
      | Invalid =>
          match needed st with
          | O => (Json.replacement_character ++ decode_lossy initial rest)%list
          | S _ =>
              match start b with
              | Emit out =>
                  (Json.replacement_character ++ out ++ decode_lossy initial rest)%list
              | More st' => (Json.replacement_character ++ decode_lossy st' rest)%list
              | Invalid =>
                  (Json.replacement_character ++ Json.replacement_character
                   ++ decode_lossy initial rest)%list
              end
          end
      end
  end.

End Utf8.

(** ** Percent-encoding *)

Definition percent : N := 37.

(** The byte written [%XY] at the head of [s], and what follows it. *)
Definition percent_byte (s : string) : option (ascii * string) :=
  match s with
  | String p (String h1 (String h2 rest)) =>
      if (code p =? percent)%N then
        match hex_value h1, hex_value h2 with
        | Some a, Some b => Some (chr (16 * a + b), rest)
        | _, _ => None
        end
      else None
  | _ => None
  end.

(** [decodeURIComponent(s)]: every [%] must start an escape, and the
    escaped bytes must spell whole UTF-8 sequences; a character that is
    not escaped stands for itself. *)
Fixpoint decode_component (st : Utf8.State) (s : string) : option (list ascii) :=
  match s with
  | EmptyString => match Utf8.needed st with O => Some [] | S _ => None end
  | String c s1 =>
      if (code c =? percent)%N then
        match s1 with
        | String h1 (String h2 rest) =>
            match hex_value h1, hex_value h2 with
            | Some a, Some b =>
                match Utf8.step st (chr (16 * a + b)) with
                | Utf8.Emit out =>
                    match decode_component Utf8.initial rest with
                    | Some l => Some (out ++ l)%list
                    | None => None
                    end
                | Utf8.More st' => decode_component st' rest
                | Utf8.Invalid => None
                end
            | _, _ => None
            end
        | _ => None
        end
      else
        match Utf8.needed st with
        | O =>
            match decode_component Utf8.initial s1 with
            | Some l => Some (c :: l)
            | None => None
            end
        | S _ => None
        end
  end.

Definition decodeURIComponent (s : string) : Result string :=
  match decode_component Utf8.initial s with
  | Some bytes => Ok (string_of_list_ascii bytes)
  | None => Throw (URIError "URI malformed")
  end.

(** Percent-decoding of the URL Standard: an [%] that starts no escape
    stands for itself. *)
Fixpoint percent_decode (s : string) : list ascii :=
  match s with
  | EmptyString => []
  | String c s1 =>
      match s1 with
      | String h1 (String h2 rest) =>
          if (code c =? percent)%N then
            match hex_value h1, hex_value h2 with
            | Some a, Some b => chr (16 * a + b) :: percent_decode rest
            | _, _ => c :: percent_decode s1
            end
          else c :: percent_decode s1
      | _ => c :: percent_decode s1
      end
  end.

(** ** [URL] and [URLSearchParams]

    [new URL(input)] without a base, as far as the program observes it:
    whether the input parses, and its query.  The validation of a host
    stops at the forbidden code points: IDNA processing and the parsing
    of IPv4 and IPv6 literals are not modelled (such hosts are taken as
    they are). *)

Module URL.

Record t := {
  scheme : string;
  query : string;
}.

Definition is_c0_or_space (c : ascii) : bool := (code c <=? 32)%N.
Definition is_tab_or_newline (c : ascii) : bool :=
  (code c =? 9)%N || (code c =? 10)%N || (code c =? 13)%N.

Fixpoint trim_left (s : string) : string :=
  match s with
  | String c s' => if is_c0_or_space c then trim_left s' else s
  | EmptyString => s
  end.

Definition trim (s : string) : string :=
  string_rev_onto (trim_left (string_rev_onto (trim_left s) "")) "".

Fixpoint remove_tab_newline (s : string) : string :=
  match s with
  | EmptyString => ""
  | String c s' =>
      if is_tab_or_newline c then remove_tab_newline s'
      else String c (remove_tab_newline s')
  end.

Definition lower_case (c : ascii) : ascii :=
  if in_range 65 90 c then chr (code c + 32) else c.

Definition is_scheme_char (c : ascii) : bool :=
  is_alpha c || is_digit c || (code c =? 43)%N || (code c =? 45)%N || (code c =? 46)%N.

(** The scheme characters at the head of [s], lower-cased, and what
    follows the colon that ends them. *)
Fixpoint scheme_rest (s : string) : option (string * string) :=
  match s with
  | EmptyString => None
  | String c s' =>
      if (code c =? 58)%N then Some ("", s')
      else if is_scheme_char c then
        match scheme_rest s' with
        | Some (sch, rest) => Some (String (lower_case c) sch, rest)
        | None => None
        end
      else None
  end.

Definition parse_scheme (s : string) : option (string * string) :=
  match s with
  | String c _ => if is_alpha c then scheme_rest s else None
  | EmptyString => None
  end.

Definition is_special (scheme : string) : bool :=
  String.eqb scheme "http" || String.eqb scheme "https" || String.eqb scheme "ws"
  || String.eqb scheme "wss" || String.eqb scheme "ftp" || String.eqb scheme "file".

Definition is_slash (special : bool) (c : ascii) : bool :=
  (code c =? 47)%N || (special && (code c =? 92)%N).

Fixpoint skip_slashes (s : string) : string :=
  match s with
  | String c s' => if is_slash true c then skip_slashes s' else s
  | EmptyString => s
  end.

(** The authority at the head of [s]: up to the first slash. *)
Fixpoint authority_of (special : bool) (s : string) : string :=
  match s with
  | EmptyString => ""
  | String c s' => if is_slash special c then "" else String c (authority_of special s')
  end.

(** What follows the last [@] of the authority (all of it when it has none). *)
Fixpoint after_last_at (s : string) : string :=
  match s with
  | EmptyString => ""
  | String c s' =>
      if (code c =? 64)%N && negb (includes "@" s') then s'
      else if includes "@" s' then after_last_at s' else s
  end.

(** Host and port: the port follows the first colon outside brackets. *)
Fixpoint host_port (in_brackets : bool) (s : string) : string * option string :=
  match s with
  | EmptyString => ("", None)
  | String c s' =>
      if (code c =? 58)%N && negb in_brackets then ("", Some s')
      else
        let in_brackets' :=
          if (code c =? 91)%N then true
          else if (code c =? 93)%N then false else in_brackets in
        let '(h, p) := host_port in_brackets' s' in (String c h, p)
  end.

Fixpoint all_digits (s : string) : bool :=
  match s with
  | EmptyString => true
  | String c s' => is_digit c && all_digits s'
  end.

Definition port_ok (p : option string) : bool :=
  match p with
  | None => true
  | Some digits =>
      all_digits digits
      && match Json.decimal_value digits 0 with
         | Some n => (n <=? 65535)%N
         | None => false
         end
  end.

Definition forbidden_host_code_point (c : ascii) : bool :=
  (code c <=? 32)%N || (code c =? 35)%N || (code c =? 47)%N || (code c =? 58)%N
  || (code c =? 60)%N || (code c =? 62)%N || (code c =? 63)%N || (code c =? 64)%N
  || (code c =? 91)%N || (code c =? 92)%N || (code c =? 93)%N || (code c =? 94)%N
  || (code c =? 124)%N.

Definition forbidden_domain_code_point (c : ascii) : bool :=
  forbidden_host_code_point c || (code c <=? 31)%N || (code c =? 37)%N || (code c =? 127)%N.

Definition is_ipv6_literal (host : string) : bool :=
  match host with
  | String c _ => (code c =? 91)%N
  | EmptyString => false
  end.

Definition host_ok (special : bool) (host : string) : bool :=
  if is_ipv6_literal host then true
  else if special then
    negb (existsb forbidden_domain_code_point (percent_decode host))
  else negb (existsb forbidden_host_code_point (list_ascii_of_string host)).

(** An authority of a special scheme other than [file] needs a host. *)
Definition authority_ok (scheme : string) (special : bool) (authority : string) : bool :=
  let has_credentials := includes "@" authority in
  let '(host, port) := host_port false (after_last_at authority) in
  let empty := match host with EmptyString => true | _ => false end in
  if empty then
    if special then
      String.eqb scheme "file" && negb has_credentials
      && match port with None => true | Some _ => false end
    else negb has_credentials && match port with None | Some "" => true | _ => false end
  else host_ok special host && port_ok port.

Definition parse (input : string) : Result t :=
  let input := remove_tab_newline (trim input) in
  match parse_scheme input with
  | None => Throw (TypeError "Invalid URL")
  | Some (scheme, rest) =>
      let before_fragment := fst (span_until 35 rest) in
      let '(before_query, query) := span_until 63 before_fragment in
      let query := match query with String _ q => q | EmptyString => "" end in
      let special := is_special scheme in
      let ok :=
        if special && negb (String.eqb scheme "file") then
          authority_ok scheme special (authority_of special (skip_slashes before_query))
        else
          match drop_prefix "//" before_query with
          | Some after => authority_ok scheme special (authority_of special after)
          | None => true
          end in
      if ok then Ok {| scheme := scheme; query := query |}
      else Throw (TypeError "Invalid URL")
  end.

(** The [application/x-www-form-urlencoded] parser. *)
Fixpoint split_on (sep : N) (s : string) (current : string) : list string :=
  match s with
  | EmptyString => [string_rev_onto current ""]
  | String c s' =>
      if (code c =? sep)%N then string_rev_onto current "" :: split_on sep s' ""
      else split_on sep s' (String c current)
  end.

Fixpoint plus_to_space (s : string) : string :=
  match s with
  | EmptyString => ""
  | String c s' => String (if (code c =? 43)%N then chr 32 else c) (plus_to_space s')
  end.

Definition form_decode (s : string) : string :=
  string_of_list_ascii (Utf8.decode_lossy Utf8.initial (percent_decode (plus_to_space s))).

Definition form_pair (piece : string) : string * string :=
  let '(name, value) := span_until 61 piece in
  let value := match value with String _ v => v | EmptyString => "" end in
  (form_decode name, form_decode value).

Definition searchParams (url : t) : list (string * string) :=
  map form_pair
      (List.filter (λ piece, negb (String.eqb piece "")) (split_on 38 (query url) "")).

(** [url.searchParams.get(name)]: the first value of that name, or [null]. *)
Fixpoint searchParams_get (name : string) (params : list (string * string)) : option string :=
  match params with
  | [] => None
  | (n, v) :: rest => if String.eqb name n then Some v else searchParams_get name rest
  end.

End URL.

(** ** [oauth-flow.ts] *)

(** A value of type [string | null | undefined]. *)
Inductive Nullable :=
| Undefined
| Null
| Str (s : string).

(** [!!v] *)
Definition truthy (v : Nullable) : bool :=
  match v with
  | Str (String _ _) => true
  | _ => false
  end.

Definition of_option (o : option string) : Nullable :=
  match o with Some s => Str s | None => Null end.

(** [v ?? undefined] *)
Definition or_undefined (v : Nullable) : option string :=
  match v with Str s => Some s | _ => None end.

(** A value known to be a string. *)
Definition the_string (v : Nullable) : string :=
  match v with Str s => s | _ => "" end.

(** The [tokens] of the response of [OAuth2Client.getToken]. *)
Record Credentials := {
  refresh_token : Nullable;
  access_token : Nullable;
}.

Module OAuthFlow.

Record OAuthResult := {
  refreshToken : string;
  accessToken : option string;
}.

Definition REDIRECT_PORT : N := 3000.

(** [exchangeCode] from the point where [getToken] has settled. *)
Definition exchange_result (response : Result Credentials) : Result OAuthResult :=
  let! tokens := response in
  if negb (truthy (refresh_token tokens)) then
    Throw (PlainError
             "No refresh token received. Try revoking app access and re-authorizing.")
  else
    Ok {| refreshToken := the_string (refresh_token tokens);
          accessToken := or_undefined (access_token tokens) |}.

(** [getToken] is the token endpoint of the provider. *)
Definition exchangeCode (getToken : string → Result Credentials) (code : string)
  : Result OAuthResult :=
  exchange_result (getToken code).

Definition extractCodeFromUrl (url : string) : Result string :=
  try_catch
    (let! parsedUrl := URL.parse url in
     let code := URL.searchParams_get "code" (URL.searchParams parsedUrl) in
     if negb (truthy (of_option code)) then
       Throw (PlainError "No authorization code found in URL")
     else Ok (default "" code))
    (λ _,
       if includes "code=" url then
         match match_code url with
         | Some group => decodeURIComponent group
         | None => Throw (PlainError "Invalid redirect URL")
         end
       else Throw (PlainError "Invalid redirect URL")).

(** [authorizeManual]: [redirectUrl] is the line the user pastes;
    [console] holds the lines of [console.log], newest first.  The
    prompt of [rl.question] is written by readline itself. *)
Definition authorizeManual (getToken : string → Result Credentials)
    (authUrl redirectUrl : string) (console : list string)
  : list string * Result OAuthResult :=
  let console := ("Open this URL in your browser:" +:+ Json.newline) :: console in
  let console := authUrl :: console in
  let console :=
    (Json.newline +:+ "After authorization, paste the redirect URL here:") :: console in
  (console,
   try_catch
     (let! code := extractCodeFromUrl redirectUrl in
      exchangeCode getToken code)
     (λ error, Throw error)).

(** [openBrowser]: [opens] tells whether the command succeeds. *)
Definition openBrowser (opens : bool) (console : list string) : list string :=
  if opens then console else "Could not open browser automatically." :: console.

(** *** [authorizeBrowser]

    The promise the function returns, the local server, the timer and
    the token exchanges in flight; one transition per callback. *)

Inductive Promise :=
| Pending
| Resolved (result : OAuthResult)
| Rejected (error : Error).

Definition resolve (r : OAuthResult) (p : Promise) : Promise :=
  match p with Pending => Resolved r | _ => p end.

Definition reject (e : Error) (p : Promise) : Promise :=
  match p with Pending => Rejected e | _ => p end.

Inductive Server :=
| Starting         (* listen() called *)
| Listening
| Closed           (* close() called *)
| Failed.          (* the port could not be bound *)

Definition close (s : Server) : Server :=
  match s with Failed => Failed | _ => Closed end.

Record Browser := {
  server : Server;
  promise : Promise;
  timer : bool;                       (* the timeout has not fired yet *)
  exchanges : list string;            (* codes whose exchange is in flight; which
                                         of them an answer belongs to is not
                                         recorded, the oldest is taken off *)
  responses : list (N * string);      (* status and body, newest first *)
  logged : list string;               (* lines of [console.log], newest first *)
  uncaught : option Error;            (* the exception that ended the process *)
}.

Inductive Event :=
| Bound                                        (* the server listens *)
| BindFailed (message : string)                (* [error] event of the server *)
| Request (code error : option string)         (* a request, with the two query
                                                  parameters of its target *)
| Tokens (response : Result Credentials)       (* an exchange in flight settles *)
| TimerFired                                   (* five minutes have passed *)
| Unparsable.                                  (* a request whose target [new URL]
                                                  refuses *)

(** The state the executor of the promise leaves. *)
Definition started : Browser :=
  {| server := Starting; promise := Pending; timer := true;
     exchanges := []; responses := []; logged := []; uncaught := None |}.

(** The request handler, from the point where [new URL] has returned. *)
Definition on_request (code error : option string) (b : Browser) : Browser :=
  if truthy (of_option error) then
    {| server := close (server b);
       promise := reject (PlainError ("Authorization failed: " +:+ default "" error))
                         (promise b);
       timer := timer b;
       exchanges := exchanges b;
       responses :=
         (400%N, "<html><body><h1>Authorization Failed</h1><p>" +:+ default "" error
                 +:+ "</p></body></html>") :: responses b;
       logged := logged b;
       uncaught := uncaught b |}
  else if truthy (of_option code) then
    {| server := close (server b);
       promise := promise b;
       timer := timer b;
       exchanges := (exchanges b ++ [default "" code])%list;
       responses :=
         (200%N, "<html><body><h1>Authorization Successful</h1><p>You can close this window.</p></body></html>")
         :: responses b;
       logged := logged b;
       uncaught := uncaught b |}
  else
    {| server := server b;
       promise := promise b;
       timer := timer b;
       exchanges := exchanges b;
       responses := (400%N, "<html><body><h1>Invalid Request</h1></body></html>")
                    :: responses b;
       logged := logged b;
       uncaught := uncaught b |}.

(** The request handler when [new URL(req.url ?? "", REDIRECT_URI)]
    throws: the handler is an async function and nothing awaits it, so
    the exception is a rejection that nothing handles.  No response is
    written, neither [close] nor [resolve] nor [reject] is called, and
    Node ends the process. *)
Definition on_unparsable (b : Browser) : Browser :=
  {| server := server b; promise := promise b; timer := timer b;
     exchanges := exchanges b; responses := responses b; logged := logged b;
     uncaught := Some (TypeError "Invalid URL") |}.

(** The handler has no guard of its own: a request reaches it while the
    server listens and, over a connection opened before, after
    [close()] as well.  Whether a closed server has ever listened is
    not recorded. *)
Definition reachable (s : Server) : bool :=
  match s with
  | Listening | Closed => true
  | Starting | Failed => false
  end.

(** The callback of an event; [None]: the event cannot happen in this
    state. *)
Definition callback (b : Browser) (e : Event) : option Browser :=
  match e with
  | Bound =>
      match server b with
      | Starting =>
          Some {| server := Listening; promise := promise b; timer := timer b;
                  exchanges := exchanges b; responses := responses b;
                  logged := "Waiting for authorization on port 3000..." :: logged b;
                  uncaught := uncaught b |}
      | _ => None
      end
  | BindFailed message =>
      match server b with
      | Starting =>
          Some {| server := Failed;
                  promise := reject (PlainError ("Failed to start local server: " +:+ message))
                                    (promise b);
                  timer := timer b; exchanges := exchanges b; responses := responses b;
                  logged := logged b; uncaught := uncaught b |}
      | _ => None
      end
  | Request code error =>
      if reachable (server b) then Some (on_request code error b) else None
  | Tokens response =>
      match exchanges b with
      | _ :: rest =>
          Some {| server := server b;
                  promise := match exchange_result response with
                             | Ok result => resolve result (promise b)
                             | Throw err => reject err (promise b)
                             end;
                  timer := timer b; exchanges := rest; responses := responses b;
                  logged := logged b; uncaught := uncaught b |}
      | [] => None
      end
  | TimerFired =>
      if timer b then
        Some {| server := close (server b);
                promise := reject (PlainError "Authorization timed out after 5 minutes")
                                  (promise b);
                timer := false; exchanges := exchanges b; responses := responses b;
                logged := logged b; uncaught := uncaught b |}
      else None
  | Unparsable =>
      if reachable (server b) then Some (on_unparsable b) else None
  end.

(** No callback runs once the process has ended. *)
Definition step (b : Browser) (e : Event) : option Browser :=
  match uncaught b with
  | Some _ => None
  | None => callback b e
  end.

Fixpoint run (b : Browser) (events : list Event) : option Browser :=
  match events with
  | [] => Some b
  | e :: rest =>
      match step b e with
      | Some b' => run b' rest
      | None => None
      end
  end.

(** A request that ends the wait: it carries an error or a code. *)
Definition completing (e : Event) : bool :=
  match e with
  | Request code error => truthy (of_option error) || truthy (of_option code)
  | _ => false
  end.

(** What a run meets outside the program: the token endpoint, the URL
    that [getAuthUrl] returns, the line pasted in manual mode, whether
    the command of [openBrowser] succeeds, and the callbacks of the
    interactive mode in the order in which they happen. *)
Record Environment := {
  getToken : string → Result Credentials;
  authUrl : string;
  redirectUrl : string;
  browserOpens : bool;
  events : list Event;
}.

(** The interactive run: an event that cannot happen is passed over. *)
Definition authorizeBrowser (events : list Event) : Browser :=
  fold_left (λ b e, default b (step b e)) events started.

(** What awaiting the promise of [authorize] comes to. *)
Inductive Awaited :=
| Settled (result : Result OAuthResult)
| Unsettled                   (* the promise stays pending *)
| Ended (error : Error).      (* the process has ended on an exception that
                                 nothing catches, the promise still pending *)

(** [await flow.authorize(manual)], with the lines it prints put on
    [console]. *)
Definition authorize (env : Environment) (manual : bool) (console : list string)
  : list string * Awaited :=
  if manual then
    let printed :=
      authorizeManual (getToken env) (authUrl env) (redirectUrl env) console in
    (printed.1, Settled printed.2)
  else
    let console := "Opening browser for authorization..." :: console in
    let console :=
      ("If browser doesn't open, visit: " +:+ authUrl env +:+ Json.newline) :: console in
    let console := openBrowser (browserOpens env) console in
    let b := authorizeBrowser (events env) in
    ((logged b ++ console)%list,
     match promise b with
     | Resolved result => Settled (Ok result)
     | Rejected err => Settled (Throw err)
     | Pending =>
         match uncaught b with
         | Some err => Ended err
         | None => Unsettled
         end
     end).

(** While the server is starting or listening nothing has been decided
    yet. *)
Definition undecided (b : Browser) : Prop :=
  match server b with
  | Starting | Listening => promise b = Pending ∧ exchanges b = []
  | Closed | Failed => True
  end.

(** A server that is closed, or never listened, stays so. *)
Definition down (b : Browser) : Prop := server b = Closed ∨ server b = Failed.

End OAuthFlow.

(** ** The [accounts add] command of the CLI *)

Module Cli.

(** An authorization run that was started.  [exchangeCode] is only
    called from within such a run. *)
Record AuthorizationRun := {
  manual_mode : bool;
  client_id : string;
  client_secret : string;
}.

Record World := {
  storage : AccountStorage.t;
  fs : FileSystem;
  console : list string;                (* what [console.log] and [console.error]
                                           were given, newest first *)
  network : list AuthorizationRun;      (* newest first *)
}.

Inductive Outcome :=
| Returned                   (* the command ends normally *)
| Exit (status : N)          (* the process ends with this status *)
| Threw (error : Error)      (* an exception reaches [main] *)
| Waiting.                   (* the promise awaited never settles *)

(** [error(msg)]: print and leave. *)
Definition error (msg : string) (w : World) : Outcome * World :=
  (Exit 1,
   {| storage := storage w; fs := fs w;
      console := ("Error: " +:+ msg) :: console w; network := network w |}).

(** [case "add"] of [handleAccounts(args)]; [args] starts with ["add"].
    When a request handler of the interactive authorization throws
    while the command waits, Node ends the process with status 1. *)
Definition handleAccounts_add (env : OAuthFlow.Environment) (args : list string) (w : World)
  : Outcome * World :=
  let manual := existsb (String.eqb "--manual") args in
  let filtered := List.filter (λ a, negb (String.eqb a "--manual")) (tail args) in
  match head filtered with
  | None | Some EmptyString => error "Usage: accounts add <email> [--manual]" w
  | Some email =>
      if AccountStorage.hasAccount email (storage w) then
        error ("Account '" +:+ email +:+ "' already exists") w
      else
        match AccountStorage.getCredentials (storage w) (fs w) with
        | Throw err => (Threw err, w)
        | Ok None =>
            error "No credentials configured. Run: gtcli accounts credentials <credentials.json>" w
        | Ok (Some creds) =>
            let clientId := string_prop creds "clientId" in
            let clientSecret := string_prop creds "clientSecret" in
            let '(console', awaited) := OAuthFlow.authorize env manual (console w) in
            let w :=
              {| storage := storage w; fs := fs w; console := console';
                 network := {| manual_mode := manual; client_id := clientId;
                               client_secret := clientSecret |} :: network w |} in
            match awaited with
            | OAuthFlow.Unsettled => (Waiting, w)
            | OAuthFlow.Ended _ => (Exit 1, w)
            | OAuthFlow.Settled (Throw err) => (Threw err, w)
            | OAuthFlow.Settled (Ok result) =>
                let account :=
                  {| email := email;
                     oauth2 := {| clientId := clientId;
                                  clientSecret := clientSecret;
                                  refreshToken := OAuthFlow.refreshToken result;
                                  accessToken := OAuthFlow.accessToken result |} |} in
                let '(storage', fs') := AccountStorage.addAccount account (storage w) (fs w) in
                (Returned,
                 {| storage := storage'; fs := fs';
                    console := ("Account '" +:+ email +:+ "' added") :: console w;
                    network := network w |})
            end
        end
  end.

End Cli.

(** ** Data of the examples *)

(** The accounts file of the test "should skip invalid accounts in
    accounts.json". *)
Definition one_valid_two_invalid : string :=
  with_double_quotes
    "[{'email':'valid@example.com','oauth2':{'clientId':'c','clientSecret':'s','refreshToken':'r'}},{'email':'invalid'},{'invalid':true}]".

Definition only_file (path text : string) : FileSystem :=
  {| nodes := {[ path := File text ]}; writes := [] |}.

Module Example.
Import Cli.

Definition known_account : Account :=
  {| email := "a@x.com";
     oauth2 := {| clientId := "c"; clientSecret := "s";
                  refreshToken := "r"; accessToken := None |} |}.

Definition world_with_known_account : World :=
  {| storage :=
       {| AccountStorage.accounts := [("a@x.com", Account_object known_account)];
          AccountStorage.configDir := "/cfg";
          AccountStorage.accountsFile := "/cfg/accounts.json";
          AccountStorage.credentialsFile := "/cfg/credentials.json" |};
     fs := only_file "/cfg/credentials.json"
             (stringify (StoredCredentials_object "c" "s"));
     console := [];
     network := [] |}.

Definition quiet_environment : OAuthFlow.Environment :=
  {| OAuthFlow.getToken :=
       λ _, Ok {| refresh_token := Str "new"; access_token := Null |};
     OAuthFlow.authUrl := "https://accounts.google.com/o/oauth2/v2/auth";
     OAuthFlow.redirectUrl := "http://localhost:3000?code=abc";
     OAuthFlow.browserOpens := true;
     OAuthFlow.events := [] |}.

End Example.

(** ** Values that [JSON.parse] returns *)

(** The state of the number automaton after the first character. *)
Definition num_start (c : ascii) : option NumState :=
  if (code c =? 45)%N then Some NMinus
  else if (code c =? 48)%N then Some NZero
  else if in_range 49 57 c then Some NInt
  else None.

Fixpoint num_run (ns : NumState) (s : string) : option NumState :=
  match s with
  | EmptyString => Some ns
  | String c s' =>
      match num_step ns c with
      | Some ns' => num_run ns' s'
      | None => None
      end
  end.

(** The grammar of a JSON number. *)
Definition number_ok (lexeme : string) : bool :=
  match lexeme with
  | EmptyString => false
  | String c rest =>
      match num_start c with
      | Some ns =>
          match num_run ns rest with
          | Some ns' => num_accepting ns'
          | None => false
          end
      | None => false
      end
  end.

(** [a] may stand before [b] among the keys of an object: indices in
    ascending order, then the other keys. *)
Definition key_before (a b : string) : Prop :=
  match array_index a, array_index b with
  | Some n, Some n' => (n < n')%N
  | None, Some _ => False
  | _, None => True
  end.

(** Keys without repetition, in the order in which an object
    enumerates them. *)
Fixpoint ordered (keys : list string) : Prop :=
  match keys with
  | [] => True
  | k :: ks => (k ∉ ks) ∧ ordered ks ∧ (∀ k', k' ∈ ks → key_before k k')
  end.

(** The values [JSON.parse] can return: numbers follow the grammar, the
    keys of an object are ordered. *)
Fixpoint well_formed (v : JSON) : Prop :=
  match v with
  | JNull | JBool _ | JString _ => True
  | JNumber lexeme => number_ok lexeme = true
  | JArray elems => fold_right (λ e P, well_formed e ∧ P) True elems
  | JObject members =>
      ordered (map fst members)
      ∧ fold_right (λ m P, well_formed (snd m) ∧ P) True members
  end.

(** A character that can follow a number. *)
Definition delimiter (c : ascii) : bool :=
  is_ws c || (code c =? 44)%N || (code c =? 93)%N || (code c =? 125)%N.

Definition delimited (rest : string) : Prop :=
  match rest with
  | EmptyString => False
  | String d _ => delimiter d = true
  end.

Definition is_number (v : JSON) : Prop :=
  match v with JNumber _ => True | _ => False end.

(** The parts of an array or object, each followed by the separator,
    the last one by [t]. *)
Fixpoint joined (sep : string) (parts : list string) (t : string) : string :=
  match parts with
  | [] => t
  | [p] => p +:+ t
  | p :: ps => p +:+ sep +:+ joined sep ps t
  end.

(** Induction over a value and the values inside it. *)
Fixpoint JSON_nested_ind (P : JSON → Prop)
    (Hnull : P JNull) (Hbool : ∀ b, P (JBool b))
    (Hnumber : ∀ lexeme, P (JNumber lexeme)) (Hstring : ∀ s, P (JString s))
    (Harray : ∀ elems, fold_right (λ e Q, P e ∧ Q) True elems → P (JArray elems))
    (Hobject : ∀ members,
        fold_right (λ m Q, P (snd m) ∧ Q) True members → P (JObject members))
    (v : JSON) : P v :=
  match v with
  | JNull => Hnull
  | JBool b => Hbool b
  | JNumber lexeme => Hnumber lexeme
  | JString s => Hstring s
  | JArray elems =>
      Harray elems
        ((fix all (l : list JSON) : fold_right (λ e Q, P e ∧ Q) True l :=
            match l with
            | [] => I
            | e :: l' =>
                conj (JSON_nested_ind P Hnull Hbool Hnumber Hstring Harray Hobject e)
                     (all l')
            end) elems)
  | JObject members =>
      Hobject members
        ((fix all (l : list (string * JSON))
            : fold_right (λ m Q, P (snd m) ∧ Q) True l :=
            match l with
            | [] => I
            | m :: l' =>
                conj (JSON_nested_ind P Hnull Hbool Hnumber Hstring Harray Hobject (snd m))
                     (all l')
            end) members)
  end.

Definition value_mode (m : Mode) : Prop := m = MValue ∨ m = MArrayStart.
Definition key_mode (m : Mode) : Prop := m = MObjectStart ∨ m = MKey.

(** The modes in which white space is passed over. *)
Definition ws_mode (m : Mode) : Prop :=
  m = MValue ∨ m = MArrayStart ∨ m = MObjectStart ∨ m = MKey ∨ m = MColon.

(** Reading the text of [v] where a value may stand delivers [v]. *)
Definition roundtrips (v : JSON) : Prop :=
  ∀ ind m stack rest,
    value_mode m → (is_number v → delimited rest) →
    feed (m, stack) (stringify_at ind v +:+ rest)
    = match deliver v stack with
      | Some st => feed st rest
      | None => None
      end.

(** What the parser holds while it reads: well-formed values, ordered
    members, and a prefix of a number. *)
Definition frame_ok (f : Frame) : Prop :=
  match f with
  | FArray rev_elems => Forall well_formed rev_elems
  | FObject members _ =>
      ordered (map fst members) ∧ Forall (λ m, well_formed (snd m)) members
  end.

Definition number_prefix (ns : NumState) (rev_lexeme : string) : Prop :=
  ∃ c s ns0,
    string_rev_onto rev_lexeme "" = String c s
    ∧ num_start c = Some ns0 ∧ num_run ns0 s = Some ns.

Definition mode_ok (m : Mode) : Prop :=
  match m with
  | MDone v | MLiteral _ v => well_formed v
  | MNumber ns rev_lexeme => number_prefix ns rev_lexeme
  | _ => True
  end.

Definition state_ok (st : PState) : Prop :=
  mode_ok (fst st) ∧ Forall frame_ok (snd st).

(** ** Sequences of calls on a store *)

(** The methods of [AccountStorage] that change the store or its files. *)
Inductive Call :=
| AddAccount (account : Account)
| DeleteAccount (email : string)
| SetCredentials (clientId clientSecret : string).

Definition call (s : AccountStorage.t * FileSystem) (c : Call)
  : AccountStorage.t * FileSystem :=
  let '(this, fs) := s in
  match c with
  | AddAccount account => AccountStorage.addAccount account this fs
  | DeleteAccount email =>
      let '(_, this, fs) := AccountStorage.deleteAccount email this fs in (this, fs)
  | SetCredentials clientId clientSecret =>
      (this, AccountStorage.setCredentials clientId clientSecret this fs)
  end.

Definition calls (cs : list Call) (s : AccountStorage.t * FileSystem)
  : AccountStorage.t * FileSystem :=
  fold_left call cs s.

(** A number literal that JavaScript prints as it was written: an
    integer of at most fifteen digits without a leading zero, and not
    [-0]. *)
Definition plain_integer (lexeme : string) : bool :=
  let digits := match lexeme with
                | String c rest => if (code c =? 45)%N then rest else lexeme
                | EmptyString => lexeme
                end in
  match digits with
  | EmptyString => false
  | String d ds =>
      (String.eqb lexeme "0"
       || in_range 49 57 d && forallb is_digit (list_ascii_of_string ds))
      && (String.length digits <=? 15)%nat
  end.

(** Every number of the value is written as JavaScript prints it. *)
Fixpoint plain_numbers (v : JSON) : bool :=
  match v with
  | JNull | JBool _ | JString _ => true
  | JNumber lexeme => plain_integer lexeme
  | JArray elems => forallb plain_numbers elems
  | JObject members => forallb (λ m, plain_numbers (snd m)) members
  end.

(** The records of the accounts file under [path], as [loadAccounts]
    reads them into an empty collection. *)
Definition stored_accounts (fs : FileSystem) (path : string) : list (string * JSON) :=
  match nodes fs !! path with
  | Some (File text) =>
      match parse text with
      | Ok (JArray elems) => fold_left AccountStorage.load_entry elems []
      | _ => []
      end
  | _ => []
  end.

(** Each record is valid, stands under its own email, and is a value
    that [JSON.parse] can return. *)
Definition record_ok (kv : string * JSON) : Prop :=
  AccountStorage.isValidAccount (Some kv.2) = true
  ∧ string_prop kv.2 "email" = kv.1
  ∧ well_formed kv.2.

Definition store_ok (m : list (string * JSON)) : Prop :=
  NoDup (Map.keys m) ∧ Forall record_ok m.

(** The state in which every call leaves the store: the paths are those
    of the constructor, the directory exists, and the accounts file
    holds the collection. *)
Definition in_step (homedir : string) (dir : option string)
    (s : AccountStorage.t * FileSystem) : Prop :=
  let configDir := default (path_join homedir ".gtcli") dir in
  AccountStorage.configDir s.1 = configDir
  ∧ AccountStorage.accountsFile s.1 = path_join configDir "accounts.json"
  ∧ AccountStorage.credentialsFile s.1 = path_join configDir "credentials.json"
  ∧ existsSync s.2 configDir = true
  ∧ store_ok (AccountStorage.accounts s.1)
  ∧ stored_accounts s.2 (AccountStorage.accountsFile s.1) = AccountStorage.accounts s.1.

(** The arguments of the last [setCredentials] among the calls. *)
Definition last_credentials (cs : list Call) : option (string * string) :=
  fold_left (λ acc c,
               match c with
               | SetCredentials clientId clientSecret => Some (clientId, clientSecret)
               | _ => acc
               end) cs None.

(** A store opened on an empty disk, and a sequence of calls on it. *)
Definition empty_disk : FileSystem := {| nodes := ∅; writes := [] |}.

Definition fresh_store : AccountStorage.t :=
  {| AccountStorage.accounts := [];
     AccountStorage.configDir := "/home/u/.gtcli";
     AccountStorage.accountsFile := "/home/u/.gtcli/accounts.json";
     AccountStorage.credentialsFile := "/home/u/.gtcli/credentials.json" |}.

Definition session : list Call :=
  [AddAccount Example.known_account;
   SetCredentials "id" "secret";
   DeleteAccount "nobody@x.com";
   AddAccount {| email := "b@x.com";
                 oauth2 := {| clientId := "id"; clientSecret := "secret";
                              refreshToken := "r2"; accessToken := Some "a2" |} |};
   DeleteAccount "a@x.com"].

(** ** What a run of the interactive authorization has seen *)

Section accounting.
Import OAuthFlow.

(** What the events seen so far say about a state: a code is being
    exchanged only after a request that carried it, and the promise is
    resolved only by the answer of the token endpoint to such a
    request. *)
Definition requested (seen : list Event) : Prop :=
  ∃ before code error after,
    seen = (before ++ Request (Some code) error :: after)%list
    ∧ code ≠ "" ∧ truthy (of_option error) = false.

Definition answered (seen : list Event) (result : OAuthResult) : Prop :=
  ∃ before code error between response after,
    seen = (before ++ Request (Some code) error :: between
                   ++ Tokens response :: after)%list
    ∧ code ≠ "" ∧ truthy (of_option error) = false
    ∧ exchange_result response = Ok result.

Definition accounted (seen : list Event) (b : Browser) : Prop :=
  (exchanges b ≠ [] → requested seen)
  ∧ ∀ result, promise b = Resolved result → answered seen result.

(** Before anything has decided: the server is starting or listening. *)
Definition up (b : Browser) : Prop :=
  (server b = Starting ∨ server b = Listening)
  ∧ promise b = Pending ∧ exchanges b = [].

(** The flow waits, or the port could not be bound. *)
Definition waits (b : Browser) : Prop :=
  up b ∨ (server b = Failed ∧ exchanges b = []).

(** The line of the [listen] callback is printed once, when the server
    starts to listen; a flow that has printed nothing has not
    resolved. *)
Definition announced (b : Browser) : Prop :=
  (logged b = []
   ∧ ((server b = Starting ∧ promise b = Pending ∧ exchanges b = [])
      ∨ ∃ err, promise b = Rejected err))
  ∨ (logged b = ["Waiting for authorization on port 3000..."] ∧ server b ≠ Starting).

End accounting.

(** ** Truthiness *)

Fixpoint span_digits (s : string) : string * string :=
  match s with
  | EmptyString => ("", "")
  | String c s' =>
      if is_digit c then let '(digits, rest) := span_digits s' in (String c digits, rest)
      else ("", s)
  end.

(** Whether the number written [lexeme] is [0] or [-0]: its digits are
    all zero, or its value is at most [2^-1075] and rounds to zero. *)
Definition number_is_zero (lexeme : string) : bool :=
  let unsigned :=
    match lexeme with
    | String c rest => if (code c =? 45)%N then rest else lexeme
    | EmptyString => lexeme
    end in
  let '(int, after_int) := span_digits unsigned in
  let '(frac, after_frac) :=
    match after_int with
    | String c rest => if (code c =? 46)%N then span_digits rest else ("", after_int)
    | EmptyString => ("", after_int)
    end in
  let '(negative, exponent) :=
    match after_frac with
    | String _ (String s rest) =>
        if (code s =? 45)%N then (true, default 0%N (decimal_value rest 0))
        else if (code s =? 43)%N then (false, default 0%N (decimal_value rest 0))
        else (false, default 0%N (decimal_value (String s rest) 0))
    | _ => (false, 0%N)
    end in
  let mantissa := default 0%N (decimal_value (int +:+ frac) 0) in
  let places := N.of_nat (String.length frac) in
  (mantissa =? 0)%N
  || (if negative then (mantissa * 2 ^ 1075 <=? 10 ^ (places + exponent))%N
      else (exponent <? places)%N
           && (mantissa * 2 ^ 1075 <=? 10 ^ (places - exponent))%N).

(** [!!v] for a value read from parsed JSON. *)
Definition to_boolean (v : option JSON) : bool :=
  match v with
  | None | Some JNull => false
  | Some (JBool b) => b
  | Some (JNumber lexeme) => negb (number_is_zero lexeme)
  | Some (JString s) => negb (String.eqb s "")
  | Some (JArray _) | Some (JObject _) => true
  end.

(** ** The commands of the CLI *)

Module Program.
Import Cli.

Definition log (line : string) (w : World) : World :=
  {| storage := storage w; fs := fs w; console := line :: console w;
     network := network w |}.

Definition usage_text : string :=
  "gtcli - Google Tasks CLI

USAGE

  gtcli accounts <action>                    Account management
  gtcli <email> lists [command] [options]    Task list operations
  gtcli <email> tasks <listId> [command]     Task operations

ACCOUNT COMMANDS

  gtcli accounts credentials <file.json>     Set OAuth credentials (once)
  gtcli accounts list                        List configured accounts
  gtcli accounts add <email> [--manual]      Add account (--manual for browserless OAuth)
  gtcli accounts remove <email>              Remove account

TASK LIST COMMANDS

  gtcli <email> lists                        List all task lists
  gtcli <email> lists get <listId>           Get task list details
  gtcli <email> lists create <title>         Create new task list
  gtcli <email> lists update <listId> --title <title>
                                             Update task list title
  gtcli <email> lists delete <listId>        Delete task list
  gtcli <email> lists url <listIds...>       Generate web URLs

TASK COMMANDS

  gtcli <email> tasks <listId>               List tasks in list
  gtcli <email> tasks <listId> --completed   Include completed tasks
  gtcli <email> tasks <listId> --hidden      Include hidden tasks

  gtcli <email> tasks <listId> get <taskId>  Get task details

  gtcli <email> tasks <listId> create <title> [--notes N] [--due DATE]
                                             Create task

  gtcli <email> tasks <listId> update <taskId> [--title T] [--notes N] [--due DATE] [--status STATUS]
                                             Update task

  gtcli <email> tasks <listId> complete <taskId>
                                             Mark task as completed

  gtcli <email> tasks <listId> uncomplete <taskId>
                                             Mark task as needs action

  gtcli <email> tasks <listId> delete <taskId>
                                             Delete task

  gtcli <email> tasks <listId> move <taskId> [--parent ID] [--previous ID]
                                             Move/reorder task

  gtcli <email> tasks <listId> clear         Clear completed tasks

  gtcli <email> tasks <listId> url <taskIds...>
                                             Generate web URLs

DATA STORAGE

  ~/.gtcli/credentials.json   OAuth client credentials
  ~/.gtcli/accounts.json      Account tokens".

(** [usage()]: print the help and leave with status 1. *)
Definition usage (w : World) : Outcome * World := (Exit 1, log usage_text w).

(** [case "list"]: the records of the store are valid, so [a.email] is a
    string. *)
Definition handleAccounts_list (w : World) : Outcome * World :=
  let accounts := AccountStorage.getAllAccounts (storage w) in
  if (List.length accounts =? 0)%nat then (Returned, log "No accounts configured" w)
  else (Returned, fold_left (λ w a, log (string_prop a "email") w) accounts w).

(** The object [{ clientId, clientSecret }] whatever the two values
    are: [JSON.stringify] leaves out a property that is [undefined]. *)
Definition credentials_object (clientId clientSecret : option JSON) : JSON :=
  JObject (match clientId with Some v => [("clientId", v)] | None => [] end
           ++ match clientSecret with Some v => [("clientSecret", v)] | None => [] end)%list.

(** [storage.setCredentials(clientId, clientSecret)] as it runs when
    the arguments are not known to be strings. *)
Definition setCredentials_untyped (clientId clientSecret : option JSON)
    (this : AccountStorage.t) (fs : FileSystem) : FileSystem :=
  writeFileSync (AccountStorage.credentialsFile this)
                (stringify (credentials_object clientId clientSecret)) fs.

(** [case "credentials"]. *)
Definition handleAccounts_credentials (args : list string) (w : World) : Outcome * World :=
  match args !! 1%nat with
  | None | Some EmptyString => error "Usage: accounts credentials <credentials.json>" w
  | Some credFile =>
      let run :=
        let! text := readFileSync (fs w) credFile in
        let! creds := parse text in
        let! first := member (Some creds) "installed" in
        let! installed :=
          if to_boolean first then Ok first else member (Some creds) "web" in
        if negb (to_boolean installed) then Ok (error "Invalid credentials file" w)
        else
          let! client_id := member installed "client_id" in
          let! client_secret := member installed "client_secret" in
          Ok (Returned,
              {| storage := storage w;
                 fs := setCredentials_untyped client_id client_secret (storage w) (fs w);
                 console := "Credentials saved" :: console w;
                 network := network w |}) in
      match run with
      | Ok result => result
      | Throw err => (Threw err, w)
      end
  end.

(** [case "remove"]. *)
Definition handleAccounts_remove (args : list string) (w : World) : Outcome * World :=
  match args !! 1%nat with
  | None | Some EmptyString => error "Usage: accounts remove <email>" w
  | Some email =>
      let '(deleted, storage', fs') :=
        AccountStorage.deleteAccount email (storage w) (fs w) in
      (Returned,
       {| storage := storage'; fs := fs';
          console := (if deleted then "Removed '" +:+ email +:+ "'"
                      else "Not found: " +:+ email) :: console w;
          network := network w |})
  end.

Definition handleAccounts (env : OAuthFlow.Environment) (args : list string) (w : World)
  : Outcome * World :=
  match head args with
  | None | Some EmptyString => error "Missing action: list|add|remove|credentials" w
  | Some action =>
      if String.eqb action "list" then handleAccounts_list w
      else if String.eqb action "credentials" then handleAccounts_credentials args w
      else if String.eqb action "add" then handleAccounts_add env args w
      else if String.eqb action "remove" then handleAccounts_remove args w
      else error ("Unknown action: " +:+ action) w
  end.

(** A command of the CLI: the account, the arguments, the world. *)
Definition Handler : Type := string → list string → World → Outcome * World.

(** [main()]: [args] is [process.argv.slice(2)]; [handleLists] and
    [handleTasks] stand for the two functions of these names. *)
Definition main (env : OAuthFlow.Environment) (handleLists handleTasks : Handler)
    (args : list string) (w : World) : Outcome * World :=
  if (List.length args =? 0)%nat
     || existsb (String.eqb "--help") args || existsb (String.eqb "-h") args
  then usage w
  else
    let first := default "" (head args) in
    let rest := tail args in
    let '(outcome, w') :=
      if String.eqb first "accounts" then handleAccounts env rest w
      else
        let account := first in
        let serviceArgs := tail rest in
        match head rest with
        | None | Some EmptyString => error "Missing service. Use: lists, tasks" w
        | Some service =>
            if String.eqb service "lists" then handleLists account serviceArgs w
            else if String.eqb service "tasks" then handleTasks account serviceArgs w
            else error ("Unknown service: " +:+ service) w
        end in
    match outcome with
    | Threw e => error (message_of e) w'
    | _ => (outcome, w')
    end.

(** The start of the program: [const storage = new AccountStorage()]. *)
Definition start (homedir : string) (fs : FileSystem) : Result World :=
  let! opened := AccountStorage.new homedir None fs in
  Ok {| storage := opened.1; fs := opened.2; console := []; network := [] |}.

(** A run that fails: it leaves with status 1, or with an exception,
    or waits for ever; the store and the files are as they were. *)
Definition fails_cleanly (w : World) (r : Outcome * World) : Prop :=
  (r.1 = Returned ∨ r.1 = Exit 1 ∨ r.1 = Waiting ∨ ∃ e, r.1 = Threw e)
  ∧ (r.1 ≠ Returned → storage r.2 = storage w ∧ fs r.2 = fs w).

End Program.

(** ** [services/base-service.ts] *)

Module BaseService.

(** An [OAuth2Client] of google-auth-library as far as the program
    determines it: the arguments of its constructor and of
    [setCredentials]. *)
Record OAuth2Client := {
  clientId_ : option JSON;
  clientSecret_ : option JSON;
  redirectUri : string;
  refresh_token_ : option JSON;
  access_token_ : option JSON;
}.

(** The service holds a reference to the store; the state of the store
    at the time of a call is an argument of the call. *)
Record t := {
  clients : list (string * OAuth2Client);
}.

Definition createOAuth2Client (account : option JSON) : Result OAuth2Client :=
  let! oauth2 := member account "oauth2" in
  let! clientId := member oauth2 "clientId" in
  let! oauth2 := member account "oauth2" in
  let! clientSecret := member oauth2 "clientSecret" in
  let! oauth2 := member account "oauth2" in
  let! refreshToken := member oauth2 "refreshToken" in
  let! oauth2 := member account "oauth2" in
  let! accessToken := member oauth2 "accessToken" in
  Ok {| clientId_ := clientId; clientSecret_ := clientSecret;
        redirectUri := "http://localhost";
        refresh_token_ := refreshToken; access_token_ := accessToken |}.

(** The entry of the cache is returned when there is one. *)
Definition getOAuth2Client (storage : AccountStorage.t) (email : string) (this : t)
  : Result (OAuth2Client * t) :=
  match Map.get email (clients this) with
  | Some client => Ok (client, this)
  | None =>
      let account := AccountStorage.getAccount email storage in
      if negb (to_boolean account) then
        Throw (PlainError ("Account '" +:+ email +:+ "' not found"))
      else
        let! client := createOAuth2Client account in
        Ok (client, {| clients := Map.set email client (clients this) |})
  end.

(** [clearClientCache(email?)]: an empty email is no email. *)
Definition clearClientCache (email : option string) (this : t) : t :=
  match email with
  | Some (String _ _ as email) => {| clients := (Map.delete email (clients this)).2 |}
  | _ => {| clients := [] |}
  end.

End BaseService.

(** ** The types of the Tasks API and of [types.ts] *)

(** A property that may be absent or [null]. *)
Inductive Nullish (A : Type) :=
| Missing
| IsNull
| Value (a : A).
Arguments Missing {A}.
Arguments IsNull {A}.
Arguments Value {A} a.

(** [v ?? d] *)
Definition nullish_or {A} (v : Nullish A) (d : A) : A :=
  match v with Value a => a | _ => d end.

(** [v ?? undefined] *)
Definition nullish_or_undefined {A} (v : Nullish A) : option A :=
  match v with Value a => Some a | _ => None end.

(** [o ?? d] for an optional argument. *)
Definition option_or {A} (o : option A) (d : A) : A := default d o.

(** The value kept by [if (o) params.x = o]. *)
Definition if_truthy (o : option string) : option string :=
  match o with
  | Some (String _ _) => o
  | _ => None
  end.

Module SchemaTaskLink.
Record t := {
  type : Nullish string;
  description : Nullish string;
  link : Nullish string;
}.
End SchemaTaskLink.

(** [tasks_v1.Schema$Task], the properties the program reads or writes. *)
Module SchemaTask.
Record t := {
  id : Nullish string;
  title : Nullish string;
  status : Nullish string;
  due : Nullish string;
  notes : Nullish string;
  parent : Nullish string;
  position : Nullish string;
  completed : Nullish string;
  deleted : Nullish bool;
  hidden : Nullish bool;
  links : Nullish (list SchemaTaskLink.t);
  selfLink : Nullish string;
  updated : Nullish string;
}.
End SchemaTask.

(** [tasks_v1.Schema$Tasks] *)
Module SchemaTasks.
Record t := {
  items : Nullish (list SchemaTask.t);
  nextPageToken : Nullish string;
}.
End SchemaTasks.

Module TaskLink.
Record t := {
  type : option string;
  description : option string;
  link : option string;
}.
End TaskLink.

Module Task.
Record t := {
  id : string;
  title : string;
  status : string;
  due : option string;
  notes : option string;
  parent : option string;
  position : option string;
  completed : option string;
  deleted : option bool;
  hidden : option bool;
  links : option (list TaskLink.t);
  selfLink : option string;
  updated : option string;
}.
End Task.

Module TasksResult.
Record t := {
  items : list Task.t;
  nextPageToken : option string;
}.
End TasksResult.

Module TaskOptions.
Record t := {
  maxResults : option N;
  pageToken : option string;
  showCompleted : option bool;
  showDeleted : option bool;
  showHidden : option bool;
  dueMin : option string;
  dueMax : option string;
  completedMin : option string;
  completedMax : option string;
  updatedMin : option string;
}.
End TaskOptions.

Module CreateTaskOptions.
Record t := {
  title : string;
  notes : option string;
  due : option string;
  parent : option string;
  previous : option string;
}.
End CreateTaskOptions.

Module UpdateTaskOptions.
Record t := {
  title : option string;
  notes : option string;
  due : option string;
  status : option string;
}.
End UpdateTaskOptions.

Module MoveTaskOptions.
Record t := {
  parent : option string;
  previous : option string;
}.
End MoveTaskOptions.

(** ** [services/task-service.ts] *)

Module TaskService.

(** [google.tasks({ version: "v1", auth })] *)
Record TasksClient := {
  version : string;
  auth : BaseService.OAuth2Client;
}.

Record t := {
  base : BaseService.t;
  tasksClients : list (string * TasksClient);
}.

(** The parameters of [client.tasks.list]. *)
Record ListParams := {
  tasklist : string;
  maxResults : N;
  showCompleted : bool;
  showDeleted : bool;
  showHidden : bool;
  pageToken : option string;
  dueMin : option string;
  dueMax : option string;
  completedMin : option string;
  completedMax : option string;
  updatedMin : option string;
}.

(** The request body of [insert] and [update]: the properties the
    program sets. *)
Record RequestBody := {
  body_id : option string;
  body_title : option string;
  body_notes : option string;
  body_due : option string;
  body_status : option string;
}.

(** A call of a method of [client.tasks]. *)
Inductive Request :=
| tasks_list (params : ListParams)
| tasks_get (tasklist task : string)
| tasks_insert (tasklist : string) (requestBody : RequestBody)
               (parent previous : option string)
| tasks_update (tasklist task : string) (requestBody : RequestBody)
| tasks_delete (tasklist task : string)
| tasks_move (tasklist task : string) (parent previous : option string)
| tasks_clear (tasklist : string).

Definition getTasksClient (storage : AccountStorage.t) (email : string) (this : t)
  : Result (TasksClient * t) :=
  match Map.get email (tasksClients this) with
  | Some client => Ok (client, this)
  | None =>
      let! found := BaseService.getOAuth2Client storage email (base this) in
      let tasks := {| version := "v1"; auth := found.1 |} in
      Ok (tasks,
          {| base := found.2; tasksClients := Map.set email tasks (tasksClients this) |})
  end.

Definition mapLink (link : SchemaTaskLink.t) : TaskLink.t :=
  {| TaskLink.type := nullish_or_undefined (SchemaTaskLink.type link);
     TaskLink.description := nullish_or_undefined (SchemaTaskLink.description link);
     TaskLink.link := nullish_or_undefined (SchemaTaskLink.link link) |}.

Definition mapTask (task : SchemaTask.t) : Task.t :=
  {| Task.id := nullish_or (SchemaTask.id task) "";
     Task.title := nullish_or (SchemaTask.title task) "";
     Task.status := nullish_or (SchemaTask.status task) "needsAction";
     Task.due := nullish_or_undefined (SchemaTask.due task);
     Task.notes := nullish_or_undefined (SchemaTask.notes task);
     Task.parent := nullish_or_undefined (SchemaTask.parent task);
     Task.position := nullish_or_undefined (SchemaTask.position task);
     Task.completed := nullish_or_undefined (SchemaTask.completed task);
     Task.deleted := nullish_or_undefined (SchemaTask.deleted task);
     Task.hidden := nullish_or_undefined (SchemaTask.hidden task);
     Task.links := match SchemaTask.links task with
                   | Value links => Some (map mapLink links)
                   | _ => None
                   end;
     Task.selfLink := nullish_or_undefined (SchemaTask.selfLink task);
     Task.updated := nullish_or_undefined (SchemaTask.updated task) |}.

Definition generateWebUrl (taskListId : string) (taskId : option string) : string :=
  let baseUrl :=
    "https://tasks.google.com/embed/?origin=https://calendar.google.com&fullWidth=1&listId="
    +:+ taskListId in
  match taskId with
  | Some (String _ _ as taskId) => baseUrl +:+ "&taskId=" +:+ taskId
  | _ => baseUrl
  end.

Definition clearTasksClientCache (email : option string) (this : t) : t :=
  {| base := BaseService.clearClientCache email (base this);
     tasksClients := match email with
                     | Some (String _ _ as email) =>
                         (Map.delete email (tasksClients this)).2
                     | _ => []
                     end |}.

Section api.

(** The Tasks API: the state of the server, and what each method
    answers and leaves. *)
Variable Server : Type.

Record Api := {
  list_ : TasksClient → ListParams → Server → Result SchemaTasks.t * Server;
  get_ : TasksClient → string → string → Server → Result SchemaTask.t * Server;
  insert_ : TasksClient → string → RequestBody → option string → option string →
            Server → Result SchemaTask.t * Server;
  update_ : TasksClient → string → string → RequestBody → Server →
            Result SchemaTask.t * Server;
  delete_ : TasksClient → string → string → Server → Result unit * Server;
  move_ : TasksClient → string → string → option string → option string →
          Server → Result SchemaTask.t * Server;
  clear_ : TasksClient → string → Server → Result unit * Server;
}.

Variable api : Api.

(** The service, the server, and the requests sent so far (newest
    first, each with the client that sent it). *)
Record World := {
  service : t;
  server : Server;
  sent : list (TasksClient * Request);
}.

(** A method of the service: its result or exception, and the world it
    leaves. *)
Definition Method (A : Type) : Type := World → Result A * World.

#[global] Instance Method_ret : MRet Method := λ A a w, (Ok a, w).

#[global] Instance Method_bind : MBind Method :=
  λ A B k m w, match m w with
               | (Ok a, w') => k a w'
               | (Throw e, w') => (Throw e, w')
               end.

Definition client_of (storage : AccountStorage.t) (email : string) : Method TasksClient :=
  λ w, match getTasksClient storage email (service w) with
       | Ok (client, service') =>
           (Ok client, {| service := service'; server := server w; sent := sent w |})
       | Throw e => (Throw e, w)
       end.

(** A request reaches the server and is recorded. *)
Definition send {A} (client : TasksClient) (request : Request)
    (answer : Server → Result A * Server) : Method A :=
  λ w, let '(response, server') := answer (server w) in
       (response,
        {| service := service w; server := server';
           sent := (client, request) :: sent w |}).

Definition list (storage : AccountStorage.t) (email taskListId : string)
    (options : TaskOptions.t) : Method TasksResult.t :=
  client ← client_of storage email;
  let params :=
    {| tasklist := taskListId;
       maxResults := option_or (TaskOptions.maxResults options) 100%N;
       showCompleted := option_or (TaskOptions.showCompleted options) false;
       showDeleted := option_or (TaskOptions.showDeleted options) false;
       showHidden := option_or (TaskOptions.showHidden options) false;
       pageToken := if_truthy (TaskOptions.pageToken options);
       dueMin := if_truthy (TaskOptions.dueMin options);
       dueMax := if_truthy (TaskOptions.dueMax options);
       completedMin := if_truthy (TaskOptions.completedMin options);
       completedMax := if_truthy (TaskOptions.completedMax options);
       updatedMin := if_truthy (TaskOptions.updatedMin options) |} in
  data ← send client (tasks_list params) (list_ api client params);
  mret {| TasksResult.items := map mapTask (nullish_or (SchemaTasks.items data) []);
         TasksResult.nextPageToken :=
           nullish_or_undefined (SchemaTasks.nextPageToken data) |}.

Definition get (storage : AccountStorage.t) (email taskListId taskId : string)
  : Method Task.t :=
  client ← client_of storage email;
  data ← send client (tasks_get taskListId taskId) (get_ api client taskListId taskId);
  mret (mapTask data).

Definition create (storage : AccountStorage.t) (email taskListId : string)
    (options : CreateTaskOptions.t) : Method Task.t :=
  client ← client_of storage email;
  let requestBody :=
    {| body_id := None;
       body_title := Some (CreateTaskOptions.title options);
       body_notes := CreateTaskOptions.notes options;
       body_due := CreateTaskOptions.due options;
       body_status := None |} in
  let parent := if_truthy (CreateTaskOptions.parent options) in
  let previous := if_truthy (CreateTaskOptions.previous options) in
  data ← send client (tasks_insert taskListId requestBody parent previous)
                 (insert_ api client taskListId requestBody parent previous);
  mret (mapTask data).

Definition update (storage : AccountStorage.t) (email taskListId taskId : string)
    (options : UpdateTaskOptions.t) : Method Task.t :=
  client ← client_of storage email;
  currentTask ← get storage email taskListId taskId;
  let requestBody :=
    {| body_id := Some taskId;
       body_title := Some (option_or (UpdateTaskOptions.title options)
                                     (Task.title currentTask));
       body_notes := match UpdateTaskOptions.notes options with
                     | Some notes => Some notes
                     | None => Task.notes currentTask
                     end;
       body_due := match UpdateTaskOptions.due options with
                   | Some due => Some due
                   | None => Task.due currentTask
                   end;
       body_status := Some (option_or (UpdateTaskOptions.status options)
                                      (Task.status currentTask)) |} in
  data ← send client (tasks_update taskListId taskId requestBody)
                 (update_ api client taskListId taskId requestBody);
  mret (mapTask data).

Definition delete (storage : AccountStorage.t) (email taskListId taskId : string)
  : Method unit :=
  client ← client_of storage email;
  send client (tasks_delete taskListId taskId) (delete_ api client taskListId taskId).

Definition move (storage : AccountStorage.t) (email taskListId taskId : string)
    (options : MoveTaskOptions.t) : Method Task.t :=
  client ← client_of storage email;
  let parent := if_truthy (MoveTaskOptions.parent options) in
  let previous := if_truthy (MoveTaskOptions.previous options) in
  data ← send client (tasks_move taskListId taskId parent previous)
                 (move_ api client taskListId taskId parent previous);
  mret (mapTask data).

Definition clear (storage : AccountStorage.t) (email taskListId : string) : Method unit :=
  client ← client_of storage email;
  send client (tasks_clear taskListId) (clear_ api client taskListId).

Definition complete (storage : AccountStorage.t) (email taskListId taskId : string)
  : Method Task.t :=
  update storage email taskListId taskId
    {| UpdateTaskOptions.title := None; UpdateTaskOptions.notes := None;
       UpdateTaskOptions.due := None; UpdateTaskOptions.status := Some "completed" |}.

Definition uncomplete (storage : AccountStorage.t) (email taskListId taskId : string)
  : Method Task.t :=
  update storage email taskListId taskId
    {| UpdateTaskOptions.title := None; UpdateTaskOptions.notes := None;
       UpdateTaskOptions.due := None; UpdateTaskOptions.status := Some "needsAction" |}.

(** A call of one of the methods that reach the server. *)
Inductive Operation :=
| List (taskListId : string) (options : TaskOptions.t)
| Get (taskListId taskId : string)
| Create (taskListId : string) (options : CreateTaskOptions.t)
| Update (taskListId taskId : string) (options : UpdateTaskOptions.t)
| Delete (taskListId taskId : string)
| Move (taskListId taskId : string) (options : MoveTaskOptions.t)
| Clear (taskListId : string)
| Complete (taskListId taskId : string)
| Uncomplete (taskListId taskId : string).

(** The exception of the call, if any, and the world it leaves. *)
Definition perform (storage : AccountStorage.t) (email : string) (op : Operation)
  : World → option Error * World :=
  let outcome {A} (m : Method A) : World → option Error * World :=
    λ w, match m w with
         | (Ok _, w') => (None, w')
         | (Throw e, w') => (Some e, w')
         end in
  match op with
  | List taskListId options => outcome (list storage email taskListId options)
  | Get taskListId taskId => outcome (get storage email taskListId taskId)
  | Create taskListId options => outcome (create storage email taskListId options)
  | Update taskListId taskId options =>
      outcome (update storage email taskListId taskId options)
  | Delete taskListId taskId => outcome (delete storage email taskListId taskId)
  | Move taskListId taskId options =>
      outcome (move storage email taskListId taskId options)
  | Clear taskListId => outcome (clear storage email taskListId)
  | Complete taskListId taskId => outcome (complete storage email taskListId taskId)
  | Uncomplete taskListId taskId => outcome (uncomplete storage email taskListId taskId)
  end.

End api.

End TaskService.

(** A server that holds nothing, a service without clients, and a store
    with one account. *)
Definition no_task : SchemaTask.t :=
  {| SchemaTask.id := Missing; SchemaTask.title := Missing; SchemaTask.status := Missing;
     SchemaTask.due := Missing; SchemaTask.notes := Value "buy milk";
     SchemaTask.parent := Missing; SchemaTask.position := Missing;
     SchemaTask.completed := Missing; SchemaTask.deleted := Missing;
     SchemaTask.hidden := Missing; SchemaTask.links := IsNull;
     SchemaTask.selfLink := Missing; SchemaTask.updated := Missing |}.

Definition quiet_api : TaskService.Api unit :=
  {| TaskService.list_ := λ _ _ s,
       (Ok {| SchemaTasks.items := Missing; SchemaTasks.nextPageToken := IsNull |}, s);
     TaskService.get_ := λ _ _ _ s, (Ok no_task, s);
     TaskService.insert_ := λ _ _ _ _ _ s, (Ok no_task, s);
     TaskService.update_ := λ _ _ _ _ s, (Ok no_task, s);
     TaskService.delete_ := λ _ _ _ s, (Ok (), s);
     TaskService.move_ := λ _ _ _ _ _ s, (Ok no_task, s);
     TaskService.clear_ := λ _ _ s, (Ok (), s) |}.

Definition no_clients : TaskService.World unit :=
  {| TaskService.service :=
       {| TaskService.base := {| BaseService.clients := [] |};
          TaskService.tasksClients := [] |};
     TaskService.server := ();
     TaskService.sent := [] |}.

Definition store_of_known_account : AccountStorage.t :=
  (AccountStorage.addAccount Example.known_account fresh_store empty_disk).1.

(** ** Texts without special characters *)

Fixpoint all_chars (p : ascii → bool) (s : string) : bool :=
  match s with
  | EmptyString => true
  | String c s' => p c && all_chars p s'
  end.

(** A character that a query carries as it is: a letter, a digit, or
    one of [-], [.], [/], [_] and [~]. *)
Definition plain_char (c : ascii) : bool :=
  is_alpha c || is_digit c || (code c =? 45)%N || (code c =? 46)%N
  || (code c =? 47)%N || (code c =? 95)%N || (code c =? 126)%N.

(** The redirect URI of the flow with the query [?code=<value>], with or
    without a slash before the query. *)
Definition redirect_with_code (slash : bool) (value : string) : string :=
  (if slash then "http://localhost:3000/?code=" else "http://localhost:3000?code=")
  +:+ value.

(** What may follow the code: nothing, or further parameters. *)
Definition further_parameters (rest : string) : Prop :=
  rest = "" ∨ ∃ t, rest = String "&" t.

(** * Properties *)

(** ** The map *)

Section map_facts.
Context {V : Type}.
Implicit Types (m : list (string * V)) (k : string) (v : V).

Lemma get_set_eq k v m : Map.get k (Map.set k v m) = Some v.
Proof.
  induction m as [|[k' v'] m IH]; simpl.
  - by rewrite String.eqb_refl.
  - destruct (String.eqb k k') eqn:E; simpl; rewrite E; [done | exact IH].
Qed.

Lemma get_set_ne k k' v m : k ≠ k' → Map.get k' (Map.set k v m) = Map.get k' m.
Proof.
  intros Hne. induction m as [|[k0 v0] m IH]; simpl.
  - apply String.eqb_neq in Hne. rewrite String.eqb_sym in Hne. by rewrite Hne.
  - destruct (String.eqb k k0) eqn:E; simpl; [|by rewrite IH].
    apply String.eqb_eq in E. subst k0.
    destruct (String.eqb k' k) eqn:E'; [|done].
    apply String.eqb_eq in E'. congruence.
Qed.

Lemma has_set k v m : Map.has k (Map.set k v m) = true.
Proof. unfold Map.has. by rewrite get_set_eq. Qed.

Lemma get_delete_eq k m : Map.get k (snd (Map.delete k m)) = None.
Proof.
  simpl. induction m as [|[k' v'] m IH]; simpl; [done|].
  destruct (String.eqb k k') eqn:E; simpl; [exact IH | by rewrite E].
Qed.

Lemma get_delete_ne k k' m : k ≠ k' → Map.get k' (snd (Map.delete k m)) = Map.get k' m.
Proof.
  intros Hne. simpl. induction m as [|[k0 v0] m IH]; simpl; [done|].
  destruct (String.eqb k k0) eqn:E; simpl.
  - apply String.eqb_eq in E. subst k0.
    apply String.eqb_neq in Hne. rewrite String.eqb_sym in Hne. by rewrite Hne.
  - by rewrite IH.
Qed.

Lemma delete_absent k m : Map.get k m = None → snd (Map.delete k m) = m.
Proof.
  simpl. induction m as [|[k' v'] m IH]; simpl; [done|].
  destruct (String.eqb k k') eqn:E; simpl; [done|].
  intros H. by rewrite IH.
Qed.

Lemma fst_delete k m : fst (Map.delete k m) = Map.has k m.
Proof. done. Qed.

Lemma keys_set_in k v m : Map.has k m = true → Map.keys (Map.set k v m) = Map.keys m.
Proof.
  unfold Map.has, Map.keys. induction m as [|[k' v'] m IH]; simpl; [done|].
  destruct (String.eqb k k') eqn:E; simpl; [done|].
  intros H. by rewrite IH.
Qed.

Lemma keys_set_fresh k v m :
  Map.has k m = false → Map.keys (Map.set k v m) = (Map.keys m ++ [k])%list.
Proof.
  unfold Map.has, Map.keys. induction m as [|[k' v'] m IH]; simpl; [done|].
  destruct (String.eqb k k') eqn:E; simpl; [done|].
  intros H. by rewrite IH.
Qed.

Lemma has_true_in_keys k m : Map.has k m = true ↔ k ∈ Map.keys m.
Proof.
  unfold Map.has, Map.keys. induction m as [|[k' v'] m IH]; simpl.
  - split; [done | intros H; inversion H].
  - destruct (String.eqb k k') eqn:E.
    + apply String.eqb_eq in E. subst. split; [intros _; left | done].
    + apply String.eqb_neq in E. rewrite IH. split.
      * intros H. by right.
      * intros H. inversion H; subst; [done | assumption].
Qed.

(** One entry per key. *)
Lemma set_NoDup k v m : NoDup (Map.keys m) → NoDup (Map.keys (Map.set k v m)).
Proof.
  intros Hm. destruct (Map.has k m) eqn:E.
  - by rewrite keys_set_in.
  - rewrite keys_set_fresh by done.
    apply NoDup_app. split; [done|]. split.
    + intros x Hx Hk. apply list_elem_of_singleton in Hk. subst x.
      apply has_true_in_keys in Hx. congruence.
    + apply NoDup_singleton.
Qed.

End map_facts.

(** ** The account store *)

Lemma with_accounts_same (this : AccountStorage.t) :
  AccountStorage.with_accounts this (AccountStorage.accounts this) = this.
Proof. by destruct this. Qed.

Lemma has_false_get {V} (k : string) (m : list (string * V)) :
  Map.has k m = false → Map.get k m = None.
Proof. unfold Map.has. by destruct (Map.get k m). Qed.

Lemma Account_object_valid (account : Account) :
  AccountStorage.isValidAccount (Some (Account_object account)) = true.
Proof. done. Qed.

(** C3: for every account record A and every state of the store,
    addAccount(A) followed by getAccount(A.email) returns the record A,
    whether or not the email was present before; the records of the
    other emails are not touched, and the accounts file is rewritten
    with the whole collection. *)
Theorem addAccount_then_getAccount
    (account : Account) (this : AccountStorage.t) (fs : FileSystem) :
  let '(this', fs') := AccountStorage.addAccount account this fs in
  AccountStorage.getAccount (email account) this' = Some (Account_object account)
  ∧ AccountStorage.hasAccount (email account) this' = true
  ∧ (∀ other, other ≠ email account →
       AccountStorage.getAccount other this' = AccountStorage.getAccount other this)
  ∧ fs' = writeFileSync (AccountStorage.accountsFile this)
                        (stringify (JArray (AccountStorage.getAllAccounts this'))) fs.
Proof.
  unfold AccountStorage.addAccount, AccountStorage.getAccount,
    AccountStorage.hasAccount, AccountStorage.getAllAccounts; simpl.
  repeat split.
  - apply get_set_eq.
  - apply has_set.
  - intros other Hne. apply get_set_ne. congruence.
Qed.

(** C4: deleteAccount(email) returns true exactly when a record with
    that email was present, and then writes the accounts file once, with
    the remaining records; for an unknown email it returns false and
    leaves the store and the file system as they were.  In both cases the
    email is absent afterwards and every other record is unchanged. *)
Theorem deleteAccount_spec (email : string) (this : AccountStorage.t) (fs : FileSystem) :
  let '(deleted, this', fs') := AccountStorage.deleteAccount email this fs in
  deleted = AccountStorage.hasAccount email this
  ∧ (deleted = true ↔ is_Some (AccountStorage.getAccount email this))
  ∧ (if deleted
     then fs' = writeFileSync (AccountStorage.accountsFile this)
                  (stringify (JArray (AccountStorage.getAllAccounts this'))) fs
          ∧ writes fs' =
              (AccountStorage.accountsFile this,
               stringify (JArray (AccountStorage.getAllAccounts this'))) :: writes fs
     else fs' = fs ∧ this' = this)
  ∧ AccountStorage.getAccount email this' = None
  ∧ (∀ other, other ≠ email →
       AccountStorage.getAccount other this' = AccountStorage.getAccount other this).
Proof.
  unfold AccountStorage.deleteAccount, AccountStorage.getAccount,
    AccountStorage.hasAccount, AccountStorage.getAllAccounts.
  pose proof (get_delete_eq email (AccountStorage.accounts this)) as Hgone.
  pose proof (λ other, get_delete_ne email other (AccountStorage.accounts this)) as Hother.
  pose proof (delete_absent email (AccountStorage.accounts this)) as Habsent.
  destruct (Map.delete email (AccountStorage.accounts this)) as [deleted m] eqn:Hdel.
  assert (deleted = Map.has email (AccountStorage.accounts this)) as Hd
    by (by inversion Hdel).
  simpl in Hgone, Hother, Habsent.
  assert ((deleted = true ↔ is_Some (Map.get email (AccountStorage.accounts this)))) as Hiff.
  { rewrite Hd. unfold Map.has.
    destruct (Map.get email (AccountStorage.accounts this)); split; eauto; done. }
  assert (∀ other, other ≠ email → Map.get other m
            = Map.get other (AccountStorage.accounts this)) as Hother'.
  { intros other Hne. apply Hother. congruence. }
  destruct deleted; simpl.
  - split; [done|]. split; [exact Hiff|]. split; [done|]. by split.
  - split; [done|]. split; [exact Hiff|]. split; [|by split].
    split; [done|].
    rewrite <- (with_accounts_same this) at 2. f_equal.
    rewrite Habsent; [done|]. apply has_false_get. by rewrite <- Hd.
Qed.

(** *** Loading *)

Abbreviation valid a := (AccountStorage.isValidAccount (Some a) = true) (only parsing).
Abbreviation email_of a := (string_prop a "email") (only parsing).

Lemma values_set_inv {V} (k : string) (v x : V) (m : list (string * V)) :
  x ∈ Map.values (Map.set k v m) → x = v ∨ x ∈ Map.values m.
Proof.
  unfold Map.values. induction m as [|[k' v'] m IH]; simpl.
  - intros H. apply list_elem_of_singleton in H. by left.
  - destruct (String.eqb k k'); simpl; intros H; inversion H; subst; auto.
    + right. by right.
    + right. left.
    + destruct (IH ltac:(assumption)); auto. right. by right.
Qed.

Lemma get_in_values {V} (k : string) (v : V) (m : list (string * V)) :
  Map.get k m = Some v → v ∈ Map.values m.
Proof.
  unfold Map.values. induction m as [|[k' v'] m IH]; simpl; [done|].
  destruct (String.eqb k k').
  - intros [= ->]. left.
  - intros H. right. auto.
Qed.

Lemma load_entry_get (m : list (string * JSON)) (a : JSON) (e : string) :
  Map.get e (AccountStorage.load_entry m a)
  = if AccountStorage.isValidAccount (Some a) && String.eqb (email_of a) e
    then Some a else Map.get e m.
Proof.
  unfold AccountStorage.load_entry.
  destruct (AccountStorage.isValidAccount (Some a)); simpl; [|done].
  destruct (String.eqb (email_of a) e) eqn:E.
  - apply String.eqb_eq in E. subst e. apply get_set_eq.
  - apply String.eqb_neq in E. by apply get_set_ne.
Qed.

Lemma load_entries_values (elems : list JSON) (m : list (string * JSON)) (x : JSON) :
  x ∈ Map.values (fold_left AccountStorage.load_entry elems m) →
  (x ∈ elems ∧ valid x) ∨ x ∈ Map.values m.
Proof.
  revert m. induction elems as [|a elems IH]; simpl; intros m H; [by right|].
  destruct (IH _ H) as [[Hin Hv]|Hm].
  - left. split; [by right | done].
  - unfold AccountStorage.load_entry in Hm.
    destruct (AccountStorage.isValidAccount (Some a)) eqn:Ha; [|by right].
    apply values_set_inv in Hm as [->|Hm]; [|by right].
    left. split; [left | done].
Qed.

Lemma load_entries_get (elems : list JSON) (m : list (string * JSON)) (e : string) (x : JSON) :
  Map.get e (fold_left AccountStorage.load_entry elems m) = Some x →
  (x ∈ elems ∧ valid x ∧ email_of x = e) ∨ Map.get e m = Some x.
Proof.
  revert m. induction elems as [|a elems IH]; simpl; intros m H; [by right|].
  destruct (IH _ H) as [(Hin & Hv & He)|Hm].
  - left. split; [by right | done].
  - rewrite load_entry_get in Hm.
    destruct (AccountStorage.isValidAccount (Some a)) eqn:Ha; simpl in Hm; [|by right].
    destruct (String.eqb (email_of a) e) eqn:E; [|by right].
    apply String.eqb_eq in E. injection Hm as <-.
    left. split; [left | done].
Qed.

(** A record stays under its email as long as no later valid entry
    carries the same email. *)
Lemma load_entries_keep (elems : list JSON) (m : list (string * JSON)) (a : JSON) :
  Map.get (email_of a) m = Some a →
  (∀ b, b ∈ elems → valid b → email_of b ≠ email_of a) →
  Map.get (email_of a) (fold_left AccountStorage.load_entry elems m) = Some a.
Proof.
  revert m. induction elems as [|b elems IH]; simpl; intros m Hm Hlater; [done|].
  apply IH.
  - rewrite load_entry_get.
    destruct (AccountStorage.isValidAccount (Some b)) eqn:Hb; simpl; [|done].
    destruct (String.eqb (email_of b) (email_of a)) eqn:E; [|done].
    apply String.eqb_eq in E. exfalso. eapply Hlater; [left | done | done].
  - intros c Hc. apply Hlater. by right.
Qed.

Lemma load_entries_last_wins (before after : list JSON) (a : JSON) (m : list (string * JSON)) :
  valid a →
  (∀ b, b ∈ after → valid b → email_of b ≠ email_of a) →
  Map.get (email_of a) (fold_left AccountStorage.load_entry (before ++ a :: after) m)
  = Some a.
Proof.
  intros Ha Hlater. rewrite fold_left_app. simpl.
  apply load_entries_keep; [|done].
  rewrite load_entry_get, Ha, String.eqb_refl. done.
Qed.

Lemma load_entries_NoDup (elems : list JSON) (m : list (string * JSON)) :
  NoDup (Map.keys m) → NoDup (Map.keys (fold_left AccountStorage.load_entry elems m)).
Proof.
  revert m. induction elems as [|a elems IH]; simpl; intros m Hm; [done|].
  apply IH. unfold AccountStorage.load_entry.
  destruct (AccountStorage.isValidAccount (Some a)); [by apply set_NoDup | done].
Qed.

(** What [loadAccounts] returns, case by case. *)
Lemma loadAccounts_cases (this : AccountStorage.t) (fs : FileSystem) :
  AccountStorage.loadAccounts this fs
  = Ok match nodes fs !! AccountStorage.accountsFile this with
       | Some (File text) =>
           match parse text with
           | Ok (JArray elems) =>
               AccountStorage.with_accounts this
                 (fold_left AccountStorage.load_entry elems (AccountStorage.accounts this))
           | _ => this
           end
       | _ => this
       end.
Proof.
  unfold AccountStorage.loadAccounts, existsSync, readFileSync.
  destruct (nodes fs !! AccountStorage.accountsFile this) as [[text|]|]; simpl;
    [|done..].
  destruct (parse text) as [[]|]; done.
Qed.

Lemma typeof_string (v : option JSON) :
  typeof v = TyString ↔ ∃ s, v = Some (JString s).
Proof.
  split.
  - destruct v as [[]|]; try done. eauto.
  - by intros [s ->].
Qed.

Lemma isValidAccount_iff (account : JSON) :
  valid account ↔
  ∃ members o e c s r,
    account = JObject members
    ∧ obj_get "email" members = Some (JString e)
    ∧ obj_get "oauth2" members = Some (JObject o)
    ∧ obj_get "clientId" o = Some (JString c)
    ∧ obj_get "clientSecret" o = Some (JString s)
    ∧ obj_get "refreshToken" o = Some (JString r).
Proof.
  unfold AccountStorage.isValidAccount. split.
  - destruct account as [| | | | |members]; try done. simpl.
    destruct (obj_get "email" members) as [[| | |e| |]|] eqn:He; try done. simpl.
    destruct (obj_get "oauth2" members) as [[| | | | |o]|] eqn:Ho; try done. simpl.
    destruct (obj_get "clientId" o) as [[| | |c| |]|] eqn:Hc; try done. simpl.
    destruct (obj_get "clientSecret" o) as [[| | |s| |]|] eqn:Hs; try done. simpl.
    destruct (obj_get "refreshToken" o) as [[| | |r| |]|] eqn:Hr; try done.
    intros _. by exists members, o, e, c, s, r.
  - intros (members & o & e & c & s & r & -> & He & Ho & Hc & Hs & Hr). simpl.
    rewrite He, Ho. simpl. by rewrite Hc, Hs, Hr.
Qed.

Lemma has_set_mono {V} (k k' : string) (v : V) (m : list (string * V)) :
  Map.has k m = true → Map.has k (Map.set k' v m) = true.
Proof.
  unfold Map.has. destruct (decide (k' = k)) as [->|Hne].
  - by rewrite get_set_eq.
  - by rewrite get_set_ne.
Qed.

Lemma load_entries_has_mono (elems : list JSON) (m : list (string * JSON)) (k : string) :
  Map.has k m = true → Map.has k (fold_left AccountStorage.load_entry elems m) = true.
Proof.
  revert m. induction elems as [|a elems IH]; simpl; intros m H; [done|].
  apply IH. unfold AccountStorage.load_entry.
  destruct (AccountStorage.isValidAccount (Some a)); [by apply has_set_mono | done].
Qed.

Lemma load_entries_has (elems : list JSON) (m : list (string * JSON)) (a : JSON) :
  a ∈ elems → valid a →
  Map.has (email_of a) (fold_left AccountStorage.load_entry elems m) = true.
Proof.
  intros Hin Ha. apply list_elem_of_split in Hin as (l1 & l2 & ->).
  rewrite fold_left_app. simpl. apply load_entries_has_mono.
  unfold AccountStorage.load_entry. rewrite Ha. apply has_set.
Qed.


(** C1 (as amended): loadAccounts keeps a record exactly when it is an
    object whose email is a string and whose oauth2 is an object with
    string clientId, clientSecret and refreshToken (the strings may be
    empty); every other entry is left out without an error; and the file
    of the test, with one valid and two invalid entries, loads as the one
    valid record. *)
Theorem loadAccounts_keeps_the_typed_records :
  (∀ account : JSON,
     valid account ↔
     ∃ members o e c s r,
       account = JObject members
       ∧ obj_get "email" members = Some (JString e)
       ∧ obj_get "oauth2" members = Some (JObject o)
       ∧ obj_get "clientId" o = Some (JString c)
       ∧ obj_get "clientSecret" o = Some (JString s)
       ∧ obj_get "refreshToken" o = Some (JString r))
  ∧ (∀ this fs text elems,
       nodes fs !! AccountStorage.accountsFile this = Some (File text) →
       parse text = Ok (JArray elems) →
       AccountStorage.accounts this = [] →
       ∃ this',
         AccountStorage.loadAccounts this fs = Ok this'
         ∧ (∀ a, a ∈ AccountStorage.getAllAccounts this' → a ∈ elems ∧ valid a)
         ∧ (∀ a, a ∈ elems → valid a →
              AccountStorage.hasAccount (email_of a) this' = true))
  ∧ (∃ this' fs',
       AccountStorage.new "/home/user" (Some "/cfg")
         (only_file "/cfg/accounts.json" one_valid_two_invalid) = Ok (this', fs')
       ∧ AccountStorage.getAllAccounts this'
         = [Account_object
              {| email := "valid@example.com";
                 oauth2 := {| clientId := "c"; clientSecret := "s";
                              refreshToken := "r"; accessToken := None |} |}]).
Proof.
  split; [exact isValidAccount_iff|]. split.
  - intros this fs text elems Hfile Hparse Hempty.
    eexists. split.
    + rewrite loadAccounts_cases, Hfile, Hparse. reflexivity.
    + unfold AccountStorage.getAllAccounts, AccountStorage.hasAccount. simpl.
      rewrite Hempty. split.
      * intros a Ha. apply load_entries_values in Ha as [?|Ha]; [done|].
        inversion Ha.
      * intros a Hin Ha. by apply load_entries_has.
  - eexists _, _. split; [vm_compute; reflexivity|]. vm_compute. reflexivity.
Qed.

(** C1, as stated, fails: a record whose email and credentials are
    empty strings passes the check and is kept. *)
Lemma empty_strings_record_is_kept :
  let record :=
    JObject [("email", JString "");
             ("oauth2", JObject [("clientId", JString ""); ("clientSecret", JString "");
                                 ("refreshToken", JString "")])] in
  let text :=
    with_double_quotes
      "[{'email':'','oauth2':{'clientId':'','clientSecret':'','refreshToken':''}}]" in
  parse text = Ok (JArray [record])
  ∧ AccountStorage.isValidAccount (Some record) = true
  ∧ string_prop record "email" = ""
  ∧ ∃ this' fs',
      AccountStorage.new "/home/user" (Some "/cfg") (only_file "/cfg/accounts.json" text)
        = Ok (this', fs')
      ∧ AccountStorage.getAllAccounts this' = [record]
      ∧ AccountStorage.getAccount "" this' = Some record.
Proof.
  repeat split; try (vm_compute; reflexivity).
  eexists _, _. split; [vm_compute; reflexivity|]. split; vm_compute; reflexivity.
Qed.

(** C2: loadAccounts never throws, whatever the accounts file holds.  A
    text that is not JSON, or whose root is not an array, leaves the
    collection as it was (empty, when the store is being constructed).
    From an array, every record of the collection is a valid entry stored
    under its own email, there is one record per email, and on a repeated
    email the last valid entry in array order is the one kept. *)
Theorem loadAccounts_never_throws (this : AccountStorage.t) (fs : FileSystem) :
  ∃ this',
    AccountStorage.loadAccounts this fs = Ok this'
    ∧ (nodes fs !! AccountStorage.accountsFile this = None → this' = this)
    ∧ (nodes fs !! AccountStorage.accountsFile this = Some Directory → this' = this)
    ∧ ∀ text,
        nodes fs !! AccountStorage.accountsFile this = Some (File text) →
        ((∀ elems, parse text ≠ Ok (JArray elems)) →
         this' = this
         ∧ (AccountStorage.accounts this = [] → AccountStorage.getAllAccounts this' = []))
        ∧ (∀ elems,
             parse text = Ok (JArray elems) →
             AccountStorage.accounts this = [] →
             NoDup (Map.keys (AccountStorage.accounts this'))
             ∧ (∀ e a, AccountStorage.getAccount e this' = Some a →
                  a ∈ elems ∧ valid a ∧ email_of a = e)
             ∧ (∀ before a after,
                  elems = (before ++ a :: after)%list →
                  valid a →
                  (∀ b, b ∈ after → valid b → email_of b ≠ email_of a) →
                  AccountStorage.getAccount (email_of a) this' = Some a)).
Proof.
  eexists. split; [apply loadAccounts_cases|]. split; [by intros ->|].
  split; [by intros ->|].
  intros text ->. split.
  - intros Hnot.
    assert (∀ t : AccountStorage.t,
              AccountStorage.accounts t = [] → AccountStorage.getAllAccounts t = [])
      as Hnone by (intros t Ht; unfold AccountStorage.getAllAccounts; by rewrite Ht).
    destruct (parse text) as [[|?|?|?|elems|?]|?]; try (split; [done | apply Hnone]).
    by destruct (Hnot elems).
  - intros elems -> Hempty.
    unfold AccountStorage.getAccount. simpl. rewrite Hempty. split; [|split].
    + apply load_entries_NoDup. constructor.
    + intros e a H. by apply load_entries_get in H as [?|?].
    + intros before a after -> Ha Hlater. by apply load_entries_last_wins.
Qed.

Example loadAccounts_invalid_json :
  ∃ this' fs',
    AccountStorage.new "/home/user" (Some "/cfg") (only_file "/cfg/accounts.json" "invalid json")
      = Ok (this', fs')
    ∧ AccountStorage.getAllAccounts this' = [].
Proof. eexists _, _. split; [vm_compute; reflexivity|]. vm_compute. reflexivity. Qed.

Example loadAccounts_last_entry_wins :
  ∃ this' fs',
    AccountStorage.new "/home/user" (Some "/cfg")
      (only_file "/cfg/accounts.json"
         (with_double_quotes
            "[{'email':'a@x.com','oauth2':{'clientId':'c','clientSecret':'s','refreshToken':'first'}}, {'email':'b@x.com','oauth2':{'clientId':'c','clientSecret':'s','refreshToken':'other'}}, {'email':'a@x.com','oauth2':{'clientId':'c','clientSecret':'s','refreshToken':'last'}}]"))
      = Ok (this', fs')
    ∧ map (λ a, (string_prop a "email",
                 option_map (λ o, string_prop o "refreshToken") (prop (Some a) "oauth2")))
          (AccountStorage.getAllAccounts this')
      = [("a@x.com", Some "last"); ("b@x.com", Some "other")].
Proof. eexists _, _. split; [vm_compute; reflexivity|]. vm_compute. reflexivity. Qed.

(** *** Credentials *)

(** C5: getCredentials never throws.  It returns null when the
    credentials file does not exist (or is not a regular file), when its
    text is not JSON, and when clientId or clientSecret is missing or is
    not a string; otherwise it returns the object read from the file. *)
Theorem getCredentials_never_throws (this : AccountStorage.t) (fs : FileSystem) :
  ∃ r,
    AccountStorage.getCredentials this fs = Ok r
    ∧ (nodes fs !! AccountStorage.credentialsFile this = None → r = None)
    ∧ (nodes fs !! AccountStorage.credentialsFile this = Some Directory → r = None)
    ∧ ∀ text,
        nodes fs !! AccountStorage.credentialsFile this = Some (File text) →
        (∀ e, parse text = Throw e → r = None)
        ∧ (∀ data,
             parse text = Ok data →
             ((∃ c s, prop (Some data) "clientId" = Some (JString c)
                      ∧ prop (Some data) "clientSecret" = Some (JString s)) →
              r = Some data)
             ∧ ((∀ c, prop (Some data) "clientId" ≠ Some (JString c))
                ∨ (∀ s, prop (Some data) "clientSecret" ≠ Some (JString s)) →
                r = None)).
Proof.
  unfold AccountStorage.getCredentials, existsSync, readFileSync.
  destruct (nodes fs !! AccountStorage.credentialsFile this) as [[text|]|]; simpl;
    [|by exists None..].
  destruct (parse text) as [data|e] eqn:Hparse; simpl.
  2:{ exists None. split; [done|]. split; [done|]. split; [done|].
      intros ? [= <-]. rewrite Hparse. split; [done|]. intros ? [=]. }
  assert (∃ r,
    try_catch
      (let! clientId := member (Some data) "clientId" in
       if bool_decide (typeof clientId = TyString)
       then let! clientSecret := member (Some data) "clientSecret" in
            if bool_decide (typeof clientSecret = TyString) then Ok (Some data) else Ok None
       else Ok None) (λ _, Ok None) = Ok r
    ∧ ((∃ c s, prop (Some data) "clientId" = Some (JString c)
               ∧ prop (Some data) "clientSecret" = Some (JString s)) → r = Some data)
    ∧ ((∀ c, prop (Some data) "clientId" ≠ Some (JString c))
       ∨ (∀ s, prop (Some data) "clientSecret" ≠ Some (JString s)) → r = None))
    as (r & Hr & Hsome & Hnone).
  { destruct data as [|b|n|str|elems|members]; simpl.
    1-5: (exists None; split; [reflexivity|]; split;
          [by intros (? & ? & ? & ?) | intros _; reflexivity]).
    destruct (obj_get "clientId" members) as [[|?|?|c|?|?]|]; simpl.
    1-3,5-7: (exists None; split; [reflexivity|]; split;
              [by intros (? & ? & ? & ?) | intros _; reflexivity]).
    destruct (obj_get "clientSecret" members) as [[|?|?|s|?|?]|]; simpl.
    1-3,5-7: (exists None; split; [reflexivity|]; split;
              [by intros (? & ? & ? & ?) | intros _; reflexivity]).
    exists (Some (JObject members)). split; [reflexivity|]. split; [done|].
    intros [H|H]; [by destruct (H c) | by destruct (H s)]. }
  exists r. split; [exact Hr|]. split; [done|]. split; [done|].
  intros ? [= <-]. rewrite Hparse. split; [done|]. intros ? [= <-]. by split.
Qed.

Example getCredentials_missing_field :
  ∃ this' fs',
    AccountStorage.new "/home/user" (Some "/cfg")
      (only_file "/cfg/credentials.json" (with_double_quotes "{'clientId':'only-id'}"))
      = Ok (this', fs')
    ∧ AccountStorage.getCredentials this' fs' = Ok None.
Proof. eexists _, _. split; [vm_compute; reflexivity|]. vm_compute. reflexivity. Qed.

Example getCredentials_null_root :
  ∃ this' fs',
    AccountStorage.new "/home/user" (Some "/cfg") (only_file "/cfg/credentials.json" "null")
      = Ok (this', fs')
    ∧ AccountStorage.getCredentials this' fs' = Ok None.
Proof. eexists _, _. split; [vm_compute; reflexivity|]. vm_compute. reflexivity. Qed.

(** *** [JSON.parse] reads back what [JSON.stringify] writes *)

Lemma feed_app (st : PState) (s1 s2 : string) :
  feed st (s1 +:+ s2)
  = match feed st s1 with Some st' => feed st' s2 | None => None end.
Proof.
  revert st. induction s1 as [|c s1 IH]; intros st; simpl; [done|].
  destruct (step st c); [apply IH | done].
Qed.

Lemma feed_escape_char (c : ascii) (key : bool) (items : list Item) (stack : list Frame) :
  feed (MString key items, stack) (escape_char c)
  = Some (MString key (IByte c :: items), stack).
Proof.
  destruct c as [[] [] [] [] [] [] [] []]; reflexivity.
Qed.

Lemma feed_escape (s : string) (key : bool) (items : list Item) (stack : list Frame) :
  feed (MString key items, stack) (escape s)
  = Some (MString key (rev (map IByte (list_ascii_of_string s)) ++ items)%list, stack).
Proof.
  revert items. induction s as [|c s IH]; intros items; simpl; [done|].
  rewrite feed_app, feed_escape_char, IH.
  by rewrite <- app_assoc.
Qed.

Lemma bytes_of_items_bytes (l : list ascii) : bytes_of_items (map IByte l) = l.
Proof. induction l as [|c l IH]; simpl; [done | by rewrite IH]. Qed.

Lemma string_of_items_bytes (s : string) :
  string_of_items (rev (map IByte (list_ascii_of_string s)) ++ [])%list = s.
Proof.
  unfold string_of_items. rewrite app_nil_r, rev_involutive, bytes_of_items_bytes.
  apply string_of_list_ascii_of_string.
Qed.

Lemma feed_one (st : PState) (c : ascii) : feed st (String c "") = step st c.
Proof. simpl. by destruct (step st c). Qed.

Lemma feed_cons (st st' : PState) (c : ascii) (s : string) :
  step st c = Some st' → feed st (String c s) = feed st' s.
Proof. intros H. simpl. by rewrite H. Qed.

Lemma feed_quote (s : string) (stack : list Frame) :
  feed (MValue, stack) (quote s) = deliver (JString s) stack.
Proof.
  unfold quote.
  rewrite (feed_cons _ (MString false [], stack)) by reflexivity.
  rewrite feed_app, feed_escape, feed_one.
  change (end_string false
            (string_of_items (rev (map IByte (list_ascii_of_string s)) ++ [])%list) stack
          = deliver (JString s) stack).
  by rewrite string_of_items_bytes.
Qed.

Lemma append_assoc' (a b c : string) : (a +:+ b) +:+ c = a +:+ (b +:+ c).
Proof.
  induction a as [|x a IH]; [done|].
  change (String x ((a +:+ b) +:+ c) = String x (a +:+ (b +:+ c))). by rewrite IH.
Qed.

Lemma feed_app_some (st st' : PState) (a rest : string) :
  feed st a = Some st' → feed st (a +:+ rest) = feed st' rest.
Proof. intros H. by rewrite feed_app, H. Qed.

Ltac feed_piece :=
  erewrite feed_app_some;
  [| first [ rewrite feed_quote; vm_compute; reflexivity | vm_compute; reflexivity ] ].

Lemma parse_stringify_credentials (c s : string) :
  parse (stringify (StoredCredentials_object c s)) = Ok (StoredCredentials_object c s).
Proof.
  unfold stringify, StoredCredentials_object, parse. cbn -[quote feed].
  rewrite !append_assoc'.
  repeat feed_piece.
  vm_compute. reflexivity.
Qed.

(** C10: setCredentials(c, s) followed by getCredentials returns
    exactly the object with clientId c and clientSecret s, whatever the
    credentials file held before. *)
Theorem setCredentials_then_getCredentials
    (c s : string) (this : AccountStorage.t) (fs : FileSystem) :
  AccountStorage.getCredentials this (AccountStorage.setCredentials c s this fs)
  = Ok (Some (StoredCredentials_object c s)).
Proof.
  unfold AccountStorage.getCredentials, AccountStorage.setCredentials,
    existsSync, readFileSync, writeFileSync. simpl.
  rewrite lookup_insert_eq. simpl.
  rewrite parse_stringify_credentials. reflexivity.
Qed.

(** *** The accounts file is read back *)

Lemma parse_stringify_account (account : Account) :
  parse (stringify (JArray [Account_object account]))
  = Ok (JArray [Account_object account]).
Proof.
  destruct account as [e [c s r [t|]]];
    unfold stringify, Account_object, OAuth2Credentials_object, parse;
    cbn -[quote feed]; rewrite !append_assoc';
    repeat feed_piece; vm_compute; reflexivity.
Qed.

Lemma length_append (a b : string) :
  String.length (a +:+ b) = (String.length a + String.length b)%nat.
Proof.
  induction a as [|x a IH]; [done|].
  change (S (String.length (a +:+ b)) = S (String.length a + String.length b)).
  by rewrite IH.
Qed.

Lemma path_join_ne (dir name : string) : path_join dir name ≠ dir.
Proof.
  unfold path_join. intros H. apply (f_equal String.length) in H.
  rewrite !length_append in H. simpl in H. lia.
Qed.

(** A store opened on the directory in which a first store has saved an
    account finds that account. *)
Lemma addAccount_persists
    (homedir : string) (dir : option string) (fs : FileSystem) (account : Account) :
  ∃ this fs1,
    AccountStorage.new homedir dir fs = Ok (this, fs1)
    ∧ (AccountStorage.accounts this = [] →
       ∃ reopened fs2,
         AccountStorage.new homedir dir
           (snd (AccountStorage.addAccount account this fs1)) = Ok (reopened, fs2)
         ∧ AccountStorage.getAccount (email account) reopened
           = Some (Account_object account)
         ∧ AccountStorage.getAllAccounts reopened = [Account_object account]).
Proof.
  unfold AccountStorage.new.
  set (configDir := default (path_join homedir ".gtcli") dir).
  set (this0 := {| AccountStorage.accounts := [];
                   AccountStorage.configDir := configDir;
                   AccountStorage.accountsFile := path_join configDir "accounts.json";
                   AccountStorage.credentialsFile := path_join configDir "credentials.json" |}).
  rewrite loadAccounts_cases. simpl.
  eexists _, _. split; [reflexivity|]. intros Hempty.
  set (this := match nodes (AccountStorage.ensureConfigDir this0 fs) !! _ with
               | Some (File text) => _ | _ => this0 end) in *.
  assert (AccountStorage.accountsFile this = path_join configDir "accounts.json") as Hfile.
  { subst this. destruct (nodes _ !! _) as [[text|]|]; [|done..].
    by destruct (parse text) as [[]|]. }
  unfold AccountStorage.addAccount, AccountStorage.saveAccounts. simpl.
  rewrite Hempty, Hfile. simpl.
  rewrite loadAccounts_cases. simpl.
  assert (∀ fs' : FileSystem,
            nodes (AccountStorage.ensureConfigDir this0
                     (writeFileSync (path_join configDir "accounts.json")
                        (stringify (JArray [Account_object account])) fs'))
            !! path_join configDir "accounts.json"
            = Some (File (stringify (JArray [Account_object account])))) as ->.
  { intros fs'. unfold AccountStorage.ensureConfigDir, mkdirSync, writeFileSync. simpl.
    destruct (negb _); simpl; [|by rewrite lookup_insert_eq].
    rewrite lookup_insert_ne by (apply not_eq_sym, path_join_ne).
    by rewrite lookup_insert_eq. }
  rewrite parse_stringify_account.
  eexists _, _. split; [reflexivity|].
  unfold AccountStorage.getAccount, AccountStorage.getAllAccounts. simpl.
  split; [|done].
  change (string_prop (Account_object account) "email") with (email account).
  by rewrite String.eqb_refl.
Qed.

(** *** One record per email *)

Lemma delete_NoDup {V} (k : string) (m : list (string * V)) :
  NoDup (Map.keys m) → NoDup (Map.keys (snd (Map.delete k m))).
Proof.
  unfold Map.keys. simpl. induction m as [|[k' v] m IH]; simpl; [done|].
  intros H. apply NoDup_cons in H as [Hk Hm].
  destruct (String.eqb k k'); simpl; [by apply IH|].
  apply NoDup_cons. split; [|by apply IH].
  intros Hin. apply Hk. clear -Hin.
  induction m as [|[k0 v0] m IH]; simpl in *; [done|].
  destruct (negb (String.eqb k k0)); simpl in *.
  - apply elem_of_cons in Hin as [->|Hin]; [left | right; by apply IH].
  - right. by apply IH.
Qed.

(** The collection never holds two records of one email: its length is
    the number of emails present. *)
Lemma one_record_per_email (this : AccountStorage.t) (fs : FileSystem) :
  NoDup (Map.keys (AccountStorage.accounts this)) →
  (∀ account,
     NoDup (Map.keys (AccountStorage.accounts
                        (fst (AccountStorage.addAccount account this fs)))))
  ∧ (∀ email,
       NoDup (Map.keys (AccountStorage.accounts
                          (snd (fst (AccountStorage.deleteAccount email this fs))))))
  ∧ List.length (AccountStorage.getAllAccounts this)
    = List.length (Map.keys (AccountStorage.accounts this)).
Proof.
  intros H. split; [|split].
  - intros account. simpl. by apply set_NoDup.
  - intros email. unfold AccountStorage.deleteAccount.
    pose proof (delete_NoDup email _ H) as H'.
    destruct (Map.delete email (AccountStorage.accounts this)) as [[] m]; exact H'.
  - unfold AccountStorage.getAllAccounts, Map.values, Map.keys.
    by rewrite !length_map.
Qed.

(** ** The authorization code of a redirect *)

Lemma code_inj (a b : ascii) : code a = code b → a = b.
Proof.
  unfold code. intros H.
  rewrite <- (ascii_N_embedding a), <- (ascii_N_embedding b). by rewrite H.
Qed.

Lemma code_eqb_eq (a b : ascii) : (code a =? code b)%N = true ↔ a = b.
Proof.
  rewrite N.eqb_eq. split; [apply code_inj | by intros ->].
Qed.

Lemma drop_prefix_spec (p s r : string) : drop_prefix p s = Some r ↔ s = p +:+ r.
Proof.
  revert s. induction p as [|a p IH]; intros s; simpl.
  - split; [by intros [= ->] | by intros ->].
  - destruct s as [|b s]; [split; [done | intros [=]]|].
    destruct (code a =? code b)%N eqn:E.
    + apply code_eqb_eq in E. subst b. rewrite IH.
      split; [by intros -> | by intros [= ->]].
    + split; [done|]. intros [= -> _].
      assert ((code a =? code a)%N = true) by by apply code_eqb_eq.
      congruence.
Qed.

Lemma span_until_group (stop : N) (s : string) :
  fst (span_until stop s) = ""
  ↔ s = "" ∨ ∃ c s', s = String c s' ∧ code c = stop.
Proof.
  destruct s as [|c s]; simpl.
  - split; [by left | done].
  - destruct (code c =? stop)%N eqn:E; simpl.
    + apply N.eqb_eq in E. split; [|done]. intros _. right. by exists c, s.
    + apply N.eqb_neq in E. destruct (span_until stop s). simpl.
      split; [done|]. intros [?|(c' & s' & [= -> ->] & ?)]; done.
Qed.

(** The regular expression finds nothing exactly when every [code=] of
    the text is followed by [&] or by the end of the text. *)
Lemma match_code_None (s : string) :
  match_code s = None
  ↔ ∀ pre c post, s = pre +:+ "code=" +:+ String c post → code c = 38%N.
Proof.
  induction s as [|a s IH].
  - split; [|done]. intros _ [|? ?] c post; intros [=].
  - assert (match_code (String a s) = None
            ↔ match_code s = None
              ∧ ∀ rest, drop_prefix "code=" (String a s) = Some rest →
                        fst (span_until 38 rest) = "") as ->.
    { change (match_code (String a s)) with
        (match drop_prefix "code=" (String a s) with
         | Some rest =>
             match fst (span_until 38 rest) with
             | EmptyString => match_code s
             | group => Some group
             end
         | None => match_code s
         end).
      destruct (drop_prefix "code=" (String a s)) as [rest|].
      - destruct (fst (span_until 38 rest)) eqn:E.
        + split; [intros H; split; [done | by intros ? [= <-]] | by intros [? _]].
        + split; [done|]. intros [_ H]. specialize (H rest eq_refl). congruence.
      - split; [by intros H | by intros [? _]]. }
    rewrite IH. split.
    + intros [Hs Hrest] pre c post Heq. destruct pre as [|b pre].
      * specialize (Hrest (String c post)).
        rewrite drop_prefix_spec in Hrest. specialize (Hrest Heq).
        apply span_until_group in Hrest as [?|(c' & s' & [= -> ->] & ?)]; done.
      * injection Heq as -> Heq. by eapply Hs.
    + intros H. split.
      * intros pre c post ->. by apply (H (String a pre) c post).
      * intros rest Hrest. apply drop_prefix_spec in Hrest.
        apply span_until_group. destruct rest as [|c post]; [by left|].
        right. exists c, post. split; [done|]. by apply (H "" c post).
Qed.

Lemma match_code_includes (s group : string) :
  match_code s = Some group → includes "code=" s = true.
Proof.
  induction s as [|a s IH]; [done|].
  change (match_code (String a s)) with
    (match drop_prefix "code=" (String a s) with
     | Some rest =>
         match fst (span_until 38 rest) with
         | EmptyString => match_code s
         | group => Some group
         end
     | None => match_code s
     end).
  change (includes "code=" (String a s)) with
    (match drop_prefix "code=" (String a s) with
     | Some _ => true
     | None => includes "code=" s
     end).
  destruct (drop_prefix "code=" (String a s)); [done | exact IH].
Qed.

(** The [catch] block of [extractCodeFromUrl]. *)
Lemma extractCodeFromUrl_cases (url : string) :
  OAuthFlow.extractCodeFromUrl url
  = let fallback :=
      match match_code url with
      | Some group => decodeURIComponent group
      | None => Throw (PlainError "Invalid redirect URL")
      end in
    match URL.parse url with
    | Ok parsed =>
        match URL.searchParams_get "code" (URL.searchParams parsed) with
        | Some (String c rest) => Ok (String c rest)
        | _ => fallback
        end
    | Throw _ => fallback
    end.
Proof.
  unfold OAuthFlow.extractCodeFromUrl.
  assert ((if includes "code=" url
           then match match_code url with
                | Some group => decodeURIComponent group
                | None => Throw (PlainError "Invalid redirect URL")
                end
           else Throw (PlainError "Invalid redirect URL"))
          = match match_code url with
            | Some group => decodeURIComponent group
            | None => Throw (PlainError "Invalid redirect URL")
            end) as ->.
  { destruct (match_code url) as [group|] eqn:E.
    - by rewrite (match_code_includes _ _ E).
    - by destruct (includes "code=" url). }
  destruct (URL.parse url) as [parsed|e]; simpl; [|done].
  by destruct (URL.searchParams_get "code" (URL.searchParams parsed)) as [[|c rest]|].
Qed.

Lemma decodeURIComponent_error (s : string) (e : Error) :
  decodeURIComponent s = Throw e → e = URIError "URI malformed".
Proof.
  unfold decodeURIComponent. destruct (decode_component Utf8.initial s); [done|].
  by intros [= <-].
Qed.

(** C6 (as amended): extractCodeFromUrl returns auth_code_123 and
    fallback_code on the two redirects that carry a code (the second
    through the scan of the text, percent-decoded, since it is not a
    URL), and fails with "Invalid redirect URL" on the redirect that
    carries an error and on the text without a code.  It fails with that
    error only when every code= of the text is followed by & or by the
    end of the text; and on such a text it can only succeed through the
    query of a URL that parses. *)
Theorem extractCodeFromUrl_spec :
  OAuthFlow.extractCodeFromUrl "http://localhost:3000?code=auth_code_123&scope=tasks"
    = Ok "auth_code_123"
  ∧ (URL.parse "not-a-url?code=fallback_code" = Throw (TypeError "Invalid URL")
     ∧ match_code "not-a-url?code=fallback_code" = Some "fallback_code"
     ∧ OAuthFlow.extractCodeFromUrl "not-a-url?code=fallback_code" = Ok "fallback_code")
  ∧ OAuthFlow.extractCodeFromUrl "http://localhost:3000?error=access_denied"
    = Throw (PlainError "Invalid redirect URL")
  ∧ OAuthFlow.extractCodeFromUrl "no-code-here" = Throw (PlainError "Invalid redirect URL")
  ∧ (∀ url,
       OAuthFlow.extractCodeFromUrl url = Throw (PlainError "Invalid redirect URL") →
       ∀ pre c post, url = pre +:+ "code=" +:+ String c post → c = "&"%char)
  ∧ (∀ url,
       (∀ pre c post, url = pre +:+ "code=" +:+ String c post → c = "&"%char) →
       OAuthFlow.extractCodeFromUrl url = Throw (PlainError "Invalid redirect URL")
       ∨ ∃ parsed value,
           URL.parse url = Ok parsed
           ∧ URL.searchParams_get "code" (URL.searchParams parsed) = Some value
           ∧ value ≠ ""
           ∧ OAuthFlow.extractCodeFromUrl url = Ok value).
Proof.
  split; [vm_compute; reflexivity|].
  split; [repeat split; vm_compute; reflexivity|].
  split; [vm_compute; reflexivity|].
  split; [vm_compute; reflexivity|].
  assert (∀ url,
            match_code url = None
            ↔ ∀ pre c post, url = pre +:+ "code=" +:+ String c post → c = "&"%char)
    as Hscan.
  { intros url. rewrite match_code_None. split; intros H pre c post Heq.
    - apply code_inj. exact (H pre c post Heq).
    - by rewrite (H pre c post Heq). }
  split.
  - intros url Hfail. apply Hscan.
    rewrite extractCodeFromUrl_cases in Hfail. simpl in Hfail.
    destruct (match_code url) as [group|]; [|done].
    assert (decodeURIComponent group ≠ Throw (PlainError "Invalid redirect URL")) as Hne
      by (intros H; by apply decodeURIComponent_error in H).
    exfalso.
    destruct (URL.parse url) as [parsed|e]; [|done].
    by destruct (URL.searchParams_get "code" (URL.searchParams parsed)) as [[|c rest]|].
  - intros url Hnone. apply Hscan in Hnone.
    rewrite extractCodeFromUrl_cases. simpl. rewrite Hnone.
    destruct (URL.parse url) as [parsed|e]; [|by left].
    destruct (URL.searchParams_get "code" (URL.searchParams parsed)) as [[|c rest]|] eqn:E;
      [by left | | by left].
    right. by exists parsed, (String c rest).
Qed.

(** C6, as stated, fails: a redirect whose code= is followed by nothing
    (or by &) contains the substring and is still refused. *)
Lemma extractCodeFromUrl_refuses_an_empty_code :
  "http://localhost:3000?code=" = "http://localhost:3000?" +:+ "code=" +:+ ""
  ∧ includes "code=" "http://localhost:3000?code=" = true
  ∧ OAuthFlow.extractCodeFromUrl "http://localhost:3000?code="
    = Throw (PlainError "Invalid redirect URL")
  ∧ includes "code=" "not-a-url?code=&state=1" = true
  ∧ OAuthFlow.extractCodeFromUrl "not-a-url?code=&state=1"
    = Throw (PlainError "Invalid redirect URL").
Proof. repeat split; vm_compute; reflexivity. Qed.
(** ** The token exchange *)

(** C7: whatever the token endpoint answers, exchangeCode fails with a
    message containing "No refresh token received" when the answer
    carries no refresh token (undefined, null or empty), and returns the
    refresh token and the access token as they are when it carries
    both. *)
Theorem exchangeCode_needs_a_refresh_token
    (getToken : string → Result Credentials) (code : string) (tokens : Credentials) :
  getToken code = Ok tokens →
  (refresh_token tokens = Undefined ∨ refresh_token tokens = Null
   ∨ refresh_token tokens = Str "" →
   ∃ message,
     OAuthFlow.exchangeCode getToken code = Throw (PlainError message)
     ∧ includes "No refresh token received" message = true)
  ∧ (∀ r a,
       refresh_token tokens = Str r → r ≠ "" → access_token tokens = Str a →
       OAuthFlow.exchangeCode getToken code
       = Ok {| OAuthFlow.refreshToken := r; OAuthFlow.accessToken := Some a |}).
Proof.
  intros Hresponse. unfold OAuthFlow.exchangeCode, OAuthFlow.exchange_result.
  rewrite Hresponse. simpl. split.
  - intros [->|[->| ->]]; (eexists; split; [reflexivity | by vm_compute]).
  - intros r a -> Hr ->. by destruct r.
Qed.

Lemma exchangeCode_needs_a_refresh_token_witness :
  let getToken (_ : string) :=
    Ok {| refresh_token := Str "refresh-token"; access_token := Str "access-token" |} in
  getToken "test-code"
  = Ok {| refresh_token := Str "refresh-token"; access_token := Str "access-token" |}
  ∧ OAuthFlow.exchangeCode getToken "test-code"
    = Ok {| OAuthFlow.refreshToken := "refresh-token";
            OAuthFlow.accessToken := Some "access-token" |}.
Proof.
  split; [reflexivity|].
  apply (exchangeCode_needs_a_refresh_token
           (λ _, Ok {| refresh_token := Str "refresh-token";
                       access_token := Str "access-token" |})
           "test-code" _ eq_refl); done.
Defined.

Example exchangeCode_without_refresh_token :
  OAuthFlow.exchangeCode
    (λ _, Ok {| refresh_token := Undefined; access_token := Str "access" |}) "test-code"
  = Throw (PlainError "No refresh token received. Try revoking app access and re-authorizing.").
Proof. reflexivity. Qed.

(** An error of the endpoint itself passes through. *)
Lemma exchangeCode_transport_error
    (getToken : string → Result Credentials) (code : string) (e : Error) :
  getToken code = Throw e → OAuthFlow.exchangeCode getToken code = Throw e.
Proof. intros H. unfold OAuthFlow.exchangeCode. by rewrite H. Qed.
(** ** The interactive authorization *)

Section browser.
Import OAuthFlow.

Lemma step_callback (b b' : Browser) (e : Event) :
  step b e = Some b' → uncaught b = None ∧ callback b e = Some b'.
Proof. unfold step. by destruct (uncaught b). Qed.


Lemma server_on_request (code error : option string) (b : Browser) :
  server (on_request code error b)
  = if completing (Request code error) then close (server b) else server b.
Proof.
  unfold on_request. simpl.
  destruct (truthy (of_option error)); [done|]. by destruct (truthy (of_option code)).
Qed.

Lemma step_undecided (b b' : Browser) (e : Event) :
  undecided b → step b e = Some b' → undecided b'.
Proof.
  unfold undecided. intros Hb Hstep. apply step_callback in Hstep as [_ Hstep].
  destruct e as [|message|code error|response| |]; simpl in Hstep.
  - destruct (server b); try done. by injection Hstep as <-.
  - destruct (server b); try done. by injection Hstep as <-.
  - destruct (server b) eqn:Hs; try done; injection Hstep as <-;
      unfold on_request;
      (destruct (truthy (of_option error)); [by rewrite Hs|]);
      destruct (truthy (of_option code)); simpl; by rewrite Hs.
  - destruct (exchanges b) as [|c rest] eqn:He; [done|]. injection Hstep as <-. simpl.
    destruct (server b); try done; by destruct Hb.
  - destruct (timer b); [|done]. injection Hstep as <-. simpl.
    by destruct (server b).
  - destruct (reachable (server b)); [|done]. by injection Hstep as <-.
Qed.


Lemma step_down (b b' : Browser) (e : Event) :
  down b → step b e = Some b' → down b'.
Proof.
  unfold down. intros Hb Hstep. apply step_callback in Hstep as [_ Hstep].
  destruct e as [|message|code error|response| |]; simpl in Hstep.
  - by destruct Hb as [Hs|Hs]; rewrite Hs in Hstep.
  - by destruct Hb as [Hs|Hs]; rewrite Hs in Hstep.
  - destruct (reachable (server b)); [|done]. injection Hstep as <-.
    rewrite server_on_request.
    destruct (completing _); [|done]. destruct Hb as [-> | ->]; [by left | by right].
  - destruct (exchanges b); [done|]. by injection Hstep as <-.
  - destruct (timer b); [|done]. injection Hstep as <-. simpl.
    destruct Hb as [-> | ->]; [by left | by right].
  - destruct (reachable (server b)); [|done]. by injection Hstep as <-.
Qed.

Lemma step_closed (b b' : Browser) (e : Event) :
  server b = Closed → step b e = Some b' → server b' = Closed.
Proof.
  intros Hs Hstep. apply step_callback in Hstep as [_ Hstep].
  destruct e as [|message|code error|response| |]; simpl in Hstep;
    rewrite ?Hs in Hstep; simpl in Hstep; try done.
  - injection Hstep as <-. rewrite server_on_request, Hs. by destruct (completing _).
  - destruct (exchanges b); [done|]. by injection Hstep as <-.
  - destruct (timer b); [|done]. by injection Hstep as <-.
  - by injection Hstep as <-.
Qed.

Lemma run_closed (events : list Event) (b b' : Browser) :
  server b = Closed → run b events = Some b' → server b' = Closed.
Proof.
  revert b. induction events as [|e events IH]; simpl; intros b Hs Hrun.
  - by injection Hrun as <-.
  - destruct (step b e) as [b1|] eqn:Hstep; [|done].
    eapply IH; [|done]. by eapply step_closed.
Qed.


Lemma run_app (b : Browser) (events later : list Event) :
  run b (events ++ later)
  = match run b events with Some b' => run b' later | None => None end.
Proof.
  revert b. induction events as [|e events IH]; intros b; simpl; [done|].
  destruct (step b e); [apply IH | done].
Qed.

Lemma run_cons (b : Browser) (e : Event) (later : list Event) :
  run b (e :: later)
  = match step b e with Some b' => run b' later | None => None end.
Proof. done. Qed.


Lemma started_undecided : undecided started.
Proof. done. Qed.



(** Nor is a completing request the last one: a second code that comes
    over the connection of the first is answered and exchanged too. *)
Example a_second_code_on_the_same_connection :
  ∃ b,
    run started
      [Bound; Request (Some "first") None; Request (Some "second") None] = Some b
    ∧ server b = Closed
    ∧ exchanges b = ["first"; "second"]
    ∧ List.map fst (responses b) = [200%N; 200%N].
Proof. eexists. split; [reflexivity|]. by repeat split. Qed.

(** A target such as [//] ends the process with the listener open. *)
Example unparsable_target_ends_the_process :
  ∃ b,
    run started [Bound; Unparsable] = Some b
    ∧ server b = Listening
    ∧ promise b = Pending
    ∧ responses b = []
    ∧ run started [Bound; Unparsable; TimerFired] = None.
Proof. eexists. split; [reflexivity|]. by repeat split. Qed.

Example authorizeBrowser_success :
  ∃ b,
    run started
      [Bound; Request None None; Request (Some "the-code") None;
       Tokens (Ok {| refresh_token := Str "r"; access_token := Null |})]
    = Some b
    ∧ server b = Closed
    ∧ promise b = Resolved {| refreshToken := "r"; accessToken := None |}.
Proof. eexists. split; [reflexivity|]. by split. Qed.

Example authorizeBrowser_denied :
  ∃ b,
    run started [Bound; Request None (Some "access_denied")] = Some b
    ∧ server b = Closed
    ∧ promise b = Rejected (PlainError "Authorization failed: access_denied").
Proof. eexists. split; [reflexivity|]. by split. Qed.
End browser.

(** ** The [accounts add] command *)

Section cli.
Import Cli Example.

(** C9: when the email given to [accounts add] is already in the store
    the command prints an error and exits with status 1 before any
    authorization run is started: nothing of the environment (token
    endpoint, pasted line, callbacks) is consulted, and the store, the
    files, and so the record stored under that email, are as they
    were. *)
Theorem accounts_add_rejects_a_known_email
    (env : OAuthFlow.Environment) (args : list string) (w : World) (email : string) :
  head (List.filter (λ a, negb (String.eqb a "--manual")) (tail args)) = Some email →
  AccountStorage.hasAccount email (storage w) = true →
  email ≠ "" →
  let '(outcome, w') := handleAccounts_add env args w in
  outcome = Exit 1
  ∧ console w' = ("Error: Account '" +:+ email +:+ "' already exists") :: console w
  ∧ network w' = network w
  ∧ storage w' = storage w
  ∧ fs w' = fs w
  ∧ AccountStorage.getAccount email (storage w')
    = AccountStorage.getAccount email (storage w)
  ∧ ∀ env', handleAccounts_add env' args w = (outcome, w').
Proof.
  intros Hemail Hknown Hnonempty. unfold handleAccounts_add.
  rewrite Hemail. destruct email as [|c rest]; [done|].
  by rewrite Hknown.
Qed.


Lemma accounts_add_rejects_a_known_email_witness :
  head (List.filter (λ a, negb (String.eqb a "--manual")) (tail ["add"; "--manual"; "a@x.com"]))
  = Some "a@x.com"
  ∧ AccountStorage.hasAccount "a@x.com" (storage world_with_known_account) = true
  ∧ fst (handleAccounts_add quiet_environment ["add"; "--manual"; "a@x.com"]
           world_with_known_account) = Exit 1
  ∧ network (snd (handleAccounts_add quiet_environment ["add"; "--manual"; "a@x.com"]
                    world_with_known_account)) = [].
Proof.
  split; [reflexivity|]. split; [reflexivity|].
  pose proof (accounts_add_rejects_a_known_email quiet_environment
                ["add"; "--manual"; "a@x.com"] world_with_known_account "a@x.com"
                eq_refl eq_refl ltac:(discriminate)) as H.
  destruct (handleAccounts_add quiet_environment ["add"; "--manual"; "a@x.com"]
              world_with_known_account) as [outcome w'].
  destruct H as (? & ? & ? & ?). by split.
Defined.

(** For a new email the run is started and the account stored. *)
Example accounts_add_new_email :
  let '(outcome, w') :=
    handleAccounts_add quiet_environment ["add"; "--manual"; "b@x.com"]
      world_with_known_account in
  outcome = Returned
  ∧ network w' = [{| manual_mode := true; client_id := "c"; client_secret := "s" |}]
  ∧ AccountStorage.getAccount "b@x.com" (storage w')
    = Some (Account_object
              {| email := "b@x.com";
                 oauth2 := {| clientId := "c"; clientSecret := "s";
                              refreshToken := "new"; accessToken := None |} |})
  ∧ console w'
    = ["Account 'b@x.com' added";
       newline +:+ "After authorization, paste the redirect URL here:";
       "https://accounts.google.com/o/oauth2/v2/auth";
       "Open this URL in your browser:" +:+ newline].
Proof. vm_compute. by repeat split. Qed.

End cli.

(** ** [JSON.parse] reads back every value it can return *)


Lemma append_nil_r (s : string) : s +:+ "" = s.
Proof.
  induction s as [|c s IH]; [done|].
  change (String c (s +:+ "") = String c s). by rewrite IH.
Qed.

Lemma append_cons (c : ascii) (s t : string) : String c s +:+ t = String c (s +:+ t).
Proof. done. Qed.

Lemma delimiter_cases (d : ascii) :
  delimiter d = true →
  d = " "%char ∨ d = "009"%char ∨ d = "010"%char ∨ d = "013"%char
  ∨ d = ","%char ∨ d = "]"%char ∨ d = "}"%char.
Proof.
  unfold delimiter, is_ws. rewrite !orb_true_iff, !N.eqb_eq.
  assert (∀ n, code d = n → d = chr n) as H.
  { intros n <-. unfold chr, code. by rewrite ascii_N_embedding. }
  intros [[[[[[Hd|Hd]|Hd]|Hd]|Hd]|Hd]|Hd]; apply H in Hd; subst d; tauto.
Qed.

Lemma num_step_delimiter (ns : NumState) (d : ascii) :
  delimiter d = true → num_step ns d = None.
Proof.
  intros H. apply delimiter_cases in H.
  destruct H as [->|[->|[->|[->|[->|[->| ->]]]]]]; by destruct ns.
Qed.

Lemma string_rev_onto_app (s acc t : string) :
  string_rev_onto (string_rev_onto s acc) t = string_rev_onto acc (s +:+ t).
Proof.
  revert acc t. induction s as [|c s IH]; intros acc t; simpl; [done|].
  rewrite IH. done.
Qed.

(** The digits of a number, read in the number mode. *)
Lemma feed_number (s : string) (ns ns' : NumState) (acc : string) (stack : list Frame) :
  num_run ns s = Some ns' →
  feed (MNumber ns acc, stack) s = Some (MNumber ns' (string_rev_onto s acc), stack).
Proof.
  revert ns acc. induction s as [|c s IH]; intros ns acc; simpl.
  - by intros [= ->].
  - destruct (num_step ns c) as [ns1|]; [|done]. apply IH.
Qed.

Lemma start_value_number (c : ascii) (ns : NumState) (stack : list Frame) :
  num_start c = Some ns →
  start_value c stack = Some (MNumber ns (String c ""), stack)
  ∧ is_ws c = false ∧ (code c =? 93)%N = false.
Proof.
  unfold num_start, start_value, is_ws, in_range.
  destruct c as [[] [] [] [] [] [] [] []]; vm_compute; intros [= <-]; done.
Qed.

Lemma step_value_mode (m : Mode) (stack : list Frame) (c : ascii) :
  value_mode m → is_ws c = false → (code c =? 93)%N = false →
  step (m, stack) c = start_value c stack.
Proof. intros [-> | ->] Hws Hc; simpl; by rewrite Hws, ?Hc. Qed.

Lemma step_after_deliver (v : JSON) (stack : list Frame) (st : PState) (d : ascii) :
  deliver v stack = Some st → step st d = after_value st d.
Proof.
  destruct stack as [|[acc|ms [k|]] stack]; simpl; intros [= <-]; done.
Qed.

Lemma roundtrip_number (lexeme : string) (m : Mode) (stack : list Frame) (rest : string) :
  number_ok lexeme = true → value_mode m → delimited rest →
  feed (m, stack) (lexeme +:+ rest)
  = match deliver (JNumber lexeme) stack with
    | Some st => feed st rest
    | None => None
    end.
Proof.
  intros Hok Hm Hrest. destruct lexeme as [|c s]; [done|]. simpl in Hok.
  destruct (num_start c) as [ns|] eqn:Hstart; [|done].
  destruct (num_run ns s) as [ns'|] eqn:Hrun; [|done].
  destruct (start_value_number c ns stack Hstart) as (Hsv & Hws & Hc).
  rewrite append_cons.
  rewrite (feed_cons _ (MNumber ns (String c ""), stack))
    by (by rewrite step_value_mode).
  rewrite feed_app, (feed_number _ _ _ _ _ Hrun).
  destruct rest as [|d rest]; [done|]. simpl in Hrest.
  change (feed ?st (String d rest))
    with (match step st d with Some st' => feed st' rest | None => None end).
  cbn [step]. rewrite (num_step_delimiter _ _ Hrest), Hok.
  rewrite string_rev_onto_app. simpl. rewrite append_nil_r.
  destruct (deliver (JNumber (String c s)) stack) as [st|] eqn:Hd; [|done].
  by rewrite (step_after_deliver _ _ _ d Hd).
Qed.


Lemma feed_string_body (s : string) (key : bool) (stack : list Frame) (rest : string) :
  feed (MString key [], stack) (escape s +:+ String dquote "" +:+ rest)
  = match end_string key s stack with
    | Some st => feed st rest
    | None => None
    end.
Proof.
  rewrite feed_app, feed_escape, feed_app, feed_one.
  change (step (MString key (rev (map IByte (list_ascii_of_string s)) ++ [])%list, stack)
               dquote)
    with (end_string key
            (string_of_items (rev (map IByte (list_ascii_of_string s)) ++ [])%list) stack).
  by rewrite string_of_items_bytes.
Qed.

Lemma quote_app (s rest : string) :
  quote s +:+ rest = String dquote (escape s +:+ String dquote "" +:+ rest).
Proof. unfold quote. by rewrite append_cons, append_assoc'. Qed.

Lemma roundtrip_string (s : string) (m : Mode) (stack : list Frame) (rest : string) :
  value_mode m →
  feed (m, stack) (quote s +:+ rest)
  = match deliver (JString s) stack with
    | Some st => feed st rest
    | None => None
    end.
Proof.
  intros Hm. rewrite quote_app.
  rewrite (feed_cons _ (MString false [], stack))
    by (by rewrite step_value_mode).
  apply feed_string_body.
Qed.

(** A key, in an object whose members so far are [members]. *)
Lemma feed_key (k : string) (m : Mode) (members : list (string * JSON))
    (stack : list Frame) (rest : string) :
  key_mode m →
  feed (m, FObject members None :: stack) (quote k +:+ rest)
  = feed (MColon, FObject members (Some k) :: stack) rest.
Proof.
  intros Hm. rewrite quote_app.
  rewrite (feed_cons _ (MString true [], FObject members None :: stack))
    by (by destruct Hm as [-> | ->]).
  by rewrite feed_string_body.
Qed.

(** White space between the tokens. *)
Lemma feed_indent (n : nat) (st : PState) (rest : string) :
  (∀ c, is_ws c = true → step st c = Some st) →
  feed st (indent n +:+ rest) = feed st rest.
Proof.
  intros H. unfold indent. induction n as [|n IH]; [done|].
  simpl repeat_char. rewrite append_cons. by rewrite (feed_cons _ st) by by apply H.
Qed.

Lemma feed_newline_indent (n : nat) (st : PState) (rest : string) :
  (∀ c, is_ws c = true → step st c = Some st) →
  feed st (newline +:+ indent n +:+ rest) = feed st rest.
Proof.
  intros H. unfold newline. rewrite append_cons.
  rewrite (feed_cons _ st) by by apply H.
  by apply feed_indent.
Qed.

Lemma ws_step_mode (m : Mode) (stack : list Frame) (c : ascii) :
  ws_mode m → is_ws c = true → step (m, stack) c = Some (m, stack).
Proof. intros [->|[->|[->|[->| ->]]]] H; simpl; by rewrite H. Qed.

Lemma ws_step_after_array (acc : list JSON) (stack : list Frame) (c : ascii) :
  is_ws c = true →
  step (MAfter, FArray acc :: stack) c = Some (MAfter, FArray acc :: stack).
Proof. intros H. simpl. by rewrite H. Qed.

Lemma ws_step_after_object (ms : list (string * JSON)) (stack : list Frame) (c : ascii) :
  is_ws c = true →
  step (MAfter, FObject ms None :: stack) c = Some (MAfter, FObject ms None :: stack).
Proof. intros H. simpl. by rewrite H. Qed.

Lemma join_joined (sep : string) (parts : list string) (t : string) :
  parts ≠ [] → join sep parts +:+ t = joined sep parts t.
Proof.
  induction parts as [|p ps IH]; [done|]. intros _.
  destruct ps as [|q ps]; [done|].
  change (join sep (p :: q :: ps)) with (p +:+ sep +:+ join sep (q :: ps)).
  change (joined sep (p :: q :: ps) t) with (p +:+ sep +:+ joined sep (q :: ps) t).
  rewrite !append_assoc'. by rewrite IH.
Qed.

Lemma roundtrip_literal (v : JSON) (m : Mode) (stack : list Frame) (rest : string) :
  value_mode m →
  v = JNull ∨ v = JBool true ∨ v = JBool false →
  feed (m, stack) (stringify_at 0 v +:+ rest)
  = match deliver v stack with
    | Some st => feed st rest
    | None => None
    end.
Proof.
  intros Hm [->|[->| ->]]; destruct Hm as [-> | ->];
    simpl stringify_at; rewrite !append_cons; simpl;
    by destruct (deliver _ stack).
Qed.



Lemma append_nil_l (s : string) : "" +:+ s = s.
Proof. done. Qed.

Lemma feed_step (st : PState) (c : ascii) (s : string) :
  feed st (String c s)
  = match step st c with Some st' => feed st' s | None => None end.
Proof. done. Qed.

(** Bring the text to the form [String c rest] and read [c]. *)
Ltac text_norm := rewrite ?append_assoc', ?append_cons, ?append_nil_l.
Ltac read_char := text_norm; rewrite feed_step; simpl step; cbv beta iota.
Ltac skip_ws :=
  text_norm;
  rewrite feed_newline_indent
    by first [ intros ? ?; apply ws_step_mode; [unfold ws_mode; tauto | done]
             | apply ws_step_after_array
             | apply ws_step_after_object ].

Lemma roundtrip_elements (ind : nat) (elems : list JSON) :
  fold_right (λ e Q, roundtrips e ∧ Q) True elems → elems ≠ [] →
  ∀ acc m stack rest,
    value_mode m →
    feed (m, FArray acc :: stack)
      (joined ("," +:+ newline +:+ indent (ind + 2))
         (map (stringify_at (ind + 2)) elems)
         (newline +:+ indent ind +:+ "]" +:+ rest))
    = match deliver (JArray (rev acc ++ elems)) stack with
      | Some st => feed st rest
      | None => None
      end.
Proof.
  induction elems as [|e es IH]; [done|]. intros [He Hes] _ acc m stack rest Hm.
  destruct es as [|e' es'].
  - cbn [map joined].
    rewrite He by (done || by intros _). simpl deliver; cbv beta iota.
    skip_ws. read_char. done.
  - rewrite (map_cons _ e).
    change (joined ?sep (?p :: map ?f (e' :: es')) ?t)
      with (p +:+ sep +:+ joined sep (map f (e' :: es')) t).
    set (J := joined _ (map _ (e' :: es')) _).
    rewrite He by (done || by intros _). simpl deliver; cbv beta iota.
    read_char. skip_ws. subst J.
    rewrite (IH Hes) by (done || by left).
    simpl. by rewrite <- app_assoc.
Qed.

Lemma roundtrip_members (ind : nat) (members : list (string * JSON)) :
  fold_right (λ m Q, roundtrips (snd m) ∧ Q) True members → members ≠ [] →
  ∀ acc m stack rest,
    key_mode m →
    feed (m, FObject acc None :: stack)
      (joined ("," +:+ newline +:+ indent (ind + 2))
         (map (λ kv, quote (fst kv) +:+ ": " +:+ stringify_at (ind + 2) (snd kv)) members)
         (newline +:+ indent ind +:+ "}" +:+ rest))
    = match deliver (JObject (fold_left (λ acc kv, obj_set (fst kv) (snd kv) acc)
                                        members acc)) stack with
      | Some st => feed st rest
      | None => None
      end.
Proof.
  induction members as [|[k v] ms IH]; [done|].
  intros [Hv Hms] _ acc m stack rest Hm. simpl in Hv.
  destruct ms as [|kv' ms'].
  - cbn [map joined fst snd].
    rewrite !append_assoc', feed_key by done.
    read_char. read_char.
    rewrite Hv by (by left || by intros _). simpl deliver; cbv beta iota.
    skip_ws. read_char. done.
  - rewrite (map_cons _ (k, v)).
    change (joined ?sep (?p :: map ?f (kv' :: ms')) ?t)
      with (p +:+ sep +:+ joined sep (map f (kv' :: ms')) t).
    set (J := joined _ (map _ (kv' :: ms')) _). cbn [fst snd].
    rewrite !append_assoc', feed_key by done.
    read_char. read_char.
    rewrite Hv by (by left || by intros _). simpl deliver; cbv beta iota.
    read_char. skip_ws. subst J.
    by rewrite (IH Hms) by (done || by right).
Qed.


(** ** The order of the members of an object *)

Lemma decimal_value_acc (s : string) (acc : N) :
  decimal_value s acc
  = option_map (λ d, acc * 10 ^ N.of_nat (String.length s) + d)%N (decimal_value s 0).
Proof.
  revert acc. induction s as [|c s IH]; intros acc.
  - simpl. f_equal. lia.
  - simpl decimal_value. destruct (is_digit c); [|done].
    rewrite (IH (10 * acc + (code c - 48))%N), (IH (10 * 0 + (code c - 48))%N).
    destruct (decimal_value s 0) as [d|]; simpl; [|done].
    f_equal. rewrite Nat2N.inj_succ, N.pow_succ_r'. lia.
Qed.

Lemma decimal_value_cons (c : ascii) (s : string) (n : N) :
  decimal_value (String c s) 0 = Some n ↔
  is_digit c = true
  ∧ ∃ d, decimal_value s 0 = Some d
         ∧ n = ((code c - 48) * 10 ^ N.of_nat (String.length s) + d)%N.
Proof.
  simpl decimal_value. destruct (is_digit c); [|split; [done | by intros [? _]]].
  rewrite decimal_value_acc. destruct (decimal_value s 0) as [d|]; simpl.
  - split.
    + intros [= <-]. split; [done|]. exists d. split; [done | lia].
    + intros [_ (d' & [= <-] & ->)]. f_equal; lia.
  - split; [done | by intros [_ (d' & ? & _)]].
Qed.

Lemma decimal_value_bound (s : string) (n : N) :
  decimal_value s 0 = Some n → (n < 10 ^ N.of_nat (String.length s))%N.
Proof.
  revert n. induction s as [|c s IH]; intros n.
  - intros [= <-]. simpl. lia.
  - rewrite decimal_value_cons. intros [Hc (d & Hd & ->)].
    specialize (IH d Hd). cbn [String.length].
    rewrite Nat2N.inj_succ, N.pow_succ_r'.
    unfold is_digit, in_range in Hc. apply andb_true_iff in Hc as [H1 H2].
    apply N.leb_le in H1, H2. nia.
Qed.

Lemma digit_inj (c c' : ascii) :
  is_digit c = true → is_digit c' = true →
  (code c - 48 = code c' - 48)%N → c = c'.
Proof.
  unfold is_digit, in_range. intros H H' Heq.
  apply andb_true_iff in H as [H1 _], H' as [H1' _].
  apply N.leb_le in H1, H1'. apply code_inj. lia.
Qed.

Lemma decimal_value_inj (s s' : string) (n : N) :
  String.length s = String.length s' →
  decimal_value s 0 = Some n → decimal_value s' 0 = Some n → s = s'.
Proof.
  revert s' n. induction s as [|c s IH]; intros [|c' s'] n Hlen; try done.
  rewrite !decimal_value_cons.
  intros [Hc (d & Hd & ->)] [Hc' (d' & Hd' & Heq)].
  injection Hlen as Hlen.
  pose proof (decimal_value_bound _ _ Hd) as Hb.
  pose proof (decimal_value_bound _ _ Hd') as Hb'.
  rewrite <- Hlen in Heq, Hb'.
  set (p := (10 ^ N.of_nat (String.length s))%N) in *.
  assert ((code c - 48 = code c' - 48)%N) as Hdig.
  { rewrite (N.div_unique ((code c - 48) * p + d) p (code c - 48) d) by lia.
    rewrite Heq. symmetry. apply N.div_unique with d'; lia. }
  assert (d = d') as -> by (rewrite Hdig in Heq; lia).
  f_equal; [by apply digit_inj | by eapply IH].
Qed.

Lemma decimal_value_lower (c : ascii) (s : string) (n : N) :
  decimal_value (String c s) 0 = Some n → (code c =? 48)%N = false →
  (10 ^ N.of_nat (String.length s) ≤ n)%N.
Proof.
  rewrite decimal_value_cons. intros [Hc (d & Hd & ->)] Hnz.
  apply N.eqb_neq in Hnz.
  unfold is_digit, in_range in Hc. apply andb_true_iff in Hc as [H1 H2].
  apply N.leb_le in H1, H2. nia.
Qed.

(** What [array_index] accepts: the text [0], or digits that do not
    start with [0]. *)
Lemma array_index_Some (k : string) (n : N) :
  array_index k = Some n →
  decimal_value k 0 = Some n
  ∧ (k = "0" ∨ ∃ c s, k = String c s ∧ (code c =? 48)%N = false).
Proof.
  unfold array_index. destruct k as [|c s]; [done|].
  destruct (is_digit c); [|done].
  destruct (String.eqb (String c s) "0") eqn:E0.
  - apply String.eqb_eq in E0. rewrite E0. intros [= <-]. split; [done | by left].
  - destruct (code c =? 48)%N eqn:Ez; [done|].
    destruct (10 <? String.length (String c s))%nat; [done|].
    destruct (decimal_value (String c s) 0) as [d|]; [|done].
    destruct (d <? 4294967295)%N; [|done].
    intros [= <-]. split; [done|]. right. by exists c, s.
Qed.

Lemma array_index_inj (k k' : string) (n : N) :
  array_index k = Some n → array_index k' = Some n → k = k'.
Proof.
  intros H H'. apply array_index_Some in H as [Hv Hk], H' as [Hv' Hk'].
  assert (∀ c s m, decimal_value (String c s) 0 = Some m → (code c =? 48)%N = false →
                   (10 ^ N.of_nat (String.length s) ≤ m
                    < 10 ^ N.of_nat (String.length (String c s)))%N) as Hrange.
  { intros c s m Hm Hz. split; [by eapply decimal_value_lower|].
    by apply decimal_value_bound. }
  destruct Hk as [->|(c & s & -> & Hz)], Hk' as [->|(c' & s' & -> & Hz')]; [done|..].
  - injection Hv as <-. pose proof (Hrange _ _ _ Hv' Hz') as [Hl _].
    pose proof (N.pow_nonzero 10 (N.of_nat (String.length s'))). lia.
  - injection Hv' as <-. pose proof (Hrange _ _ _ Hv Hz) as [Hl _].
    pose proof (N.pow_nonzero 10 (N.of_nat (String.length s))). lia.
  - destruct (Hrange _ _ _ Hv Hz) as [Hl Hu], (Hrange _ _ _ Hv' Hz') as [Hl' Hu'].
    cbn [String.length] in Hu, Hu'.
    assert (String.length s = String.length s') as Hlen.
    { destruct (Nat.lt_trichotomy (String.length s) (String.length s')) as [Hlt|[?|Hlt]];
        [|done|]; exfalso.
      - assert (10 ^ N.of_nat (S (String.length s)) ≤ 10 ^ N.of_nat (String.length s'))%N
          by (apply N.pow_le_mono_r; lia). lia.
      - assert (10 ^ N.of_nat (S (String.length s')) ≤ 10 ^ N.of_nat (String.length s))%N
          by (apply N.pow_le_mono_r; lia). lia. }
    apply (decimal_value_inj _ _ n); [|done..]. cbn [String.length]. by rewrite Hlen.
Qed.


Abbreviation keys_of ms := (map fst ms) (only parsing).

Lemma ordered_app (l1 l2 : list string) :
  ordered (l1 ++ l2)
  ↔ ordered l1 ∧ ordered l2 ∧ ∀ a b, a ∈ l1 → b ∈ l2 → a ≠ b ∧ key_before a b.
Proof.
  induction l1 as [|k l1 IH]; simpl.
  - split; [|tauto]. intros H. split; [done|]. split; [done|].
    intros a b Ha. inversion Ha.
  - rewrite IH. split.
    + intros (Hk & (H1 & H2 & H12) & Hb).
      rewrite elem_of_app in Hk. split; [|split; [done|]].
      * split; [tauto|]. split; [done|]. intros k' Hk'. apply Hb. rewrite elem_of_app. by left.
      * intros a b Ha Hb'. apply elem_of_cons in Ha as [->|Ha]; [|by apply H12].
        split; [|apply Hb; rewrite elem_of_app; by right]. intros ->. tauto.
    + intros ((Hk & H1 & Hb) & H2 & H12). split; [|split; [split; [done|split; [done|]]|]].
      * rewrite elem_of_app. intros [?|Hin]; [done|].
        by destruct (H12 k k (list_elem_of_here _ _) Hin).
      * intros a b Ha Hb'. apply H12; [by right | done].
      * intros k' Hk'. apply elem_of_app in Hk' as [?|Hk']; [by apply Hb|].
        by apply H12; [left|].
Qed.

Lemma has_key_false (k : string) (ms : list (string * JSON)) :
  has_key k ms = false ↔ k ∉ keys_of ms.
Proof.
  induction ms as [|[k' v'] ms IH]; simpl.
  - split; [intros _ H; inversion H | done].
  - rewrite orb_false_iff, IH, not_elem_of_cons, String.eqb_neq. tauto.
Qed.

Lemma keys_replace_key (k : string) (v : JSON) (ms : list (string * JSON)) :
  keys_of (replace_key k v ms) = keys_of ms.
Proof.
  induction ms as [|[k' v'] ms IH]; simpl; [done|].
  destruct (String.eqb k k'); simpl; [done | by rewrite IH].
Qed.

Lemma insert_index_last (n : N) (k : string) (v : JSON) (ms : list (string * JSON)) :
  array_index k = Some n →
  (∀ k0, k0 ∈ keys_of ms → key_before k0 k) →
  insert_index n k v ms = (ms ++ [(k, v)])%list.
Proof.
  intros Hk. induction ms as [|[k' v'] ms IH]; simpl; intros H; [done|].
  pose proof (H k' (list_elem_of_here _ _)) as Hb. unfold key_before in Hb.
  rewrite Hk in Hb. destruct (array_index k') as [n'|]; [|done].
  apply N.ltb_lt in Hb. rewrite Hb. f_equal. apply IH.
  intros k0 Hk0. apply H. by right.
Qed.

Lemma obj_set_last (k : string) (v : JSON) (ms : list (string * JSON)) :
  k ∉ keys_of ms →
  (∀ k0, k0 ∈ keys_of ms → key_before k0 k) →
  obj_set k v ms = (ms ++ [(k, v)])%list.
Proof.
  intros Hfresh Hb. unfold obj_set.
  apply has_key_false in Hfresh. rewrite Hfresh.
  destruct (array_index k) as [n|] eqn:Hk; [|done].
  by apply insert_index_last.
Qed.

Lemma ordered_fold (ms acc : list (string * JSON)) :
  ordered (keys_of (acc ++ ms)) →
  fold_left (λ acc m, obj_set (fst m) (snd m) acc) ms acc = (acc ++ ms)%list.
Proof.
  revert acc. induction ms as [|[k v] ms IH]; intros acc H; simpl.
  - by rewrite app_nil_r.
  - assert (obj_set k v acc = acc ++ [(k, v)])%list as ->.
    { rewrite map_app in H. apply ordered_app in H as (_ & _ & H).
      apply obj_set_last.
      - intros Hin. by destruct (H k k Hin (list_elem_of_here _ _)).
      - intros k0 Hk0. by apply H; [|left]. }
    rewrite IH; rewrite <- app_assoc; done.
Qed.

Lemma ordered_canonical (ms : list (string * JSON)) :
  ordered (keys_of ms) →
  fold_left (λ acc m, obj_set (fst m) (snd m) acc) ms [] = ms.
Proof. intros H. by apply (ordered_fold ms []). Qed.

Lemma keys_insert_index (n : N) (k : string) (v : JSON) (ms : list (string * JSON)) (x : string) :
  x ∈ keys_of (insert_index n k v ms) ↔ x = k ∨ x ∈ keys_of ms.
Proof.
  induction ms as [|[k' v'] ms IH]; simpl.
  - rewrite list_elem_of_singleton, elem_of_nil. tauto.
  - destruct (array_index k') as [n'|]; [destruct (n' <? n)%N|]; simpl;
      rewrite ?elem_of_cons, ?IH; simpl; tauto.
Qed.

Lemma ordered_insert_index (n : N) (k : string) (v : JSON) (ms : list (string * JSON)) :
  array_index k = Some n → k ∉ keys_of ms → ordered (keys_of ms) →
  ordered (keys_of (insert_index n k v ms)).
Proof.
  intros Hk. induction ms as [|[k' v'] ms IH]; simpl; intros Hfresh Hord.
  - split; [by intros H; inversion H|]. split; [done|]. intros ? H; inversion H.
  - apply not_elem_of_cons in Hfresh as [Hne Hfresh].
    destruct Hord as (Hk' & Hord & Hb).
    assert (∀ k'', k'' ∈ keys_of ms → array_index k' = None → key_before k k'') as Hnone.
    { intros k'' Hin Hn. specialize (Hb k'' Hin). unfold key_before in *.
      rewrite Hn in Hb. rewrite Hk. by destruct (array_index k''). }
    destruct (array_index k') as [n'|] eqn:Hk'n.
    + destruct (n' <? n)%N eqn:Hlt; simpl.
      * apply N.ltb_lt in Hlt. split; [|split; [by apply IH|]].
        -- rewrite keys_insert_index. intros [?|?]; done.
        -- intros k'' Hin. apply keys_insert_index in Hin as [->|Hin]; [|by apply Hb].
           unfold key_before. by rewrite Hk'n, Hk.
      * apply N.ltb_ge in Hlt.
        assert (n < n')%N as Hlt'.
        { destruct (decide (n = n')) as [->|?]; [|lia].
          by destruct Hne; apply (array_index_inj _ _ n'). }
        split; [by apply not_elem_of_cons|]. split; [done|].
        intros k'' Hin. apply elem_of_cons in Hin as [->|Hin].
        -- unfold key_before. by rewrite Hk, Hk'n.
        -- specialize (Hb k'' Hin). unfold key_before in *. rewrite Hk'n in Hb.
           rewrite Hk. destruct (array_index k''); [lia | done].
    + simpl. split; [by apply not_elem_of_cons|]. split; [done|].
      intros k'' Hin. apply elem_of_cons in Hin as [->|Hin].
      * unfold key_before. by rewrite Hk, Hk'n.
      * by apply Hnone.
Qed.

Lemma ordered_obj_set (k : string) (v : JSON) (ms : list (string * JSON)) :
  ordered (keys_of ms) → ordered (keys_of (obj_set k v ms)).
Proof.
  intros Hord. unfold obj_set. destruct (has_key k ms) eqn:Hhas.
  - by rewrite keys_replace_key.
  - apply has_key_false in Hhas.
    destruct (array_index k) as [n|] eqn:Hk; [by apply ordered_insert_index|].
    rewrite map_app. apply ordered_app. split; [done|]. split.
    + simpl. split; [by intros H; inversion H|]. split; [done|]. intros ? H; inversion H.
    + intros a b Ha Hb. simpl in Hb. apply list_elem_of_singleton in Hb as ->.
      split; [by intros ->|]. unfold key_before. rewrite Hk. by destruct (array_index a).
Qed.


Lemma stringify_array (ind : nat) (e : JSON) (es : list JSON) (rest : string) :
  stringify_at ind (JArray (e :: es)) +:+ rest
  = String "["%char
      (newline +:+ indent (ind + 2)
       +:+ joined ("," +:+ newline +:+ indent (ind + 2))
             (map (stringify_at (ind + 2)) (e :: es))
             (newline +:+ indent ind +:+ "]" +:+ rest)).
Proof.
  change (stringify_at ind (JArray (e :: es)))
    with ("[" +:+ newline +:+ indent (ind + 2)
          +:+ join ("," +:+ newline +:+ indent (ind + 2))
                (map (stringify_at (ind + 2)) (e :: es))
          +:+ newline +:+ indent ind +:+ "]").
  rewrite !append_assoc', append_cons, append_nil_l.
  by rewrite <- join_joined by done.
Qed.

Lemma stringify_object (ind : nat) (kv : string * JSON) (ms : list (string * JSON))
    (rest : string) :
  stringify_at ind (JObject (kv :: ms)) +:+ rest
  = String "{"%char
      (newline +:+ indent (ind + 2)
       +:+ joined ("," +:+ newline +:+ indent (ind + 2))
             (map (λ m, quote (fst m) +:+ ": " +:+ stringify_at (ind + 2) (snd m))
                  (kv :: ms))
             (newline +:+ indent ind +:+ "}" +:+ rest)).
Proof.
  change (stringify_at ind (JObject (kv :: ms)))
    with ("{" +:+ newline +:+ indent (ind + 2)
          +:+ join ("," +:+ newline +:+ indent (ind + 2))
                (map (λ m, quote (fst m) +:+ ": " +:+ stringify_at (ind + 2) (snd m))
                     (kv :: ms))
          +:+ newline +:+ indent ind +:+ "}").
  rewrite !append_assoc', append_cons, append_nil_l.
  by rewrite <- join_joined by done.
Qed.

Lemma all_and {A} (P Q : A → Prop) (l : list A) :
  fold_right (λ x R, (P x → Q x) ∧ R) True l →
  fold_right (λ x R, P x ∧ R) True l →
  fold_right (λ x R, Q x ∧ R) True l.
Proof.
  induction l as [|x l IH]; simpl; [done|].
  intros [Hx Hl] [Px Pl]. split; [by apply Hx | by apply IH].
Qed.

(** Reading the text of a well-formed value gives the value back,
    wherever a value may stand. *)
Lemma well_formed_roundtrips (v : JSON) : well_formed v → roundtrips v.
Proof.
  induction v as [|b|lexeme|s|elems IH|members IH] using JSON_nested_ind;
    intros Hwf ind m stack rest Hm Hrest.
  - apply (roundtrip_literal JNull); auto.
  - destruct b; [apply (roundtrip_literal (JBool true))
                | apply (roundtrip_literal (JBool false))]; auto.
  - apply roundtrip_number; auto. by apply Hrest.
  - by apply roundtrip_string.
  - destruct elems as [|e es].
    + simpl stringify_at. text_norm.
      rewrite (feed_cons _ (MArrayStart, FArray [] :: stack))
        by (by rewrite step_value_mode).
      rewrite feed_step. simpl. by destruct (deliver _ stack).
    + rewrite stringify_array.
      rewrite (feed_cons _ (MArrayStart, FArray [] :: stack))
        by (by rewrite step_value_mode).
      set (J := joined _ _ _). skip_ws. subst J.
      by rewrite roundtrip_elements
        by (done || (by right) || by apply (all_and well_formed)).
  - destruct Hwf as [Hcanon Hwf]. destruct members as [|kv ms].
    + simpl stringify_at. text_norm.
      rewrite (feed_cons _ (MObjectStart, FObject [] None :: stack))
        by (by rewrite step_value_mode).
      rewrite feed_step. simpl. by destruct (deliver _ stack).
    + rewrite stringify_object.
      rewrite (feed_cons _ (MObjectStart, FObject [] None :: stack))
        by (by rewrite step_value_mode).
      set (J := joined _ _ _). skip_ws. subst J.
      rewrite roundtrip_members
        by (done || (by left)
            || by apply (all_and (λ m, well_formed (snd m)) (λ m, roundtrips (snd m)))).
      by rewrite (ordered_canonical _ Hcanon).
Qed.

(** [JSON.parse(JSON.stringify(v, null, 2))] is [v]. *)
Lemma parse_stringify (v : JSON) : well_formed v → parse (stringify v) = Ok v.
Proof.
  intros Hwf. unfold parse, stringify.
  destruct v as [|b|lexeme|s|elems|members].
  2-6: idtac.
  all: try (rewrite <- (append_nil_r (stringify_at 0 _));
            rewrite (well_formed_roundtrips _ Hwf) by (by left || by intros []);
            done).
  simpl stringify_at. simpl in Hwf.
  destruct lexeme as [|c s]; [done|]. simpl in Hwf.
  destruct (num_start c) as [ns|] eqn:Hstart; [|done].
  destruct (num_run ns s) as [ns'|] eqn:Hrun; [|done].
  destruct (start_value_number c ns [] Hstart) as (Hsv & Hws & Hc).
  rewrite (feed_cons _ (MNumber ns (String c ""), []))
    by (rewrite step_value_mode; [done | by left | done..]).
  rewrite (feed_number _ _ _ _ _ Hrun). simpl. rewrite Hwf.
  rewrite string_rev_onto_app. simpl. by rewrite append_nil_r.
Qed.


(** ** [JSON.parse] returns well-formed values *)

Lemma all_Forall {A} (P : A → Prop) (l : list A) :
  fold_right (λ x R, P x ∧ R) True l ↔ Forall P l.
Proof.
  induction l as [|x l IH]; simpl; [by split|].
  rewrite IH, Forall_cons. done.
Qed.

Lemma Forall_replace_key (P : string * JSON → Prop) k v ms :
  (∀ k', P (k', v)) → Forall P ms → Forall P (replace_key k v ms).
Proof.
  intros Hv. induction ms as [|[k' v'] ms IH]; simpl; [done|].
  intros H. apply Forall_cons in H as [H1 H2].
  destruct (String.eqb k k'); constructor; auto.
Qed.

Lemma Forall_insert_index (P : string * JSON → Prop) n k v ms :
  P (k, v) → Forall P ms → Forall P (insert_index n k v ms).
Proof.
  intros Hv. induction ms as [|[k' v'] ms IH]; simpl; [by constructor|].
  intros H. pose proof H as H'. apply Forall_cons in H as [H1 H2].
  destruct (array_index k') as [n'|]; [destruct (n' <? n)%N|].
  - constructor; auto.
  - by constructor.
  - by constructor.
Qed.

Lemma frame_ok_obj_set k v ms key :
  well_formed v → frame_ok (FObject ms key) → frame_ok (FObject (obj_set k v ms) None).
Proof.
  intros Hv [Hord Hall]. split; [by apply ordered_obj_set|].
  unfold obj_set. destruct (has_key k ms).
  - by apply Forall_replace_key.
  - destruct (array_index k).
    + by apply Forall_insert_index.
    + apply Forall_app. split; [done | by constructor].
Qed.

Lemma deliver_ok (v : JSON) (stack : list Frame) (st : PState) :
  well_formed v → Forall frame_ok stack → deliver v stack = Some st → state_ok st.
Proof.
  intros Hv Hstack. destruct stack as [|[acc|ms [k|]] stack]; simpl; try done.
  - intros [= <-]. by split.
  - intros [= <-]. apply Forall_cons in Hstack as [Hf Hstack].
    split; [done|]. apply Forall_cons. split; [|done]. by apply Forall_cons.
  - intros [= <-]. apply Forall_cons in Hstack as [Hf Hstack].
    split; [done|]. apply Forall_cons. split; [|done]. by eapply frame_ok_obj_set.
Qed.

Lemma num_run_app (s t : string) (ns : NumState) :
  num_run ns (s +:+ t)
  = match num_run ns s with Some ns' => num_run ns' t | None => None end.
Proof.
  revert ns. induction s as [|c s IH]; intros ns; [done|].
  rewrite append_cons. simpl. destruct (num_step ns c); [apply IH | done].
Qed.

Lemma string_rev_onto_acc (s acc : string) :
  string_rev_onto s acc = string_rev_onto s "" +:+ acc.
Proof.
  revert acc. induction s as [|c s IH]; intros acc; simpl; [done|].
  rewrite (IH (String c acc)), (IH (String c "")).
  by rewrite append_assoc'.
Qed.

Lemma number_prefix_step ns ns' rev_lexeme c :
  number_prefix ns rev_lexeme → num_step ns c = Some ns' →
  number_prefix ns' (String c rev_lexeme).
Proof.
  intros (c0 & s & ns0 & Hrev & Hstart & Hrun) Hstep.
  exists c0, (s +:+ String c ""), ns0. split; [|split; [done|]].
  - simpl. by rewrite string_rev_onto_acc, Hrev.
  - rewrite num_run_app, Hrun. simpl. by rewrite Hstep.
Qed.

Lemma number_prefix_ok ns rev_lexeme :
  number_prefix ns rev_lexeme → num_accepting ns = true →
  well_formed (JNumber (string_rev_onto rev_lexeme "")).
Proof.
  intros (c0 & s & ns0 & -> & Hstart & Hrun) Hacc. simpl.
  by rewrite Hstart, Hrun.
Qed.

Lemma start_value_ok (c : ascii) (stack : list Frame) (st : PState) :
  Forall frame_ok stack → start_value c stack = Some st → state_ok st.
Proof.
  intros Hstack. unfold start_value.
  assert (∀ ns, num_start c = Some ns →
                state_ok (MNumber ns (String c ""), stack)) as Hnum.
  { intros ns Hns. split; [|done]. by exists c, "", ns. }
  unfold num_start in Hnum.
  destruct (code c =? 123)%N.
  { intros [= <-]. split; [done|]. apply Forall_cons. split; [|done]. by split. }
  destruct (code c =? 91)%N.
  { intros [= <-]. split; [done|]. apply Forall_cons. split; [|done]. constructor. }
  destruct (code c =? 34)%N; [by intros [= <-]|].
  destruct (code c =? 45)%N; [intros [= <-]; by apply Hnum|].
  destruct (code c =? 48)%N; [intros [= <-]; by apply Hnum|].
  destruct (in_range 49 57 c); [intros [= <-]; by apply Hnum|].
  destruct (code c =? 116)%N; [by intros [= <-]|].
  destruct (code c =? 102)%N; [by intros [= <-]|].
  destruct (code c =? 110)%N; [by intros [= <-]|].
  done.
Qed.

Lemma after_value_ok (st st' : PState) (c : ascii) :
  state_ok st → after_value st c = Some st' → state_ok st'.
Proof.
  intros Hst. pose proof Hst as [Hm Hstack]. destruct st as [m stack].
  simpl in Hm, Hstack. unfold after_value.
  destruct m; try done.
  - destruct stack as [|[acc|ms [k|]] stack]; try done.
    + apply Forall_cons in Hstack as [Hf Hstack].
      destruct (is_ws c); [by intros [= <-]|].
      destruct (code c =? 44)%N.
      { intros [= <-]. split; [done|]. by apply Forall_cons. }
      destruct (code c =? 93)%N; [|done].
      apply deliver_ok; [|done]. simpl. apply all_Forall. by apply Forall_rev.
    + apply Forall_cons in Hstack as [Hf Hstack].
      destruct (is_ws c); [by intros [= <-]|].
      destruct (code c =? 44)%N.
      { intros [= <-]. split; [done|]. by apply Forall_cons. }
      destruct (code c =? 125)%N; [|done].
      apply deliver_ok; [|done]. destruct Hf as [Hord Hall].
      split; [done|]. by apply all_Forall.
  - destruct (is_ws c); [|done]. by intros [= <-].
Qed.

Lemma end_string_ok (key : bool) (s : string) (stack : list Frame) (st : PState) :
  Forall frame_ok stack → end_string key s stack = Some st → state_ok st.
Proof.
  intros Hstack. unfold end_string. destruct key; [|by apply deliver_ok].
  destruct stack as [|[acc|ms [k|]] stack]; try done.
  intros [= <-]. apply Forall_cons in Hstack as [Hf Hstack].
  split; [done|]. by apply Forall_cons.
Qed.

Lemma step_ok (st st' : PState) (c : ascii) :
  state_ok st → step st c = Some st' → state_ok st'.
Proof.
  intros Hst. pose proof Hst as [Hm Hstack]. destruct st as [m stack].
  simpl in Hm, Hstack. unfold step.
  destruct m as [| | | | | |v|key items|key items|key items digits|ns rev_lexeme|rest v].
  - destruct (is_ws c); [by intros [= <-] | by apply start_value_ok].
  - destruct (is_ws c); [by intros [= <-]|].
    destruct (code c =? 93)%N; [|by apply start_value_ok].
    destruct stack as [|[acc|ms k] stack]; try done.
    apply Forall_cons in Hstack as [_ Hstack]. by apply deliver_ok.
  - destruct (is_ws c); [by intros [= <-]|].
    destruct (code c =? 125)%N.
    { destruct stack as [|[acc|ms k] stack]; try done.
      apply Forall_cons in Hstack as [_ Hstack]. by apply deliver_ok. }
    destruct (code c =? 34)%N; [by intros [= <-] | done].
  - destruct (is_ws c); [by intros [= <-]|].
    destruct (code c =? 34)%N; [by intros [= <-] | done].
  - destruct (is_ws c); [by intros [= <-]|].
    destruct (code c =? 58)%N; [by intros [= <-] | done].
  - by apply after_value_ok.
  - by apply after_value_ok.
  - destruct (code c =? 34)%N; [by apply end_string_ok|].
    destruct (code c =? 92)%N; [by intros [= <-]|].
    destruct (code c <? 32)%N; [done | by intros [= <-]].
  - repeat (destruct (_ =? _)%N; [by intros [= <-]|]). done.
  - destruct (hex_value c); [|done].
    destruct digits as [|? [|? [|? [|]]]]; by intros [= <-].
  - destruct (num_step ns c) as [ns'|] eqn:Hstep.
    { intros [= <-]. split; [|done]. simpl. by eapply number_prefix_step. }
    destruct (num_accepting ns) eqn:Hacc; [|done].
    destruct (deliver _ stack) as [st1|] eqn:Hd; [|done].
    apply after_value_ok. eapply deliver_ok; [|done..].
    by eapply number_prefix_ok.
  - destruct rest as [|c' rest']; [done|].
    destruct (code c =? code c')%N; [|done].
    destruct rest'; [by apply deliver_ok | by intros [= <-]].
Qed.

Lemma feed_ok (text : string) (st st' : PState) :
  state_ok st → feed st text = Some st' → state_ok st'.
Proof.
  revert st. induction text as [|c text IH]; intros st Hst; simpl.
  - by intros [= <-].
  - destruct (step st c) as [st1|] eqn:Hstep; [|done].
    apply IH. by eapply step_ok.
Qed.

Lemma parse_well_formed (text : string) (v : JSON) :
  parse text = Ok v → well_formed v.
Proof.
  unfold parse. destruct (feed (MValue, []) text) as [st|] eqn:Hfeed; [|done].
  assert (state_ok st) as [Hm Hstack] by (eapply feed_ok; [|done]; by split).
  destruct (finish st) as [v'|] eqn:Hfin; [|done]. intros [= <-].
  unfold finish in Hfin. destruct st as [m stack]. simpl in Hm.
  destruct m; try done; destruct stack; try done.
  - by injection Hfin as <-.
  - destruct (num_accepting ns) eqn:Hacc; [|done]. injection Hfin as <-.
    by eapply number_prefix_ok.
Qed.

(** *** Reopening the store *)

Lemma set_fresh {V} (k : string) (v : V) (m : list (string * V)) :
  k ∉ Map.keys m → Map.set k v m = (m ++ [(k, v)])%list.
Proof.
  induction m as [|[k' v'] m IH]; simpl; [done|].
  intros Hk. apply not_elem_of_cons in Hk as [Hne Hk].
  destruct (String.eqb_spec k k') as [->|_]; [done|].
  by rewrite IH.
Qed.

Lemma Forall_set {V} (P : string * V → Prop) (k : string) (v : V) (m : list (string * V)) :
  P (k, v) → Forall P m → Forall P (Map.set k v m).
Proof.
  intros Hkv. induction 1 as [|[k' v'] m Hx Hm IH]; simpl.
  - by apply Forall_cons.
  - destruct (String.eqb_spec k k') as [->|_]; apply Forall_cons; by split.
Qed.

Lemma Forall_delete {V} (P : string * V → Prop) (k : string) (m : list (string * V)) :
  Forall P m → Forall P (Map.delete k m).2.
Proof.
  simpl. induction 1 as [|x m Hx Hm IH]; simpl; [done|].
  destruct (negb _); [by apply Forall_cons | done].
Qed.

Lemma load_values (m acc : list (string * JSON)) :
  (∀ k, k ∈ Map.keys m → k ∉ Map.keys acc) → store_ok m →
  fold_left AccountStorage.load_entry (Map.values m) acc = (acc ++ m)%list.
Proof.
  revert acc. induction m as [|[k v] m IH]; intros acc Hacc [Hnd Hall]; simpl.
  - by rewrite app_nil_r.
  - apply Forall_cons in Hall as [(Hvalid & Hemail & _) Hall].
    simpl in Hnd. apply NoDup_cons in Hnd as [Hk Hnd]. simpl in Hvalid, Hemail.
    unfold AccountStorage.load_entry at 2. rewrite Hvalid, Hemail.
    rewrite set_fresh by (apply Hacc; simpl; left).
    rewrite IH; [by rewrite <- app_assoc| |done].
    intros k' Hk'. unfold Map.keys. rewrite map_app. simpl.
    rewrite elem_of_app, list_elem_of_singleton.
    intros [Hin| ->]; [|done].
    eapply Hacc; [|done]. simpl. by right.
Qed.

Lemma well_formed_elems (elems : list JSON) :
  well_formed (JArray elems) ↔ Forall well_formed elems.
Proof. simpl. apply all_Forall. Qed.

Lemma load_entries_ok (elems : list JSON) (m : list (string * JSON)) :
  Forall well_formed elems → store_ok m →
  store_ok (fold_left AccountStorage.load_entry elems m).
Proof.
  intros Helems. revert m. induction Helems as [|a elems Ha _ IH]; intros m Hm; [done|].
  simpl. apply IH. unfold AccountStorage.load_entry.
  destruct (AccountStorage.isValidAccount (Some a)) eqn:Hvalid; [|done].
  destruct Hm as [Hnd Hall]. split; [by apply set_NoDup | by apply Forall_set].
Qed.

Lemma stored_accounts_ok (fs : FileSystem) (path : string) :
  store_ok (stored_accounts fs path).
Proof.
  assert (store_ok []) as Hnil by (split; [constructor | done]).
  unfold stored_accounts.
  destruct (nodes fs !! path) as [[text|]|]; [|done..].
  destruct (parse text) as [[| | | |elems|]|] eqn:Hparse; try done.
  apply load_entries_ok; [|done].
  apply well_formed_elems. by apply parse_well_formed in Hparse.
Qed.

Lemma ordered_names (keys : list string) :
  NoDup keys → Forall (λ k, array_index k = None) keys → ordered keys.
Proof.
  induction 1 as [|k keys Hk _ IH]; [done|].
  intros Hnames. apply Forall_cons in Hnames as [_ Hnames].
  split; [done|]. split; [by apply IH|].
  intros k' Hin. rewrite Forall_forall in Hnames. unfold key_before.
  rewrite (Hnames k' Hin). by destruct (array_index k).
Qed.

Lemma well_formed_object (members : list (string * JSON)) :
  NoDup (map fst members) →
  Forall (λ m, array_index m.1 = None) members →
  Forall (λ m, well_formed m.2) members →
  well_formed (JObject members).
Proof.
  intros Hnd Hnames Hall. split; [|by apply all_Forall].
  apply ordered_names; [done|]. by apply Forall_map.
Qed.

Lemma Account_object_ok (account : Account) :
  record_ok (email account, Account_object account).
Proof.
  split; [done|]. split; [done|].
  destruct account as [e [c s r [t|]]];
    (apply well_formed_object; [compute_done | compute_done |]);
    (apply Forall_cons; split; [done|]); (apply Forall_cons; split; [|done]);
    (apply well_formed_object; [compute_done | compute_done |]);
    by repeat (apply Forall_cons; split; [done|]).
Qed.

Lemma append_inj_r (p a b : string) : p +:+ a = p +:+ b → a = b.
Proof. induction p as [|c p IH]; [done|]. intros [= H]. by apply IH. Qed.

Lemma accounts_file_ne_credentials_file (dir : string) :
  path_join dir "accounts.json" ≠ path_join dir "credentials.json".
Proof. unfold path_join. intros H. by apply append_inj_r in H. Qed.

Lemma parse_stringify_values (m : list (string * JSON)) :
  store_ok m →
  parse (stringify (JArray (Map.values m))) = Ok (JArray (Map.values m)).
Proof.
  intros [_ Hall]. apply parse_stringify. apply well_formed_elems.
  unfold Map.values. apply Forall_map. eapply Forall_impl; [done|].
  by intros kv (_ & _ & H).
Qed.

Lemma stored_accounts_saved (this : AccountStorage.t) (fs : FileSystem) :
  store_ok (AccountStorage.accounts this) →
  stored_accounts (AccountStorage.saveAccounts this fs) (AccountStorage.accountsFile this)
  = AccountStorage.accounts this.
Proof.
  intros Hok. unfold stored_accounts, AccountStorage.saveAccounts, writeFileSync. simpl.
  rewrite lookup_insert_eq, parse_stringify_values by done.
  rewrite load_values; [done| |done].
  intros k _. apply not_elem_of_nil.
Qed.

Lemma existsSync_writeFileSync (fs : FileSystem) (path path' content : string) :
  existsSync fs path = true → existsSync (writeFileSync path' content fs) path = true.
Proof.
  unfold existsSync, writeFileSync. simpl. rewrite !bool_decide_eq_true.
  intros H. destruct (decide (path' = path)) as [->|Hne].
  - by rewrite lookup_insert_eq.
  - by rewrite lookup_insert_ne.
Qed.

Lemma new_in_step (homedir : string) (dir : option string) (fs : FileSystem) :
  ∃ s, AccountStorage.new homedir dir fs = Ok s ∧ in_step homedir dir s.
Proof.
  unfold AccountStorage.new. rewrite loadAccounts_cases. simpl.
  set (configDir := default (path_join homedir ".gtcli") dir).
  set (this0 := {| AccountStorage.accounts := [];
                   AccountStorage.configDir := configDir;
                   AccountStorage.accountsFile := path_join configDir "accounts.json";
                   AccountStorage.credentialsFile := path_join configDir "credentials.json" |}).
  set (fs1 := AccountStorage.ensureConfigDir this0 fs).
  eexists. split; [reflexivity|].
  assert (existsSync fs1 configDir = true) as Hdir.
  { subst fs1. unfold AccountStorage.ensureConfigDir. simpl.
    destruct (existsSync fs configDir) eqn:H; simpl; [done|].
    unfold existsSync, mkdirSync. simpl. rewrite lookup_insert_eq.
    by apply bool_decide_eq_true. }
  pose proof (stored_accounts_ok fs1 (path_join configDir "accounts.json")) as Hok.
  assert (∀ this, in_step homedir dir (this, fs1)
                  ↔ AccountStorage.configDir this = configDir
                    ∧ AccountStorage.accountsFile this = path_join configDir "accounts.json"
                    ∧ AccountStorage.credentialsFile this
                      = path_join configDir "credentials.json"
                    ∧ stored_accounts fs1 (path_join configDir "accounts.json")
                      = AccountStorage.accounts this) as Hstep.
  { intros this. unfold in_step. simpl. fold configDir. split.
    - intros (? & Hfile & ? & ? & ? & H). by rewrite Hfile in H.
    - intros (? & Hfile & ? & H). rewrite Hfile, <- H. done. }
  apply Hstep. unfold stored_accounts.
  destruct (nodes fs1 !! path_join configDir "accounts.json") as [[text|]|]; [|done..].
  destruct (parse text) as [[| | | |elems|]|]; done.
Qed.

Lemma call_in_step (homedir : string) (dir : option string)
    (s : AccountStorage.t * FileSystem) (c : Call) :
  in_step homedir dir s → in_step homedir dir (call s c).
Proof.
  destruct s as [this fs]. unfold in_step. simpl.
  set (configDir := default (path_join homedir ".gtcli") dir).
  intros (Hdir & Hfile & Hcred & Hexists & Hok & Hstored).
  destruct c as [account|email|clientId clientSecret]; simpl.
  - set (this' := AccountStorage.with_accounts this _).
    assert (store_ok (AccountStorage.accounts this')) as Hok'.
    { destruct Hok as [Hnd Hall]. split; [by apply set_NoDup|].
      apply Forall_set; [apply Account_object_ok | done]. }
    repeat split; try done; try apply Hok'.
    + by apply existsSync_writeFileSync.
    + by apply (stored_accounts_saved this').
  - unfold AccountStorage.deleteAccount.
    destruct (Map.delete email (AccountStorage.accounts this)) as [deleted m] eqn:Hdel.
    assert (m = (Map.delete email (AccountStorage.accounts this)).2) as Hm
      by by rewrite Hdel.
    set (this' := AccountStorage.with_accounts this m).
    assert (store_ok (AccountStorage.accounts this')) as Hok'.
    { destruct Hok as [Hnd Hall]. simpl. rewrite Hm.
      split; [by apply delete_NoDup | by apply Forall_delete]. }
    destruct deleted; simpl.
    + repeat split; try done; try apply Hok'.
      * by apply existsSync_writeFileSync.
      * by apply (stored_accounts_saved this').
    + repeat split; try done; try apply Hok'.
      rewrite Hstored, Hm. symmetry. apply delete_absent.
      apply has_false_get. rewrite <- fst_delete. by rewrite Hdel.
  - repeat split; try done; try apply Hok.
    + by apply existsSync_writeFileSync.
    + rewrite <- Hstored. unfold stored_accounts, AccountStorage.setCredentials.
      simpl. rewrite lookup_insert_ne; [done|].
      rewrite Hfile, Hcred. apply not_eq_sym, accounts_file_ne_credentials_file.
Qed.

Lemma calls_in_step (homedir : string) (dir : option string)
    (cs : list Call) (s : AccountStorage.t * FileSystem) :
  in_step homedir dir s → in_step homedir dir (calls cs s).
Proof.
  revert s. induction cs as [|c cs IH]; intros s Hs; [done|].
  simpl. apply IH. by apply call_in_step.
Qed.

Lemma new_of_in_step (homedir : string) (dir : option string)
    (s : AccountStorage.t * FileSystem) :
  in_step homedir dir s → AccountStorage.new homedir dir s.2 = Ok s.
Proof.
  destruct s as [this fs]. unfold in_step. simpl.
  set (configDir := default (path_join homedir ".gtcli") dir).
  intros (Hdir & Hfile & Hcred & Hexists & Hok & Hstored).
  unfold AccountStorage.new. fold configDir. rewrite loadAccounts_cases.
  unfold AccountStorage.ensureConfigDir. simpl. rewrite Hexists. simpl.
  f_equal. f_equal.
  rewrite Hfile in Hstored. unfold stored_accounts in Hstored.
  destruct this as [m d a c]. simpl in *. subst d a c.
  destruct (nodes fs !! path_join configDir "accounts.json") as [[text|]|];
    [|by rewrite <- Hstored..].
  destruct (parse text) as [[| | | |elems|]|]; unfold AccountStorage.with_accounts;
    simpl; by rewrite <- Hstored.
Qed.

(** X1: a store opened on the directory of a store that has served any
    sequence of calls holds the same collection, in the same order.
    The model keeps the literal of a number where JavaScript keeps its
    value, so the statement is made for stores whose loaded records
    write their numbers as JavaScript prints them. *)
Theorem reopening_restores_the_store
    (homedir : string) (dir : option string) (fs : FileSystem) (cs : list Call)
    (this : AccountStorage.t) (fs1 : FileSystem) :
  AccountStorage.new homedir dir fs = Ok (this, fs1) →
  forallb plain_numbers (AccountStorage.getAllAccounts this) = true →
  AccountStorage.new homedir dir (calls cs (this, fs1)).2 = Ok (calls cs (this, fs1)).
Proof.
  intros Hnew _. apply new_of_in_step, calls_in_step.
  destruct (new_in_step homedir dir fs) as (s & Hs & Hstep).
  rewrite Hnew in Hs. by injection Hs as <-.
Qed.

(** *** The records of a store in use *)

Lemma new_calls_in_step (homedir : string) (dir : option string) (fs : FileSystem)
    (cs : list Call) (this : AccountStorage.t) (fs1 : FileSystem) :
  AccountStorage.new homedir dir fs = Ok (this, fs1) →
  in_step homedir dir (calls cs (this, fs1)).
Proof.
  intros Hnew. apply calls_in_step.
  destruct (new_in_step homedir dir fs) as (s & Hs & Hstep).
  rewrite Hnew in Hs. by injection Hs as <-.
Qed.

Lemma get_record_ok (m : list (string * JSON)) (e : string) (v : JSON) :
  Forall record_ok m → Map.get e m = Some v → record_ok (e, v).
Proof.
  induction 1 as [|[k x] m Hx Hm IH]; simpl; [done|].
  destruct (String.eqb_spec e k) as [->|_]; [by intros [= <-] | done].
Qed.

Lemma get_of_entry {V} (m : list (string * V)) (k : string) (v : V) :
  NoDup (Map.keys m) → (k, v) ∈ m → Map.get k m = Some v.
Proof.
  induction m as [|[k' v'] m IH]; simpl; intros Hnd Hin; [by apply elem_of_nil in Hin|].
  apply NoDup_cons in Hnd as [Hk Hnd].
  apply elem_of_cons in Hin as [[= <- <-]|Hin]; [by rewrite String.eqb_refl|].
  destruct (String.eqb_spec k k') as [->|_]; [|by apply IH].
  exfalso. apply Hk. unfold Map.keys in *. apply list_elem_of_fmap. by exists (k', v).
Qed.

Lemma emails_of_values (m : list (string * JSON)) :
  Forall record_ok m →
  map (λ v, string_prop v "email") (Map.values m) = Map.keys m.
Proof.
  induction 1 as [|[k v] m (_ & Hemail & _) Hm IH]; simpl; [done|].
  simpl in Hemail. by rewrite Hemail, IH.
Qed.

(** X2: at any moment of the life of a store, the collection holds no
    two records of one email, the record found under an email is a valid
    record of that email, and every record of the collection is the one
    found under its email. *)
Theorem records_stand_under_their_own_email
    (homedir : string) (dir : option string) (fs : FileSystem) (cs : list Call)
    (this : AccountStorage.t) (fs1 : FileSystem) :
  AccountStorage.new homedir dir fs = Ok (this, fs1) →
  let this' := (calls cs (this, fs1)).1 in
  NoDup (map (λ v, string_prop v "email") (AccountStorage.getAllAccounts this'))
  ∧ (∀ email v,
       AccountStorage.getAccount email this' = Some v →
       AccountStorage.isValidAccount (Some v) = true ∧ string_prop v "email" = email)
  ∧ (∀ v,
       v ∈ AccountStorage.getAllAccounts this' →
       AccountStorage.getAccount (string_prop v "email") this' = Some v).
Proof.
  intros Hnew this'.
  destruct (new_calls_in_step homedir dir fs cs this fs1 Hnew)
    as (_ & _ & _ & _ & [Hnd Hall] & _).
  fold this' in Hnd, Hall.
  unfold AccountStorage.getAllAccounts, AccountStorage.getAccount.
  split; [by rewrite emails_of_values|]. split.
  - intros email v Hget. by destruct (get_record_ok _ _ _ Hall Hget) as (? & ? & _).
  - intros v Hv. unfold Map.values in Hv. apply list_elem_of_fmap in Hv as ([k x] & -> & Hin).
    rewrite Forall_forall in Hall. destruct (Hall _ Hin) as (_ & Hemail & _).
    simpl in *. rewrite Hemail. by apply get_of_entry.
Qed.

(** *** Credentials and accounts do not touch each other *)

Lemma getCredentials_same_file (this this' : AccountStorage.t) (fs fs' : FileSystem) :
  AccountStorage.credentialsFile this' = AccountStorage.credentialsFile this →
  nodes fs' !! AccountStorage.credentialsFile this
  = nodes fs !! AccountStorage.credentialsFile this →
  AccountStorage.getCredentials this' fs' = AccountStorage.getCredentials this fs.
Proof.
  intros Hfile Hnode.
  unfold AccountStorage.getCredentials, existsSync, readFileSync.
  by rewrite Hfile, Hnode.
Qed.

Lemma getCredentials_written (c s : string) (this : AccountStorage.t) (fs : FileSystem) :
  nodes fs !! AccountStorage.credentialsFile this
  = Some (File (stringify (StoredCredentials_object c s))) →
  AccountStorage.getCredentials this fs = Ok (Some (StoredCredentials_object c s)).
Proof.
  intros Hnode. unfold AccountStorage.getCredentials, existsSync, readFileSync.
  rewrite Hnode. simpl. by rewrite parse_stringify_credentials.
Qed.

Lemma call_credentials_file (homedir : string) (dir : option string)
    (s : AccountStorage.t * FileSystem) (c : Call) :
  in_step homedir dir s →
  nodes (call s c).2 !! AccountStorage.credentialsFile s.1
  = match c with
    | SetCredentials clientId clientSecret =>
        Some (File (stringify (StoredCredentials_object clientId clientSecret)))
    | _ => nodes s.2 !! AccountStorage.credentialsFile s.1
    end.
Proof.
  destruct s as [this fs]. intros (_ & Hfile & Hcred & _). simpl in *.
  assert (AccountStorage.accountsFile this ≠ AccountStorage.credentialsFile this) as Hne.
  { rewrite Hfile, Hcred. apply accounts_file_ne_credentials_file. }
  destruct c as [account|email|clientId clientSecret]; simpl.
  - by rewrite lookup_insert_ne.
  - unfold AccountStorage.deleteAccount.
    destruct (Map.delete email (AccountStorage.accounts this)) as [[] m]; simpl; [|done].
    by rewrite lookup_insert_ne.
  - by rewrite lookup_insert_eq.
Qed.

(** X3: the credentials read after any sequence of calls are those of
    the last [setCredentials] among them, and those the store had
    before when there is none: saving or deleting accounts never
    changes them. *)
Theorem credentials_are_those_last_set
    (homedir : string) (dir : option string) (fs : FileSystem) (cs : list Call)
    (this : AccountStorage.t) (fs1 : FileSystem) :
  AccountStorage.new homedir dir fs = Ok (this, fs1) →
  AccountStorage.getCredentials (calls cs (this, fs1)).1 (calls cs (this, fs1)).2
  = match last_credentials cs with
    | Some (clientId, clientSecret) =>
        Ok (Some (StoredCredentials_object clientId clientSecret))
    | None => AccountStorage.getCredentials this fs1
    end.
Proof.
  intros Hnew.
  pose proof (new_calls_in_step homedir dir fs [] this fs1 Hnew) as Hstep.
  simpl in Hstep. unfold last_credentials.
  set (pick := λ (acc : option (string * string)) (c : Call), _).
  assert (∀ acc s,
            in_step homedir dir s →
            AccountStorage.getCredentials s.1 s.2
            = match acc with
              | Some (clientId, clientSecret) =>
                  Ok (Some (StoredCredentials_object clientId clientSecret))
              | None => AccountStorage.getCredentials this fs1
              end →
            AccountStorage.getCredentials (calls cs s).1 (calls cs s).2
            = match fold_left pick cs acc with
              | Some (clientId, clientSecret) =>
                  Ok (Some (StoredCredentials_object clientId clientSecret))
              | None => AccountStorage.getCredentials this fs1
              end) as H.
  { induction cs as [|c cs IH]; intros acc s Hs Hacc; [done|].
    simpl. apply IH; [by apply call_in_step|].
    pose proof (call_credentials_file homedir dir s c Hs) as Hnode.
    pose proof (call_in_step homedir dir s c Hs) as (_ & _ & Hcred' & _).
    destruct Hs as (_ & _ & Hcred & _).
    assert (AccountStorage.credentialsFile (call s c).1 = AccountStorage.credentialsFile s.1)
      as Hsame by (by rewrite Hcred, Hcred').
    destruct c as [account|email|clientId clientSecret]; simpl pick.
    - rewrite <- Hacc. by apply getCredentials_same_file.
    - rewrite <- Hacc. by apply getCredentials_same_file.
    - apply getCredentials_written. by rewrite Hsame. }
  by apply (H None (this, fs1)).
Qed.

(** *** Adding and deleting *)

Lemma delete_of_set_fresh {V} (k : string) (v : V) (m : list (string * V)) :
  Map.has k m = false → Map.delete k (Map.set k v m) = (true, m).
Proof.
  intros Hfresh. unfold Map.delete. rewrite has_set. f_equal.
  induction m as [|[k' v'] m IH]; simpl.
  - by rewrite String.eqb_refl.
  - unfold Map.has in Hfresh. simpl in Hfresh.
    destruct (String.eqb k k') eqn:Hk; [done|]. simpl. rewrite Hk. simpl.
    f_equal. by apply IH.
Qed.

(** X4: deleting an account that has just been added under a new email
    gives back the collection as it was, and the accounts file holds
    that collection again. *)
Theorem deleteAccount_undoes_addAccount
    (account : Account) (this : AccountStorage.t) (fs : FileSystem) :
  AccountStorage.hasAccount (email account) this = false →
  let '(this1, fs1) := AccountStorage.addAccount account this fs in
  let '(deleted, this2, fs2) := AccountStorage.deleteAccount (email account) this1 fs1 in
  deleted = true
  ∧ this2 = this
  ∧ nodes fs2 !! AccountStorage.accountsFile this
    = Some (File (stringify (JArray (AccountStorage.getAllAccounts this)))).
Proof.
  intros Hfresh. unfold AccountStorage.addAccount, AccountStorage.deleteAccount.
  cbn -[Map.delete Map.set].
  rewrite delete_of_set_fresh by done. split; [done|].
  unfold AccountStorage.saveAccounts, writeFileSync. simpl.
  destruct this as [m d a c]. simpl. split; [done|]. by rewrite lookup_insert_eq.
Qed.

Lemma reopening_restores_the_store_witness :
  AccountStorage.new "/home/u" None
    (calls session (fresh_store, mkdirSync "/home/u/.gtcli" empty_disk)).2
  = Ok (calls session (fresh_store, mkdirSync "/home/u/.gtcli" empty_disk)).
Proof.
  apply (reopening_restores_the_store "/home/u" None empty_disk session fresh_store
           (mkdirSync "/home/u/.gtcli" empty_disk)); vm_compute; reflexivity.
Defined.

Lemma records_stand_under_their_own_email_witness :
  AccountStorage.getAccount "b@x.com"
    (calls session (fresh_store, mkdirSync "/home/u/.gtcli" empty_disk)).1
  = Some (Account_object
            {| email := "b@x.com";
               oauth2 := {| clientId := "id"; clientSecret := "secret";
                            refreshToken := "r2"; accessToken := Some "a2" |} |})
  ∧ NoDup (map (λ v, string_prop v "email")
             (AccountStorage.getAllAccounts
                (calls session (fresh_store, mkdirSync "/home/u/.gtcli" empty_disk)).1)).
Proof.
  split; [vm_compute; reflexivity|].
  apply (records_stand_under_their_own_email "/home/u" None empty_disk session fresh_store
           (mkdirSync "/home/u/.gtcli" empty_disk)).
  vm_compute; reflexivity.
Defined.

Lemma credentials_are_those_last_set_witness :
  AccountStorage.getCredentials
    (calls session (fresh_store, mkdirSync "/home/u/.gtcli" empty_disk)).1
    (calls session (fresh_store, mkdirSync "/home/u/.gtcli" empty_disk)).2
  = Ok (Some (StoredCredentials_object "id" "secret")).
Proof.
  apply (credentials_are_those_last_set "/home/u" None empty_disk session fresh_store
           (mkdirSync "/home/u/.gtcli" empty_disk)).
  vm_compute; reflexivity.
Defined.

Lemma deleteAccount_undoes_addAccount_witness :
  AccountStorage.hasAccount "a@x.com" fresh_store = false
  ∧ let '(this1, fs1) :=
      AccountStorage.addAccount Example.known_account fresh_store empty_disk in
    let '(deleted, this2, fs2) := AccountStorage.deleteAccount "a@x.com" this1 fs1 in
    deleted = true
    ∧ this2 = fresh_store
    ∧ nodes fs2 !! "/home/u/.gtcli/accounts.json" = Some (File "[]").
Proof.
  split; [reflexivity|].
  exact (deleteAccount_undoes_addAccount Example.known_account fresh_store empty_disk
           eq_refl).
Defined.

(** ** The code handed to the token exchange *)

Lemma utf8_start_More (b : ascii) (st : Utf8.State) :
  Utf8.start b = Utf8.More st → Utf8.needed st ≠ 0%nat.
Proof.
  unfold Utf8.start.
  destruct (code b <? 128)%N; [done|].
  destruct ((194 <=? code b) && (code b <=? 223))%N; [by intros [= <-]|].
  destruct ((224 <=? code b) && (code b <=? 239))%N; [by intros [= <-]|].
  destruct ((240 <=? code b) && (code b <=? 244))%N; [by intros [= <-] | done].
Qed.

Lemma utf8_step_More (st st' : Utf8.State) (b : ascii) :
  Utf8.step st b = Utf8.More st' → Utf8.needed st' ≠ 0%nat.
Proof.
  unfold Utf8.step. destruct (Utf8.needed st) as [|[|k]].
  - apply utf8_start_More.
  - by destruct (_ && _)%N.
  - destruct (_ && _)%N; [by intros [= <-] | done].
Qed.

Lemma utf8_step_Emit (st : Utf8.State) (b : ascii) (out : list ascii) :
  Utf8.step st b = Utf8.Emit out → out ≠ [].
Proof.
  unfold Utf8.step, Utf8.start. destruct (Utf8.needed st) as [|[|k]].
  - destruct (code b <? 128)%N; [by intros [= <-]|].
    repeat (destruct (_ && _)%N; [done|]). done.
  - destruct (_ && _)%N; [|done]. intros [= <-]. by destruct (Utf8.pending st).
  - by destruct (_ && _)%N.
Qed.

Lemma decode_component_nonempty (n : nat) (s : string) (st : Utf8.State) (l : list ascii) :
  (String.length s ≤ n)%nat →
  decode_component st s = Some l →
  s ≠ "" ∨ Utf8.needed st ≠ 0%nat →
  l ≠ [].
Proof.
  revert s st l. induction n as [|n IH]; intros s st l Hlen Hdec Hne.
  - destruct s; [|simpl in Hlen; lia]. simpl in Hdec.
    destruct (Utf8.needed st); [|done]. by destruct Hne.
  - destruct s as [|c s1]; simpl in Hdec.
    { destruct (Utf8.needed st); [|done]. by destruct Hne. }
    destruct (code c =? percent)%N.
    + destruct s1 as [|h1 [|h2 rest]]; try done.
      destruct (hex_value h1) as [a|]; [|done].
      destruct (hex_value h2) as [b|]; [|done].
      destruct (Utf8.step st (chr (16 * a + b))) as [out|st'|] eqn:Hstep; [| |done].
      * destruct (decode_component Utf8.initial rest) as [l'|]; [|done].
        injection Hdec as <-. apply utf8_step_Emit in Hstep. by destruct out.
      * apply (IH rest st' l); [simpl in Hlen; lia | done |].
        right. by eapply utf8_step_More.
    + destruct (Utf8.needed st); [|done].
      destruct (decode_component Utf8.initial s1) as [l'|]; [|done].
      by injection Hdec as <-.
Qed.

Lemma match_code_nonempty (s group : string) : match_code s = Some group → group ≠ "".
Proof.
  induction s as [|a s IH]; [done|].
  change (match_code (String a s)) with
    (match drop_prefix "code=" (String a s) with
     | Some rest =>
         match fst (span_until 38 rest) with
         | EmptyString => match_code s
         | group => Some group
         end
     | None => match_code s
     end).
  destruct (drop_prefix "code=" (String a s)) as [rest|]; [|exact IH].
  destruct (fst (span_until 38 rest)); [exact IH | by intros [= <-]].
Qed.

(** X5: whenever [extractCodeFromUrl] returns, the code it returns is
    not empty, so the token endpoint is never asked with an empty
    code. *)
Theorem extractCodeFromUrl_returns_a_code (url code : string) :
  OAuthFlow.extractCodeFromUrl url = Ok code → code ≠ "".
Proof.
  rewrite extractCodeFromUrl_cases. cbv zeta.
  assert (match match_code url with
          | Some group => decodeURIComponent group
          | None => Throw (PlainError "Invalid redirect URL")
          end = Ok code → code ≠ "") as Hfallback.
  { destruct (match_code url) as [group|] eqn:Hmatch; [|done].
    apply match_code_nonempty in Hmatch. unfold decodeURIComponent.
    destruct (decode_component Utf8.initial group) as [bytes|] eqn:Hdec; [|done].
    intros [= <-].
    apply (decode_component_nonempty _ _ _ _ (Nat.le_refl _)) in Hdec; [|by left].
    by destruct bytes. }
  destruct (URL.parse url) as [parsed|e]; [|done].
  destruct (URL.searchParams_get "code" (URL.searchParams parsed)) as [[|c rest]|]; try done.
  by intros [= <-].
Qed.

Lemma extractCodeFromUrl_returns_a_code_witness :
  OAuthFlow.extractCodeFromUrl "not-a-url?code=%41bc&state=1" = Ok "Abc"
  ∧ "Abc" ≠ "".
Proof.
  split; [vm_compute; reflexivity|].
  apply (extractCodeFromUrl_returns_a_code "not-a-url?code=%41bc&state=1").
  vm_compute; reflexivity.
Defined.

(** ** Runs of the interactive authorization *)

Section browser_runs.
Import OAuthFlow.

Lemma step_settled (b b' : Browser) (e : Event) :
  step b e = Some b' → promise b ≠ Pending → promise b' = promise b.
Proof.
  intros Hstep Hp. apply step_callback in Hstep as [_ Hstep].
  destruct e as [|message|code error|response| |]; simpl in Hstep.
  - destruct (server b); try done. by injection Hstep as <-.
  - destruct (server b); try done. injection Hstep as <-. simpl.
    by destruct (promise b).
  - destruct (reachable (server b)); [|done]. injection Hstep as <-. unfold on_request.
    destruct (truthy (of_option error)); simpl; [by destruct (promise b)|].
    by destruct (truthy (of_option code)).
  - destruct (exchanges b); [done|]. injection Hstep as <-. simpl.
    destruct (exchange_result response); by destruct (promise b).
  - destruct (timer b); [|done]. injection Hstep as <-. simpl.
    by destruct (promise b).
  - destruct (reachable (server b)); [|done]. by injection Hstep as <-.
Qed.

Lemma step_timer (b b' : Browser) (e : Event) :
  step b e = Some b' →
  timer b' = match e with TimerFired => false | _ => timer b end.
Proof.
  intros Hstep. apply step_callback in Hstep as [_ Hstep].
  destruct e as [|message|code error|response| |]; simpl in Hstep.
  - destruct (server b); try done. by injection Hstep as <-.
  - destruct (server b); try done. by injection Hstep as <-.
  - destruct (reachable (server b)); [|done]. injection Hstep as <-. unfold on_request.
    destruct (truthy (of_option error)); [done|].
    by destruct (truthy (of_option code)).
  - destruct (exchanges b); [done|]. by injection Hstep as <-.
  - destruct (timer b); [|done]. by injection Hstep as <-.
  - destruct (reachable (server b)); [|done]. by injection Hstep as <-.
Qed.

Lemma run_timer (events : list Event) (b b' : Browser) :
  run b events = Some b' → timer b = true → (timer b' = true ↔ TimerFired ∉ events).
Proof.
  revert b. induction events as [|e events IH]; simpl; intros b Hrun Ht.
  - injection Hrun as <-. split; [intros _; apply not_elem_of_nil | done].
  - destruct (step b e) as [b1|] eqn:Hstep; [|done].
    pose proof (step_timer _ _ _ Hstep) as Ht1.
    rewrite not_elem_of_cons.
    destruct e; try (rewrite Ht in Ht1; rewrite (IH b1 Hrun Ht1); by intuition).
    split; [|by intros [? _]]. intros Hb'. exfalso.
    clear IH Hstep Ht. revert b1 Hrun Ht1.
    induction events as [|e events IH]; simpl; intros b1 Hrun Ht1.
    + injection Hrun as <-. congruence.
    + destruct (step b1 e) as [b2|] eqn:Hstep; [|done].
      pose proof (step_timer _ _ _ Hstep) as Ht2.
      apply (IH b2 Hrun). destruct e; congruence.
Qed.

(** X6: the timer of the interactive authorization is never cancelled:
    it is armed as long as it has not fired, also after the flow has
    resolved or rejected; and whatever happens after the promise has
    settled (the timer firing after a success, a token response after
    the timeout), the promise keeps its first value. *)
Theorem the_timer_outlives_the_authorization (events : list Event) (b : Browser) :
  run started events = Some b →
  (timer b = true ↔ TimerFired ∉ events)
  ∧ ∀ later b',
      run b later = Some b' → promise b ≠ Pending → promise b' = promise b.
Proof.
  intros Hrun. split; [by apply (run_timer events started)|].
  clear Hrun. intros later. revert b.
  induction later as [|e later IH]; simpl; intros b b' Hrun Hp.
  - by injection Hrun as <-.
  - destruct (step b e) as [b1|] eqn:Hstep; [|done].
    pose proof (step_settled _ _ _ Hstep Hp) as H1.
    rewrite <- H1. apply IH; [done|]. by rewrite H1.
Qed.

Lemma the_timer_outlives_the_authorization_witness :
  ∃ b,
    run started
      [Bound; Request (Some "the-code") None;
       Tokens (Ok {| refresh_token := Str "r"; access_token := Null |})] = Some b
    ∧ timer b = true
    ∧ ∀ b', run b [TimerFired] = Some b' →
            promise b' = Resolved {| refreshToken := "r"; accessToken := None |}.
Proof.
  eexists. split; [reflexivity|].
  pose proof (the_timer_outlives_the_authorization
                [Bound; Request (Some "the-code") None;
                 Tokens (Ok {| refresh_token := Str "r"; access_token := Null |})]
                _ eq_refl) as [Htimer Hstand].
  split; [reflexivity|].
  intros b' Hrun. by rewrite (Hstand [TimerFired] b' Hrun).
Defined.

Lemma requested_snoc (seen : list Event) (e : Event) :
  requested seen → requested (seen ++ [e]).
Proof.
  intros (before & code & error & after & -> & ? & ?).
  exists before, code, error, (after ++ [e])%list.
  by rewrite <- app_assoc.
Qed.

Lemma answered_snoc (seen : list Event) (e : Event) (result : OAuthResult) :
  answered seen result → answered (seen ++ [e]) result.
Proof.
  intros (before & code & error & between & response & after & -> & ? & ? & ?).
  exists before, code, error, between, response, (after ++ [e])%list.
  split; [|done]. rewrite <- !app_assoc. simpl. by rewrite <- app_assoc.
Qed.

Lemma step_accounted (seen : list Event) (b b' : Browser) (e : Event) :
  accounted seen b → step b e = Some b' → accounted (seen ++ [e]) b'.
Proof.
  intros [Hex Hres] Hstep.
  assert (∀ b1, exchanges b1 = exchanges b →
                (∀ result, promise b1 = Resolved result → promise b = Resolved result) →
                accounted (seen ++ [e]) b1) as Hsame.
  { intros b1 He Hp. split.
    - rewrite He. intros H. by apply requested_snoc, Hex.
    - intros result H. by apply answered_snoc, Hres, Hp. }
  apply step_callback in Hstep as [_ Hstep].
  destruct e as [|message|code error|response| |]; simpl in Hstep.
  - destruct (server b); try done. injection Hstep as <-. by apply Hsame.
  - destruct (server b); try done. injection Hstep as <-. apply Hsame; [done|].
    simpl. by destruct (promise b).
  - destruct (reachable (server b)); [|done]. injection Hstep as <-. unfold on_request.
    destruct (truthy (of_option error)) eqn:Herror.
    { apply Hsame; [done|]. simpl. by destruct (promise b). }
    destruct (truthy (of_option code)) eqn:Hcode; [|by apply Hsame].
    split; simpl.
    + intros _. destruct code as [code|]; [|done].
      exists seen, code, error, []. split; [done|]. split; [|done]. by destruct code.
    + intros result H. by apply answered_snoc, Hres.
  - destruct (exchanges b) as [|c rest] eqn:He; [done|]. injection Hstep as <-.
    split; simpl.
    + intros _. by apply requested_snoc, Hex.
    + intros result.
      destruct (exchange_result response) as [r|err] eqn:Hr.
      * destruct (promise b) eqn:Hp; simpl.
        -- intros [= <-]. destruct Hex as (before & code & error & after & -> & ? & ?);
             [done|].
           exists before, code, error, after, response, [].
           split; [by rewrite <- app_assoc|]. done.
        -- intros [= <-]. by apply answered_snoc, Hres.
        -- done.
      * destruct (promise b) eqn:Hp; simpl; try done.
        intros [= <-]. by apply answered_snoc, Hres.
  - destruct (timer b); [|done]. injection Hstep as <-. apply Hsame; [done|].
    simpl. by destruct (promise b).
  - destruct (reachable (server b)); [|done]. injection Hstep as <-. by apply Hsame.
Qed.

Lemma run_accounted (events seen : list Event) (b b' : Browser) :
  accounted seen b → run b events = Some b' → accounted (seen ++ events) b'.
Proof.
  revert seen b. induction events as [|e events IH]; simpl; intros seen b Hb Hrun.
  - injection Hrun as <-. by rewrite app_nil_r.
  - destruct (step b e) as [b1|] eqn:Hstep; [|done].
    replace (seen ++ e :: events)%list with ((seen ++ [e]) ++ events)%list
      by by rewrite <- app_assoc.
    apply (IH _ b1); [|done]. by eapply step_accounted.
Qed.

(** X7: the interactive authorization resolves only with what the token
    endpoint answered to a code that a request brought: a run that ends
    resolved holds a request with a non-empty code and no error, and,
    after it, the token response that [exchangeCode] turns into the
    result. *)
Theorem authorizeBrowser_resolves_with_the_tokens_of_a_request
    (events : list Event) (b : Browser) (result : OAuthResult) :
  run started events = Some b →
  promise b = Resolved result →
  ∃ before code error between response after,
    events = (before ++ Request (Some code) error :: between
                     ++ Tokens response :: after)%list
    ∧ code ≠ "" ∧ truthy (of_option error) = false
    ∧ exchange_result response = Ok result.
Proof.
  intros Hrun Hresolved.
  assert (accounted [] started) as Hstart by (by split).
  destruct (run_accounted events [] started b Hstart Hrun) as [_ H].
  by apply H.
Qed.

Lemma authorizeBrowser_resolves_with_the_tokens_of_a_request_witness :
  ∃ before code error between response after,
    [Bound; Request None None; Request (Some "the-code") None;
     Tokens (Ok {| refresh_token := Str "r"; access_token := Null |})]
    = (before ++ Request (Some code) error :: between
              ++ Tokens response :: after)%list
    ∧ code ≠ "" ∧ truthy (of_option error) = false
    ∧ exchange_result response = Ok {| refreshToken := "r"; accessToken := None |}.
Proof.
  exact (authorizeBrowser_resolves_with_the_tokens_of_a_request
           [Bound; Request None None; Request (Some "the-code") None;
            Tokens (Ok {| refresh_token := Str "r"; access_token := Null |})]
           _ _ eq_refl eq_refl).
Defined.

(** X8: when the port cannot be bound the flow rejects with the message
    of the server error; no request is ever answered and no code
    exchanged, and the only callback still to come is the timer. *)
Theorem a_port_that_cannot_be_bound_rejects
    (message : string) (events : list Event) (b : Browser) :
  run started (BindFailed message :: events) = Some b →
  promise b = Rejected (PlainError ("Failed to start local server: " +:+ message))
  ∧ server b = Failed
  ∧ responses b = []
  ∧ exchanges b = []
  ∧ (events = [] ∨ events = [TimerFired]).
Proof.
  simpl. destruct events as [|e events]; simpl.
  { intros [= <-]. repeat split; by left. }
  destruct e; try done. simpl.
  destruct events as [|e events]; simpl.
  { intros [= <-]. repeat split; by right. }
  by destruct e.
Qed.

Lemma a_port_that_cannot_be_bound_rejects_witness :
  ∃ b,
    run started [BindFailed "listen EADDRINUSE"; TimerFired] = Some b
    ∧ promise b
      = Rejected (PlainError "Failed to start local server: listen EADDRINUSE").
Proof.
  eexists. split; [reflexivity|].
  by destruct (a_port_that_cannot_be_bound_rejects "listen EADDRINUSE" [TimerFired] _
                 eq_refl) as [H _].
Defined.

End browser_runs.

(** ** What decides the interactive authorization *)

Section browser_decisions.
Import OAuthFlow.

Lemma run_settled (events : list Event) (b b' : Browser) :
  run b events = Some b' → promise b ≠ Pending → promise b' = promise b.
Proof.
  revert b. induction events as [|e events IH]; simpl; intros b Hrun Hp.
  - by injection Hrun as <-.
  - destruct (step b e) as [b1|] eqn:Hstep; [|done].
    pose proof (step_settled _ _ _ Hstep Hp) as H1.
    rewrite <- H1. apply IH; [done|]. by rewrite H1.
Qed.

(** As long as no request has brought a code or an error and the timer
    has not fired, the flow waits, or the port could not be bound. *)
Lemma step_waits (b b' : Browser) (e : Event) :
  step b e = Some b' →
  waits b →
  completing e = false →
  e ≠ TimerFired →
  waits b'.
Proof.
  intros Hstep Hwaits Hquiet Htimer. apply step_callback in Hstep as [_ Hstep].
  destruct e as [|message|code error|response| |]; simpl in Hstep.
  - destruct (server b) eqn:Hs; try done. injection Hstep as <-.
    destruct Hwaits as [(_ & Hp & He)|[Hf _]]; [|congruence].
    left. by split; [right|].
  - destruct (server b) eqn:Hs; try done. injection Hstep as <-.
    destruct Hwaits as [(_ & Hp & He)|[Hf _]]; [|congruence].
    by right.
  - destruct (server b) eqn:Hs; try done; injection Hstep as <-;
      simpl in Hquiet; apply orb_false_iff in Hquiet as [Herror Hcode];
      unfold on_request; rewrite Herror, Hcode.
    + destruct Hwaits as [(_ & Hp & He)|[Hf _]]; [|congruence].
      left. by split; [right|].
    + destruct Hwaits as [([Hf|Hf] & _)|[Hf _]]; congruence.
  - destruct Hwaits as [(_ & _ & He)|[_ He]]; by rewrite He in Hstep.
  - done.
  - destruct (server b) eqn:Hs; try done; injection Hstep as <-.
    + destruct Hwaits as [(_ & Hp & He)|[Hf _]]; [|congruence].
      left. by split; [right|].
    + destruct Hwaits as [([Hf|Hf] & _)|[Hf _]]; congruence.
Qed.

Lemma run_waits (events : list Event) (b b' : Browser) :
  run b events = Some b' →
  waits b →
  List.filter completing events = [] →
  TimerFired ∉ events →
  waits b'.
Proof.
  revert b. induction events as [|e events IH]; intros b Hrun Hwaits Hquiet Htimer.
  - by injection Hrun as <-.
  - rewrite run_cons in Hrun.
    destruct (step b e) as [b1|] eqn:Hstep; [|done].
    apply not_elem_of_cons in Htimer as [He Htimer].
    simpl in Hquiet. destruct (completing e) eqn:Hcompleting; [done|].
    apply (IH b1 Hrun); [|done..]. by apply (step_waits b b1 e).
Qed.

Lemma started_waits : waits started.
Proof. left. by split; [left|]. Qed.

(** X20: a denial that comes first is reported: when a request that
    carries an error is handled before the timer has fired and before
    any other request has brought a code or an error, the flow rejects
    with "Authorization failed: <error>" and the server is closed,
    whatever else the request carried and whatever happens afterwards;
    the request is answered with status 400 and its code, if it carried
    one, is not exchanged. *)
Theorem a_first_denial_is_reported
    (before after : list Event) (b : Browser) (code : option string) (error : string) :
  run started (before ++ Request code (Some error) :: after) = Some b →
  error ≠ "" →
  List.filter completing before = [] →
  TimerFired ∉ before →
  promise b = Rejected (PlainError ("Authorization failed: " +:+ error))
  ∧ server b = Closed
  ∧ ∃ b0 b1,
      run started before = Some b0
      ∧ run started (before ++ [Request code (Some error)]) = Some b1
      ∧ exchanges b1 = []
      ∧ responses b1
        = (400%N, "<html><body><h1>Authorization Failed</h1><p>" +:+ error
                  +:+ "</p></body></html>") :: responses b0.
Proof.
  intros Hrun Herror Hquiet Htimer.
  rewrite run_app in Hrun. rewrite run_app.
  destruct (run started before) as [b0|] eqn:Hbefore; [|done].
  rewrite run_cons in Hrun. rewrite run_cons.
  destruct (step b0 (Request code (Some error))) as [b1|] eqn:Hstep; [|done].
  pose proof (run_waits before started b0 Hbefore started_waits Hquiet Htimer) as Hwaits.
  apply step_callback in Hstep as [_ Hstep]. simpl in Hstep.
  assert (truthy (of_option (Some error)) = true) as Htruthy by by destruct error.
  assert (server b0 = Listening ∧ promise b0 = Pending ∧ exchanges b0 = [])
    as (Hs & Hp & He).
  { destruct Hwaits as [([Hs|Hs] & Hp & He)|[Hs He]]; [|done|];
      by rewrite Hs in Hstep. }
  rewrite Hs in Hstep. injection Hstep as <-.
  unfold on_request in *. rewrite Htruthy in *.
  set (b1 := {| server := close (server b0) |}) in *.
  assert (promise b1 = Rejected (PlainError ("Authorization failed: " +:+ error)))
    as Hrejected by (subst b1; simpl; by rewrite Hp).
  split; [|split].
  - rewrite (run_settled after b1 b Hrun); [done|]. by rewrite Hrejected.
  - apply (run_closed after b1 b); [|done]. subst b1. simpl. by rewrite Hs.
  - exists b0, b1. by split.
Qed.

Lemma a_first_denial_is_reported_witness :
  ∃ b,
    run started
      [Bound; Request None None; Request (Some "the-code") (Some "access_denied");
       Request (Some "late") None; TimerFired]
    = Some b
    ∧ promise b = Rejected (PlainError "Authorization failed: access_denied")
    ∧ server b = Closed.
Proof.
  eexists. split; [reflexivity|].
  destruct (a_first_denial_is_reported
              [Bound; Request None None] [Request (Some "late") None; TimerFired]
              _ (Some "the-code") "access_denied" eq_refl)
    as (Hp & Hs & _); [done|done| |by split].
  intros Hin.
  apply elem_of_cons in Hin as [Hin|Hin]; [done|].
  apply elem_of_cons in Hin as [Hin|Hin]; [done|].
  by apply elem_of_nil in Hin.
Defined.

(** Until a denial, a token answer or the timer, the promise is
    pending, unless the port could not be bound. *)
Lemma step_open (b b' : Browser) (e : Event) :
  step b e = Some b' →
  undecided b →
  promise b = Pending ∨ (server b = Failed ∧ exchanges b = []) →
  e ≠ TimerFired →
  (∀ response, e ≠ Tokens response) →
  (∀ code error, e = Request code error → truthy (of_option error) = false) →
  promise b' = Pending ∨ (server b' = Failed ∧ exchanges b' = []).
Proof.
  intros Hstep Hund Hopen Htimer Htokens Hdenial.
  apply step_callback in Hstep as [_ Hstep].
  destruct e as [|message|code error|response| |]; simpl in Hstep.
  - destruct (server b) eqn:Hs; try done. injection Hstep as <-. simpl.
    destruct Hopen as [Hp|[Hf _]]; [by left | congruence].
  - destruct (server b) eqn:Hs; try done. injection Hstep as <-. simpl.
    unfold undecided in Hund. rewrite Hs in Hund. right. split; [done|]. by destruct Hund.
  - destruct (server b) eqn:Hs; try done; injection Hstep as <-;
      (destruct Hopen as [Hp|[Hf _]]; [|congruence]);
      left; unfold on_request; rewrite (Hdenial code error eq_refl);
      by destruct (truthy (of_option code)).
  - by destruct (Htokens response).
  - done.
  - destruct (server b) eqn:Hs; try done; injection Hstep as <-;
      (destruct Hopen as [Hp|[Hf _]]; [|congruence]); by left.
Qed.

Lemma run_open (events : list Event) (b b' : Browser) :
  run b events = Some b' →
  undecided b →
  promise b = Pending ∨ (server b = Failed ∧ exchanges b = []) →
  TimerFired ∉ events →
  (∀ response, Tokens response ∉ events) →
  (∀ code error, Request code error ∈ events → truthy (of_option error) = false) →
  promise b' = Pending ∨ (server b' = Failed ∧ exchanges b' = []).
Proof.
  revert b.
  induction events as [|e events IH]; intros b Hrun Hund Hopen Htimer Htokens Hdenial.
  - by injection Hrun as <-.
  - rewrite run_cons in Hrun.
    destruct (step b e) as [b1|] eqn:Hstep; [|done].
    apply not_elem_of_cons in Htimer as [He Htimer].
    apply (IH b1 Hrun).
    + by apply (step_undecided b b1 e).
    + apply (step_open b b1 e); try done.
      * intros response ->. apply (Htokens response). left.
      * intros code error ->. apply (Hdenial code error). left.
    + done.
    + intros response Hin. apply (Htokens response). by right.
    + intros code error Hin. apply (Hdenial code error). by right.
Qed.

(** X21: the first answer of the token endpoint decides the flow when
    it comes in time: if the timer has not fired and no request has
    carried an error before the token endpoint answers for the first
    time, the promise is settled by that answer - resolved with the
    tokens, or rejected with the exception of [exchangeCode] - whatever
    happens afterwards. *)
Theorem the_first_token_answer_decides
    (before after : list Event) (b : Browser) (response : Result Credentials) :
  run started (before ++ Tokens response :: after) = Some b →
  TimerFired ∉ before →
  (∀ earlier, Tokens earlier ∉ before) →
  (∀ code error, Request code error ∈ before → truthy (of_option error) = false) →
  promise b = match exchange_result response with
              | Ok result => Resolved result
              | Throw e => Rejected e
              end.
Proof.
  intros Hrun Htimer Htokens Hdenial.
  rewrite run_app in Hrun.
  destruct (run started before) as [b1|] eqn:Hbefore; [|done].
  rewrite run_cons in Hrun.
  destruct (step b1 (Tokens response)) as [b2|] eqn:Hstep; [|done].
  pose proof (run_open before started b1 Hbefore started_undecided (or_introl eq_refl)
                Htimer Htokens Hdenial) as Hopen.
  apply step_callback in Hstep as [_ Hstep]. simpl in Hstep.
  destruct (exchanges b1) as [|c rest] eqn:He; [done|]. injection Hstep as <-.
  destruct Hopen as [Hp|[_ Hnone]]; [|done].
  rewrite (run_settled after _ b Hrun); simpl; rewrite Hp;
    by destruct (exchange_result response).
Qed.

Lemma the_first_token_answer_decides_witness :
  ∃ b,
    run started
      [Bound; Request None None; Request (Some "the-code") None;
       Tokens (Ok {| refresh_token := Str "r"; access_token := Str "a" |});
       Request None (Some "access_denied"); TimerFired]
    = Some b
    ∧ promise b = Resolved {| refreshToken := "r"; accessToken := Some "a" |}.
Proof.
  eexists. split; [reflexivity|].
  apply (the_first_token_answer_decides
           [Bound; Request None None; Request (Some "the-code") None]
           [Request None (Some "access_denied"); TimerFired] _
           (Ok {| refresh_token := Str "r"; access_token := Str "a" |}) eq_refl).
  - intros Hin. repeat (apply elem_of_cons in Hin as [Hin|Hin]; [done|]).
    by apply elem_of_nil in Hin.
  - intros earlier Hin. repeat (apply elem_of_cons in Hin as [Hin|Hin]; [done|]).
    by apply elem_of_nil in Hin.
  - intros code error Hin.
    repeat (apply elem_of_cons in Hin as [Hin|Hin];
            [by (discriminate Hin || (injection Hin as -> ->))|]).
    by apply elem_of_nil in Hin.
Defined.

Lemma run_up (events : list Event) (b b' : Browser) :
  run b events = Some b' → up b →
  List.filter completing events = [] →
  (∀ message, BindFailed message ∉ events) →
  TimerFired ∉ events →
  up b'.
Proof.
  intros Hrun Hup Hquiet Hbind Htimer.
  destruct (run_waits events b b' Hrun (or_introl Hup) Hquiet Htimer) as [H|[Hf _]];
    [done|].
  exfalso. revert b Hrun Hup Hquiet Hbind Htimer.
  induction events as [|e events IH]; intros b Hrun Hup Hquiet Hbind Htimer.
  - injection Hrun as <-. destruct Hup as ([Hs|Hs] & _); congruence.
  - rewrite run_cons in Hrun.
    destruct (step b e) as [b1|] eqn:Hstep; [|done].
    apply not_elem_of_cons in Htimer as [He Htimer].
    simpl in Hquiet. destruct (completing e) eqn:Hcompleting; [done|].
    apply (IH b1 Hrun); [|done| |done].
    + destruct (step_waits b b1 e Hstep (or_introl Hup) Hcompleting (not_eq_sym He)) as [H|[Hf1 _]];
        [done|].
      apply step_callback in Hstep as [_ Hstep].
      destruct e as [|message|code error|response| |]; simpl in Hstep.
      * destruct (server b); try done. by injection Hstep as <-.
      * exfalso. apply (Hbind message). left.
      * destruct (reachable (server b)) eqn:Hr; [|done]. injection Hstep as <-.
        rewrite server_on_request, Hcompleting in Hf1.
        destruct Hup as ([Hs|Hs] & _); congruence.
      * destruct Hup as (_ & _ & Hnone). by rewrite Hnone in Hstep.
      * done.
      * destruct (reachable (server b)) eqn:Hr; [|done]. injection Hstep as <-.
        simpl in Hf1. destruct Hup as ([Hs|Hs] & _); congruence.
    + intros message Hin. apply (Hbind message). by right.
Qed.

(** X22: a timeout is reported: when the timer fires before any request
    with a code or an error has been handled, and the server could be
    started, the flow rejects with "Authorization timed out after 5
    minutes" and the server is closed, whatever callback runs
    afterwards. *)
Theorem a_timeout_is_reported (events before after : list Event) (b : Browser) :
  run started events = Some b →
  events = (before ++ TimerFired :: after)%list →
  List.filter completing before = [] →
  (∀ message, BindFailed message ∉ before) →
  promise b = Rejected (PlainError "Authorization timed out after 5 minutes")
  ∧ server b = Closed
  ∧ timer b = false.
Proof.
  intros Hrun -> Hquiet Hbind.
  pose proof (run_timer _ started b Hrun eq_refl) as Hwhole.
  rewrite run_app in Hrun.
  destruct (run started before) as [b1|] eqn:Hbefore; [|done].
  rewrite run_cons in Hrun.
  destruct (step b1 TimerFired) as [b2|] eqn:Hfired2; [|done].
  apply step_callback in Hfired2 as [_ Hfired2]. simpl in Hfired2.
  assert (TimerFired ∉ before) as Htimer.
  { apply (run_timer before started b1 Hbefore eq_refl). by destruct (timer b1). }
  assert (up started) as Hstart by (by split; [left|]).
  destruct (run_up before started b1 Hbefore Hstart Hquiet Hbind Htimer)
    as (Hserver & Hpending & Hexchanges).
  destruct (timer b1); [|done]. injection Hfired2 as <-.
  match type of Hrun with run ?x _ = _ => set (b2 := x) in * end.
  split; [|split].
  - rewrite (run_settled after b2 b Hrun); subst b2; simpl; by rewrite Hpending.
  - apply (run_closed after b2 b); [|done]. subst b2. simpl.
    by destruct Hserver as [-> | ->].
  - destruct (timer b); [|done]. exfalso. apply (proj1 Hwhole eq_refl).
    apply elem_of_app. right. left.
Qed.

Lemma a_timeout_is_reported_witness :
  ∃ b,
    run started [Bound; Request None None; TimerFired; Request (Some "late") None]
    = Some b
    ∧ promise b = Rejected (PlainError "Authorization timed out after 5 minutes").
Proof.
  eexists. split; [reflexivity|].
  apply (a_timeout_is_reported
           [Bound; Request None None; TimerFired; Request (Some "late") None]
           [Bound; Request None None] [Request (Some "late") None] _
           eq_refl eq_refl eq_refl).
  intros message Hin.
  apply elem_of_cons in Hin as [Hin|Hin]; [done|].
  apply elem_of_cons in Hin as [Hin|Hin]; [done|].
  by apply elem_of_nil in Hin.
Defined.

End browser_decisions.

(** ** What the interactive authorization prints *)

Section browser_console.
Import OAuthFlow.

Lemma step_logged (b b' : Browser) (e : Event) :
  step b e = Some b' →
  logged b' = match e with
              | Bound => "Waiting for authorization on port 3000..." :: logged b
              | _ => logged b
              end.
Proof.
  intros Hstep. apply step_callback in Hstep as [_ Hstep].
  destruct e as [|message|code error|response| |]; simpl in Hstep.
  - destruct (server b); try done. by injection Hstep as <-.
  - destruct (server b); try done. by injection Hstep as <-.
  - destruct (reachable (server b)); [|done]. injection Hstep as <-. unfold on_request.
    destruct (truthy (of_option error)); [done|].
    by destruct (truthy (of_option code)).
  - destruct (exchanges b); [done|]. by injection Hstep as <-.
  - destruct (timer b); [|done]. by injection Hstep as <-.
  - destruct (reachable (server b)); [|done]. by injection Hstep as <-.
Qed.

Lemma step_announced (b b' : Browser) (e : Event) :
  step b e = Some b' → announced b → announced b'.
Proof.
  intros Hstep Hb. pose proof (step_logged b b' e Hstep) as Hlogged.
  destruct Hb as [[Hnone [(Hs & Hp & He)|[err Hp]]]|[Hline Hs]].
  - apply step_callback in Hstep as [_ Hstep].
    destruct e as [|message|code error|response| |]; simpl in Hstep;
      rewrite ?Hs, ?He in Hstep; simpl in Hstep; try done.
    + injection Hstep as <-. right. simpl. by rewrite Hnone.
    + injection Hstep as <-. left. simpl. split; [done|]. right. rewrite Hp. by eexists.
    + destruct (timer b); [|done]. injection Hstep as <-. left. simpl.
      split; [done|]. right. rewrite Hp. by eexists.
  - assert (promise b' = Rejected err) as Hp'.
    { rewrite <- Hp. apply (step_settled b b' e Hstep). by rewrite Hp. }
    destruct e; try (left; split; [congruence|]; right; by eexists).
    right. rewrite Hlogged, Hnone. split; [done|].
    apply step_callback in Hstep as [_ Hstep]. simpl in Hstep.
    destruct (server b); try done. by injection Hstep as <-.
  - right. apply step_callback in Hstep as [_ Hstep].
    destruct e as [|message|code error|response| |]; simpl in Hstep, Hlogged.
    + by destruct (server b).
    + by destruct (server b).
    + split; [congruence|]. destruct (server b) eqn:Hserver; try done;
        injection Hstep as <-; rewrite server_on_request, Hserver;
        by destruct (completing _).
    + split; [congruence|]. destruct (exchanges b); [done|]. by injection Hstep as <-.
    + split; [congruence|]. destruct (timer b); [|done]. injection Hstep as <-.
      simpl. by destruct (server b).
    + split; [congruence|]. destruct (reachable (server b)); [|done].
      by injection Hstep as <-.
Qed.

Lemma authorizeBrowser_announced (events : list Event) :
  announced (authorizeBrowser events).
Proof.
  unfold authorizeBrowser.
  assert (announced started) as Hstart by (left; split; [done|]; by left).
  revert Hstart. generalize started.
  induction events as [|e events IH]; intros b Hb; simpl; [done|].
  apply IH. destruct (step b e) as [b'|] eqn:Hstep; simpl; [|done].
  by apply (step_announced b b' e).
Qed.

Lemma resolved_after_the_announcement (events : list Event) (result : OAuthResult) :
  promise (authorizeBrowser events) = Resolved result →
  logged (authorizeBrowser events) = ["Waiting for authorization on port 3000..."].
Proof.
  intros Hp.
  destruct (authorizeBrowser_announced events)
    as [[_ [(_ & Hpending & _)|[err Hrejected]]]|[Hline _]]; [congruence..|done].
Qed.

End browser_console.

(** ** Outcomes of [accounts add] *)

Section cli_add.
Import Cli.

Lemma length_values_set_fresh {V} (k : string) (v : V) (m : list (string * V)) :
  Map.has k m = false →
  List.length (Map.values (Map.set k v m)) = S (List.length (Map.values m)).
Proof.
  intros Hfresh. rewrite set_fresh.
  - unfold Map.values. rewrite map_app, length_app. simpl. lia.
  - intros Hin. apply has_true_in_keys in Hin. congruence.
Qed.

(** X9: [accounts add] changes the store all at once or not at all.  A
    run that does not end normally - a usage error, a known email,
    missing credentials, a failed or abandoned authorization - leaves
    the store and the files as they were.  An authorization run is
    started at most once, and only with the stored client credentials.
    A run that ends normally has added one record under the new email:
    the stored client credentials with the tokens the authorization
    returned; the other records are untouched.  It has printed the
    lines of the authorization - in manual mode the invitation, the
    URL and the request for the redirect URL; in interactive mode the
    two lines about the browser, the line that tells that the browser
    could not be opened when it could not, and the line of the
    listener - and then, last, "Account '<email>' added". *)
Theorem accounts_add_all_or_nothing
    (env : OAuthFlow.Environment) (args : list string) (w : World) :
  let manual := existsb (String.eqb "--manual") args in
  let '(outcome, w') := handleAccounts_add env args w in
  (outcome ≠ Returned → storage w' = storage w ∧ fs w' = fs w)
  ∧ (network w' = network w
     ∨ ∃ creds,
         AccountStorage.getCredentials (storage w) (fs w) = Ok (Some creds)
         ∧ network w'
           = {| manual_mode := manual;
                client_id := string_prop creds "clientId";
                client_secret := string_prop creds "clientSecret" |} :: network w)
  ∧ (outcome = Returned →
     ∃ email creds result lines,
       head (List.filter (λ a, negb (String.eqb a "--manual")) (tail args)) = Some email
       ∧ email ≠ ""
       ∧ AccountStorage.hasAccount email (storage w) = false
       ∧ AccountStorage.getCredentials (storage w) (fs w) = Ok (Some creds)
       ∧ OAuthFlow.authorize env manual (console w)
         = (lines, OAuthFlow.Settled (Ok result))
       ∧ AccountStorage.getAccount email (storage w')
         = Some (Account_object
                   {| email := email;
                      oauth2 := {| clientId := string_prop creds "clientId";
                                   clientSecret := string_prop creds "clientSecret";
                                   refreshToken := OAuthFlow.refreshToken result;
                                   accessToken := OAuthFlow.accessToken result |} |})
       ∧ List.length (AccountStorage.getAllAccounts (storage w'))
         = S (List.length (AccountStorage.getAllAccounts (storage w)))
       ∧ (∀ other, other ≠ email →
            AccountStorage.getAccount other (storage w')
            = AccountStorage.getAccount other (storage w))
       ∧ writes (fs w')
         = (AccountStorage.accountsFile (storage w),
            stringify (JArray (AccountStorage.getAllAccounts (storage w'))))
           :: writes (fs w)
       ∧ console w' = ("Account '" +:+ email +:+ "' added") :: lines
       ∧ (manual = true →
          lines
          = (newline +:+ "After authorization, paste the redirect URL here:")
            :: OAuthFlow.authUrl env
            :: ("Open this URL in your browser:" +:+ newline)
            :: console w)
       ∧ (manual = false →
          lines
          = "Waiting for authorization on port 3000..."
            :: (if OAuthFlow.browserOpens env then []
                else ["Could not open browser automatically."])
            ++ ("If browser doesn't open, visit: " +:+ OAuthFlow.authUrl env +:+ newline)
            :: "Opening browser for authorization..."
            :: console w)).
Proof.
  intros manual. unfold handleAccounts_add. fold manual.
  destruct (head _) as [[|c rest]|] eqn:Hemail; [by split; [|split; [left|]]..| |by split; [|split; [left|]]].
  set (email := String c rest) in *.
  destruct (AccountStorage.hasAccount email (storage w)) eqn:Hnew;
    [by split; [|split; [left|]]|].
  destruct (AccountStorage.getCredentials (storage w) (fs w)) as [[creds|]|err] eqn:Hcreds;
    [|by split; [|split; [left|]]..].
  destruct (OAuthFlow.authorize env manual (console w)) as [lines awaited] eqn:Hauth.
  destruct awaited as [[result|err]| |err];
    [|split; [done|split; [right; by exists creds | done]]..].
  cbn -[Map.set stringify].
  split; [done|]. split; [right; by exists creds|]. intros _.
  exists email, creds, result, lines.
  unfold AccountStorage.getAccount, AccountStorage.getAllAccounts, AccountStorage.hasAccount in *.
  cbn -[Map.set stringify].
  repeat split; try done.
  - apply get_set_eq.
  - by apply length_values_set_fresh.
  - intros other Hother. by apply get_set_ne.
  - intros Hmanual. unfold OAuthFlow.authorize in Hauth. rewrite Hmanual in Hauth.
    by injection Hauth as <- _.
  - intros Hmanual. unfold OAuthFlow.authorize in Hauth. rewrite Hmanual in Hauth.
    injection Hauth as <- Hawaited.
    destruct (OAuthFlow.promise _) as [|resolved|err] eqn:Hpromise;
      [by destruct (OAuthFlow.uncaught _)| |done].
    rewrite (resolved_after_the_announcement _ _ Hpromise).
    unfold OAuthFlow.openBrowser. by destruct (OAuthFlow.browserOpens env).
Qed.

(** An interactive run: the browser cannot be opened, the user opens
    the URL by hand and a first request without parameters comes before
    the redirect. *)
Example accounts_add_with_the_browser :
  let env :=
    {| OAuthFlow.getToken :=
         λ _, Ok {| refresh_token := Str "new"; access_token := Null |};
       OAuthFlow.authUrl := "https://accounts.google.com/o/oauth2/v2/auth";
       OAuthFlow.redirectUrl := "";
       OAuthFlow.browserOpens := false;
       OAuthFlow.events :=
         [OAuthFlow.Bound; OAuthFlow.Request None None;
          OAuthFlow.Request (Some "the-code") None;
          OAuthFlow.Tokens (Ok {| refresh_token := Str "new"; access_token := Null |})] |} in
  let '(outcome, w') :=
    handleAccounts_add env ["add"; "b@x.com"] Example.world_with_known_account in
  outcome = Returned
  ∧ console w'
    = ["Account 'b@x.com' added";
       "Waiting for authorization on port 3000...";
       "Could not open browser automatically.";
       "If browser doesn't open, visit: https://accounts.google.com/o/oauth2/v2/auth"
         +:+ newline;
       "Opening browser for authorization..."].
Proof. vm_compute. by split. Qed.

End cli_add.

(** ** The commands of the CLI *)

Section program.
Import Cli Program.

Lemma well_formed_member (members : list (string * JSON)) (k : string) (v : JSON) :
  well_formed (JObject members) → obj_get k members = Some v → well_formed v.
Proof.
  intros [_ Hall]. apply all_Forall in Hall. induction Hall as [|[k' v'] ms Hv _ IH]; [done|].
  simpl. destruct (String.eqb k k'); [by intros [= <-] | done].
Qed.

Lemma well_formed_read (receiver : option JSON) (k : string) (v : JSON) :
  (∀ r, receiver = Some r → well_formed r) →
  member receiver k = Ok (Some v) → well_formed v.
Proof.
  intros Hr. destruct receiver as [[| | | | |members]|]; try done. simpl.
  intros [= Hget]. by eapply well_formed_member; [apply Hr|].
Qed.

Lemma credentials_object_well_formed (clientId clientSecret : option JSON) :
  (∀ v, clientId = Some v → well_formed v) →
  (∀ v, clientSecret = Some v → well_formed v) →
  well_formed (credentials_object clientId clientSecret).
Proof.
  intros Hid Hsecret.
  destruct clientId as [id|], clientSecret as [secret|];
    (apply well_formed_object; [compute_done | compute_done |]); simpl.
  - apply Forall_cons. split; [by apply Hid|]. apply Forall_cons. split; [by apply Hsecret|done].
  - apply Forall_cons. split; [by apply Hid|done].
  - apply Forall_cons. split; [by apply Hsecret|done].
  - done.
Qed.

Lemma getCredentials_untyped (clientId clientSecret : option JSON)
    (this : AccountStorage.t) (fs : FileSystem) :
  (∀ v, clientId = Some v → well_formed v) →
  (∀ v, clientSecret = Some v → well_formed v) →
  AccountStorage.getCredentials this (setCredentials_untyped clientId clientSecret this fs)
  = Ok match clientId, clientSecret with
       | Some (JString id), Some (JString secret) =>
           Some (StoredCredentials_object id secret)
       | _, _ => None
       end.
Proof.
  intros Hid Hsecret.
  unfold AccountStorage.getCredentials, setCredentials_untyped, existsSync, readFileSync,
    writeFileSync. simpl.
  rewrite lookup_insert_eq. simpl.
  rewrite parse_stringify by by apply credentials_object_well_formed.
  clear Hid Hsecret. simpl.
  destruct clientId as [[| | |id| |]|], clientSecret as [[| | |secret| |]|]; done.
Qed.

(** X10: when [accounts credentials <file>] ends normally it has read a
    file that parses, taken the first of [installed] and [web] that is
    truthy, written the credentials file and printed "Credentials
    saved".  The credentials are usable afterwards exactly when
    [client_id] and [client_secret] are both strings; otherwise the
    command has reported success and [getCredentials] returns null. *)
Theorem accounts_credentials_saved (args : list string) (w w' : World) :
  handleAccounts_credentials args w = (Returned, w') →
  ∃ credFile text creds installed,
    args !! 1%nat = Some credFile
    ∧ readFileSync (fs w) credFile = Ok text
    ∧ parse text = Ok creds
    ∧ installed = (if to_boolean (prop (Some creds) "installed")
                   then prop (Some creds) "installed"
                   else prop (Some creds) "web")
    ∧ to_boolean installed = true
    ∧ storage w' = storage w
    ∧ console w' = "Credentials saved" :: console w
    ∧ AccountStorage.getCredentials (storage w') (fs w')
      = Ok match prop installed "client_id", prop installed "client_secret" with
           | Some (JString id), Some (JString secret) =>
               Some (StoredCredentials_object id secret)
           | _, _ => None
           end.
Proof.
  intros H. unfold handleAccounts_credentials, bindR, error in H.
  destruct (args !! 1%nat) as [[|c rest]|] eqn:Harg; try done.
  set (credFile := String c rest) in *.
  destruct (readFileSync (fs w) credFile) as [text|e] eqn:Hread; [|done].
  destruct (parse text) as [creds|e] eqn:Hparse; [|done].
  pose proof (parse_well_formed _ _ Hparse) as Hcreds.
  destruct (member (Some creds) "installed") as [first|e] eqn:Hfirst; [|done].
  assert (first = prop (Some creds) "installed"
          ∧ member (Some creds) "web" = Ok (prop (Some creds) "web")) as [-> Hweb].
  { destruct creds; try done; simpl in *; by injection Hfirst as <-. }
  set (installed := if to_boolean (prop (Some creds) "installed")
                    then prop (Some creds) "installed"
                    else prop (Some creds) "web").
  assert ((if to_boolean (prop (Some creds) "installed")
           then Ok (prop (Some creds) "installed")
           else member (Some creds) "web") = Ok installed) as Hinst.
  { subst installed. rewrite Hweb. by destruct (to_boolean _). }
  rewrite Hinst in H. cbv beta iota in H.
  destruct (to_boolean installed) eqn:Htruthy; [|done]. cbv beta iota in H.
  assert (∀ v, installed = Some v → well_formed v) as Hinstalled.
  { intros v Hv. subst installed. clear -Hcreds Hv.
    destruct creds as [| | | | |members]; try (by destruct (to_boolean _)).
    destruct (to_boolean (prop (Some (JObject members)) "installed"));
      simpl in Hv; by eapply well_formed_member. }
  assert (∀ k, member installed k = Ok (prop installed k)) as Hmember.
  { intros k. by destruct installed as [[]|]. }
  rewrite !Hmember in H. injection H as <-.
  exists credFile, text, creds, installed. repeat split; try done.
  apply getCredentials_untyped; intros v Hv;
    (eapply well_formed_read; [exact Hinstalled|]); by rewrite Hmember, Hv.
Qed.

End program.

Section program_runs.
Import Cli Program.

Lemma accounts_credentials_saved_witness :
  let w :=
    {| storage := fresh_store;
       fs := only_file "client.json" (with_double_quotes "{'installed':{'client_id':5}}");
       console := []; network := [] |} in
  let w' := (handleAccounts_credentials ["credentials"; "client.json"] w).2 in
  console w' = ["Credentials saved"]
  ∧ AccountStorage.getCredentials (storage w') (fs w') = Ok None.
Proof.
  intros w w'.
  assert (handleAccounts_credentials ["credentials"; "client.json"] w = (Returned, w')) as H
    by (vm_compute; reflexivity).
  destruct (accounts_credentials_saved _ _ _ H) as (? & ? & ? & ? & _ & _ & _ & _ & _ & _ & Hc & _).
  split; [exact Hc|]. vm_compute. reflexivity.
Defined.

Example accounts_credentials_of_an_installed_client :
  let w :=
    {| storage := fresh_store;
       fs := only_file "client.json"
               (with_double_quotes
                  "{'installed':{'client_id':'id','project_id':'p','client_secret':'s'}}");
       console := []; network := [] |} in
  let w' := (handleAccounts_credentials ["credentials"; "client.json"] w).2 in
  AccountStorage.getCredentials (storage w') (fs w')
  = Ok (Some (StoredCredentials_object "id" "s")).
Proof. vm_compute. reflexivity. Qed.

Lemma console_of_logs (accounts : list JSON) (w : World) :
  let w' := fold_left (λ w a, log (string_prop a "email") w) accounts w in
  storage w' = storage w ∧ fs w' = fs w ∧ network w' = network w
  ∧ console w' = (rev (map (λ a, string_prop a "email") accounts) ++ console w)%list.
Proof.
  revert w. induction accounts as [|a accounts IH]; intros w; simpl; [done|].
  destruct (IH (log (string_prop a "email") w)) as (-> & -> & -> & ->).
  repeat split; try done. simpl. by rewrite <- app_assoc.
Qed.

Lemma rev_reverse {A} (l : list A) : rev l = reverse l.
Proof. apply rev_alt. Qed.

(** X11: [accounts list] prints one line per account of the store, the
    email, and no email twice; an email is printed exactly when the
    store has an account for it.  The store and the files are not
    touched. *)
Theorem accounts_list_prints_every_email_once
    (homedir : string) (dir : option string) (fs0 : FileSystem) (cs : list Call)
    (this : AccountStorage.t) (fs1 : FileSystem) (w : World) :
  AccountStorage.new homedir dir fs0 = Ok (this, fs1) →
  storage w = (calls cs (this, fs1)).1 →
  let '(outcome, w') := handleAccounts_list w in
  outcome = Returned
  ∧ storage w' = storage w ∧ fs w' = fs w ∧ network w' = network w
  ∧ ∃ lines,
      console w' = (lines ++ console w)%list
      ∧ if decide (AccountStorage.getAllAccounts (storage w) = [])
        then lines = ["No accounts configured"]
        else NoDup lines
             ∧ List.length lines = List.length (AccountStorage.getAllAccounts (storage w))
             ∧ ∀ email, email ∈ lines
                        ↔ AccountStorage.hasAccount email (storage w) = true.
Proof.
  intros Hnew Hstorage.
  destruct (new_calls_in_step homedir dir fs0 cs this fs1 Hnew)
    as (_ & _ & _ & _ & [Hnd Hall] & _).
  rewrite <- Hstorage in Hnd, Hall.
  unfold handleAccounts_list, AccountStorage.getAllAccounts, AccountStorage.hasAccount.
  destruct (decide (Map.values (AccountStorage.accounts (storage w)) = [])) as [Hempty|Hsome].
  { rewrite Hempty. simpl. repeat split; try done. by exists ["No accounts configured"]. }
  destruct (Map.values (AccountStorage.accounts (storage w))) as [|a accounts] eqn:Hvalues;
    [done|].
  replace (List.length (a :: accounts) =? 0)%nat with false by done.
  destruct (console_of_logs (a :: accounts) w) as (Hs & Hf & Hn & Hc).
  split; [done|]. split; [done|]. split; [done|]. split; [done|].
  eexists. split; [exact Hc|].
  rewrite <- Hvalues, emails_of_values, rev_reverse by done.
  split; [by rewrite reverse_Permutation|]. split.
  - unfold Map.keys, Map.values. by rewrite length_reverse, !length_map.
  - intros email. rewrite elem_of_reverse. symmetry. apply has_true_in_keys.
Qed.

Lemma accounts_list_prints_every_email_once_witness :
  let s := calls session (fresh_store, mkdirSync "/home/u/.gtcli" empty_disk) in
  let w := {| storage := s.1; fs := s.2; console := []; network := [] |} in
  (handleAccounts_list w).1 = Returned
  ∧ console (handleAccounts_list w).2 = ["b@x.com"].
Proof.
  intros s w.
  pose proof (accounts_list_prints_every_email_once "/home/u" None empty_disk session
                fresh_store (mkdirSync "/home/u/.gtcli" empty_disk) w
                ltac:(vm_compute; reflexivity) eq_refl) as H.
  split; [|vm_compute; reflexivity].
  destruct (handleAccounts_list w) as [outcome w']. simpl in H. by destruct H as [-> _].
Defined.

End program_runs.

Section program_main.
Import Cli Program.

Lemma error_fails_cleanly (msg : string) (w : World) : fails_cleanly w (error msg w).
Proof. split; [right; by left | done]. Qed.

Lemma handleAccounts_add_fails_cleanly
    (env : OAuthFlow.Environment) (args : list string) (w : World) :
  fails_cleanly w (handleAccounts_add env args w).
Proof.
  unfold handleAccounts_add.
  destruct (head _) as [[|c rest]|]; try apply error_fails_cleanly.
  destruct (AccountStorage.hasAccount _ _); [apply error_fails_cleanly|].
  destruct (AccountStorage.getCredentials _ _) as [[creds|]|err];
    [|apply error_fails_cleanly|].
  - destruct (OAuthFlow.authorize env _ _) as [lines [[result|err]| |err]].
    + split; [by left | done].
    + split; [right; right; right; by eexists | done].
    + split; [right; right; by left | done].
    + split; [right; by left | done].
  - split; [right; right; right; by eexists | done].
Qed.

Lemma handleAccounts_credentials_fails_cleanly (args : list string) (w : World) :
  fails_cleanly w (handleAccounts_credentials args w).
Proof.
  unfold handleAccounts_credentials, bindR.
  assert (∀ e, fails_cleanly w (Threw e, w)) as Hthrew.
  { intros e. split; [right; right; right; by eexists | done]. }
  destruct (args !! 1%nat) as [[|c rest]|]; try apply error_fails_cleanly.
  destruct (readFileSync _ _); [|apply Hthrew].
  destruct (parse _) as [creds|]; [|apply Hthrew].
  destruct (member (Some creds) "installed") as [first|]; [|apply Hthrew].
  destruct (if to_boolean first then _ else _) as [installed|]; [|apply Hthrew].
  destruct (negb (to_boolean installed)); [apply error_fails_cleanly|].
  destruct (member installed "client_id"); [|apply Hthrew].
  destruct (member installed "client_secret"); [|apply Hthrew].
  split; [by left | done].
Qed.

Lemma handleAccounts_fails_cleanly
    (env : OAuthFlow.Environment) (args : list string) (w : World) :
  fails_cleanly w (handleAccounts env args w).
Proof.
  unfold handleAccounts.
  destruct (head args) as [[|c rest]|]; try apply error_fails_cleanly.
  destruct (String.eqb _ "list").
  { unfold handleAccounts_list. destruct (_ =? _)%nat; (split; [by left | done]). }
  destruct (String.eqb _ "credentials"); [apply handleAccounts_credentials_fails_cleanly|].
  destruct (String.eqb _ "add"); [apply handleAccounts_add_fails_cleanly|].
  destruct (String.eqb _ "remove"); [|apply error_fails_cleanly].
  unfold handleAccounts_remove.
  destruct (args !! 1%nat) as [[|c' rest']|]; try apply error_fails_cleanly.
  destruct (AccountStorage.deleteAccount _ _ _) as [[deleted s'] fs'].
  split; [by left | done].
Qed.

(** X12: a command line that starts with [accounts] ends normally, or
    with exit status 1, or waits for an authorization that never
    comes; no exception escapes [main].  Unless it ends normally the
    store and the files are as they were.  With [--help] or [-h]
    anywhere on the line nothing is run: the help is printed and the
    status is 1. *)
Theorem main_accounts_fails_cleanly
    (env : OAuthFlow.Environment) (handleLists handleTasks : Handler)
    (rest : list string) (w : World) :
  let '(outcome, w') := main env handleLists handleTasks ("accounts" :: rest) w in
  (outcome = Returned ∨ outcome = Exit 1 ∨ outcome = Waiting)
  ∧ (outcome ≠ Returned → storage w' = storage w ∧ fs w' = fs w)
  ∧ (existsb (String.eqb "--help") rest || existsb (String.eqb "-h") rest = true →
     outcome = Exit 1 ∧ w' = log usage_text w).
Proof.
  unfold main.
  change (existsb (String.eqb "--help") ("accounts" :: rest))
    with (existsb (String.eqb "--help") rest).
  change (existsb (String.eqb "-h") ("accounts" :: rest))
    with (existsb (String.eqb "-h") rest).
  change (List.length ("accounts" :: rest) =? 0)%nat with false.
  rewrite orb_false_l.
  destruct (existsb (String.eqb "--help") rest || existsb (String.eqb "-h") rest).
  { split; [right; by left|]. by split. }
  change (default "" (head ("accounts" :: rest))) with "accounts".
  change ("accounts" =? "accounts")%string with true. cbv iota.
  change (tail ("accounts" :: rest)) with rest.
  destruct (handleAccounts_fails_cleanly env rest w) as [Hout Hkeep].
  destruct (handleAccounts env rest w) as [outcome w']. simpl in Hout, Hkeep.
  destruct Hout as [->|[->|[->|[e ->]]]].
  - split; [by left|]. by split.
  - split; [right; by left|]. by split.
  - split; [right; by right|]. by split.
  - split; [right; by left|]. split; [|done]. intros _. by apply Hkeep.
Qed.

End program_main.

(** ** The services *)

Section services.
Import TaskService.
Context {Server : Type} (api : Api Server).

Lemma getTasksClient_cached (storage storage' : AccountStorage.t) (email : string)
    (this this1 : t) (client : TasksClient) :
  getTasksClient storage email this = Ok (client, this1) →
  getTasksClient storage' email this1 = Ok (client, this1).
Proof.
  unfold getTasksClient.
  destruct (Map.get email (tasksClients this)) as [cached|] eqn:Hget.
  - intros [= <- <-]. by rewrite Hget.
  - destruct (BaseService.getOAuth2Client storage email (base this)) as [[auth base']|e];
      [|done].
    simpl. intros [= <- <-]. simpl. by rewrite get_set_eq.
Qed.

Lemma getTasksClient_unknown (storage : AccountStorage.t) (email : string) (this : t) :
  AccountStorage.getAccount email storage = None →
  Map.has email (tasksClients this) = false →
  Map.has email (BaseService.clients (base this)) = false →
  getTasksClient storage email this
  = Throw (PlainError ("Account '" +:+ email +:+ "' not found")).
Proof.
  intros Haccount Htasks Hclients.
  unfold getTasksClient, BaseService.getOAuth2Client.
  rewrite (has_false_get _ _ Htasks), (has_false_get _ _ Hclients), Haccount. done.
Qed.

(** X13: every method of the task service that reaches the server
    needs an account of the store (or a client built earlier): for an
    email the store does not know it throws "Account '<email>' not
    found", sends no request, and leaves the service and the server as
    they were. *)
Theorem operations_need_a_stored_account
    (storage : AccountStorage.t) (email : string) (op : Operation) (w : World Server) :
  AccountStorage.getAccount email storage = None →
  Map.has email (tasksClients (service _ w)) = false →
  Map.has email (BaseService.clients (base (service _ w))) = false →
  perform _ api storage email op w
  = (Some (PlainError ("Account '" +:+ email +:+ "' not found")), w).
Proof.
  intros Haccount Htasks Hclients.
  pose proof (getTasksClient_unknown storage email _ Haccount Htasks Hclients) as H.
  destruct op; unfold perform, list, get, create, update, delete, move, clear, complete,
    uncomplete, update, mbind, Method_bind, client_of; by rewrite H.
Qed.

Lemma client_of_found (storage : AccountStorage.t) (email : string) (w : World Server)
    (client : TasksClient) (service1 : t) :
  getTasksClient storage email (service _ w) = Ok (client, service1) →
  client_of _ storage email w
  = (Ok client, {| service := service1; server := server _ w; sent := sent _ w |}).
Proof. intros H. unfold client_of. by rewrite H. Qed.

(** X14: [update] first reads the task and then sends one update.  The
    body of the update carries the id, each of title, notes, due and
    status that the options give, and for each one they do not give the
    value just read (the title "" and the status "needsAction" when the
    server holds none).  When the read fails the exception is passed on
    and no update is sent. *)
Theorem update_sends_the_merged_task
    (storage : AccountStorage.t) (email taskListId taskId : string)
    (options : UpdateTaskOptions.t) (w : World Server)
    (client : TasksClient) (service1 : t) :
  getTasksClient storage email (service _ w) = Ok (client, service1) →
  let read := (client, tasks_get taskListId taskId) in
  match get_ _ api client taskListId taskId (server _ w) with
  | (Throw e, server1) =>
      update _ api storage email taskListId taskId options w
      = (Throw e, {| service := service1; server := server1; sent := read :: sent _ w |})
  | (Ok current, server1) =>
      let body :=
        {| body_id := Some taskId;
           body_title := Some match UpdateTaskOptions.title options with
                              | Some title => title
                              | None => nullish_or (SchemaTask.title current) ""
                              end;
           body_notes := match UpdateTaskOptions.notes options with
                         | Some notes => Some notes
                         | None => nullish_or_undefined (SchemaTask.notes current)
                         end;
           body_due := match UpdateTaskOptions.due options with
                       | Some due => Some due
                       | None => nullish_or_undefined (SchemaTask.due current)
                       end;
           body_status := Some match UpdateTaskOptions.status options with
                               | Some status => status
                               | None => nullish_or (SchemaTask.status current) "needsAction"
                               end |} in
      let '(answer, server2) := update_ _ api client taskListId taskId body server1 in
      update _ api storage email taskListId taskId options w
      = (match answer with Ok data => Ok (mapTask data) | Throw e => Throw e end,
         {| service := service1; server := server2;
            sent := (client, tasks_update taskListId taskId body) :: read :: sent _ w |})
  end.
Proof.
  intros Hclient read.
  pose proof (getTasksClient_cached storage storage email _ _ _ Hclient) as Hcached.
  unfold update, get, mbind, Method_bind.
  rewrite (client_of_found _ _ _ _ _ Hclient).
  rewrite (client_of_found storage email
             {| service := service1; server := server _ w; sent := sent _ w |}
             client service1 Hcached).
  unfold send, mret, Method_ret. simpl.
  destruct (get_ _ api client taskListId taskId (server _ w)) as [[current|e] server1];
    [|done].
  simpl.
  destruct (UpdateTaskOptions.title options), (UpdateTaskOptions.status options);
    unfold option_or; simpl;
    by destruct (update_ _ api client taskListId taskId _ server1) as [[data|e] server2].
Qed.

(** X15: a client built for an email is used for every later call for
    that email, whatever the store holds by then: the service is left
    as it is, and every request of the call is sent by that client -
    also when the account has been deleted from the store or stored
    again with other tokens. *)
Theorem a_cached_client_ignores_the_store
    (storage storage' : AccountStorage.t) (email : string) (op : Operation)
    (this : t) (client : TasksClient) (w : World Server) :
  getTasksClient storage email this = Ok (client, service _ w) →
  let w' := (perform _ api storage' email op w).2 in
  service _ w' = service _ w
  ∧ ∃ requests,
      sent _ w' = (map (pair client) requests ++ sent _ w)%list
      ∧ (1 ≤ List.length requests ≤ 2)%nat.
Proof.
  intros Hclient.
  pose proof (getTasksClient_cached storage storage' email _ _ _ Hclient) as Hcached.
  assert (client_of _ storage' email w = (Ok client, w)) as Hfound.
  { rewrite (client_of_found storage' email w client (service _ w) Hcached).
    by destruct w. }
  assert (∀ A request (answer : Server → Result A * Server),
            ∃ r server', send _ client request answer w
                         = (r, {| service := service _ w; server := server';
                                  sent := (client, request) :: sent _ w |})) as Hsend.
  { intros A request answer. unfold send.
    destruct (answer (server _ w)) as [r server']. by exists r, server'. }
  set (by_client := λ w' : World Server,
         service _ w' = service _ w
         ∧ ∃ requests,
             sent _ w' = (map (pair client) requests ++ sent _ w)%list
             ∧ (1 ≤ List.length requests ≤ 2)%nat).
  assert (∀ options taskListId taskId,
            by_client (update _ api storage' email taskListId taskId options w).2)
    as Hupdate.
  { intros options taskListId taskId.
    unfold update, get, mbind, Method_bind. rewrite !Hfound.
    destruct (Hsend _ (tasks_get taskListId taskId)
                (get_ _ api client taskListId taskId)) as (r & server1 & ->).
    destruct r as [current|e]; simpl.
    - unfold send. simpl.
      destruct (update_ _ api client taskListId taskId _ server1) as [[data|e] server2];
        simpl; (split; [done|]); eexists [_; _]; (split; [done | simpl; lia]).
    - split; [done|]. eexists [_]. split; [done | simpl; lia]. }
  assert (∀ A (m : Method Server A),
            by_client (m w).2 →
            by_client (match m w with
                       | (Ok _, w') => (@None Error, w')
                       | (Throw e, w') => (Some e, w')
                       end).2) as Houtcome.
  { intros A m. by destruct (m w) as [[a|e] w']. }
  assert (∀ A (k : TasksClient → Method Server A),
            (client_of _ storage' email ≫= k) w = k client w) as Hbind.
  { intros A k. unfold mbind, Method_bind. by rewrite Hfound. }
  assert (∀ A B (m : Method Server A) (f : A → B) w0,
            ((m ≫= λ a, mret (f a)) w0).2 = (m w0).2) as Hret.
  { intros A B m f w0. unfold mbind, Method_bind, mret, Method_ret.
    by destruct (m w0) as [[a|e] w']. }
  assert (∀ A request (answer : Server → Result A * Server),
            by_client (send _ client request answer w).2) as Hone.
  { intros A request answer.
    destruct (Hsend _ request answer) as (r & server' & ->).
    split; [done|]. eexists [_]. split; [done | simpl; lia]. }
  cbv zeta. fold (by_client (perform _ api storage' email op w).2).
  destruct op; unfold perform; apply Houtcome; try apply Hupdate.
  - unfold list. rewrite Hbind. cbv zeta. rewrite Hret. apply Hone.
  - unfold get. rewrite Hbind, Hret. apply Hone.
  - unfold create. rewrite Hbind. cbv zeta. rewrite Hret. apply Hone.
  - unfold delete. rewrite Hbind. apply Hone.
  - unfold move. rewrite Hbind. cbv zeta. rewrite Hret. apply Hone.
  - unfold clear. rewrite Hbind. apply Hone.
Qed.

Lemma createOAuth2Client_of_an_account (account : Account) :
  BaseService.createOAuth2Client (Some (Account_object account))
  = Ok {| BaseService.clientId_ := Some (JString (clientId (oauth2 account)));
          BaseService.clientSecret_ := Some (JString (clientSecret (oauth2 account)));
          BaseService.redirectUri := "http://localhost";
          BaseService.refresh_token_ := Some (JString (refreshToken (oauth2 account)));
          BaseService.access_token_ :=
            JString <$> accessToken (oauth2 account) |}.
Proof. by destruct account as [e [c s r [a|]]]. Qed.

(** X16: the first call for an account that [addAccount] has stored
    builds a client out of exactly the credentials of that account -
    client id and secret, the redirect URI http://localhost, the
    refresh token and the access token (if any) - and caches it for
    that email in both maps. *)
Theorem the_client_carries_the_stored_credentials
    (account : Account) (storage : AccountStorage.t) (this : t) :
  AccountStorage.getAccount (email account) storage = Some (Account_object account) →
  Map.has (email account) (tasksClients this) = false →
  Map.has (email account) (BaseService.clients (base this)) = false →
  ∃ client this',
    getTasksClient storage (email account) this = Ok (client, this')
    ∧ version client = "v1"
    ∧ auth client
      = {| BaseService.clientId_ := Some (JString (clientId (oauth2 account)));
           BaseService.clientSecret_ := Some (JString (clientSecret (oauth2 account)));
           BaseService.redirectUri := "http://localhost";
           BaseService.refresh_token_ := Some (JString (refreshToken (oauth2 account)));
           BaseService.access_token_ := JString <$> accessToken (oauth2 account) |}
    ∧ Map.get (email account) (tasksClients this') = Some client
    ∧ Map.get (email account) (BaseService.clients (base this')) = Some (auth client)
    ∧ (∀ other, other ≠ email account →
         Map.get other (tasksClients this') = Map.get other (tasksClients this)
         ∧ Map.get other (BaseService.clients (base this'))
           = Map.get other (BaseService.clients (base this))).
Proof.
  intros Hstored Htasks Hclients.
  unfold getTasksClient, BaseService.getOAuth2Client.
  rewrite (has_false_get _ _ Htasks), (has_false_get _ _ Hclients), Hstored.
  change (to_boolean (Some (Account_object account))) with true. cbv iota. simpl negb.
  cbv iota. rewrite createOAuth2Client_of_an_account. simpl.
  eexists _, _. split; [reflexivity|]. simpl.
  split; [done|]. split; [done|].
  rewrite !get_set_eq. split; [done|]. split; [done|].
  intros other Hother. by rewrite !get_set_ne.
Qed.

(** X17: [clearTasksClientCache(email)] forgets the clients of that
    email and of no other, so that the next call for the email builds a
    client from the account as the store holds it then; without an
    email, or with the empty string, it forgets every client. *)
Theorem a_cleared_client_is_built_again
    (account : Account) (storage : AccountStorage.t) (this : t) :
  email account ≠ "" →
  AccountStorage.getAccount (email account) storage = Some (Account_object account) →
  let cleared := clearTasksClientCache (Some (email account)) this in
  (∃ client this',
     getTasksClient storage (email account) cleared = Ok (client, this')
     ∧ BaseService.createOAuth2Client (Some (Account_object account)) = Ok (auth client))
  ∧ (∀ other, other ≠ email account →
       Map.get other (tasksClients cleared) = Map.get other (tasksClients this)
       ∧ Map.get other (BaseService.clients (base cleared))
         = Map.get other (BaseService.clients (base this)))
  ∧ clearTasksClientCache (Some "") this = clearTasksClientCache None this
  ∧ tasksClients (clearTasksClientCache None this) = []
  ∧ BaseService.clients (base (clearTasksClientCache None this)) = [].
Proof.
  intros Hemail Hstored cleared. split; [|split; [|done]].
  - subst cleared.
    unfold getTasksClient, BaseService.getOAuth2Client, clearTasksClientCache,
      BaseService.clearClientCache.
    destruct (email account) as [|c rest] eqn:He; [done|].
    cbn [tasksClients base BaseService.clients].
    rewrite !get_delete_eq, Hstored.
    change (to_boolean (Some (Account_object account))) with true. cbn [negb].
    rewrite createOAuth2Client_of_an_account. by eexists _, _.
  - intros other Hother. subst cleared.
    unfold clearTasksClientCache, BaseService.clearClientCache.
    destruct (email account) as [|c rest] eqn:He; [done|].
    cbn [tasksClients base BaseService.clients].
    by rewrite !get_delete_ne.
Qed.

End services.

Section services_examples.
Import TaskService.

Lemma operations_need_a_stored_account_witness :
  perform _ quiet_api fresh_store "nobody@x.com" (Complete "list" "task") no_clients
  = (Some (PlainError "Account 'nobody@x.com' not found"), no_clients).
Proof.
  by apply (operations_need_a_stored_account quiet_api fresh_store "nobody@x.com"
              (Complete "list" "task") no_clients).
Defined.

Lemma update_sends_the_merged_task_witness :
  ∃ client,
    map snd (sent _ (complete _ quiet_api store_of_known_account "a@x.com" "list" "task"
                       no_clients).2)
    = [tasks_update "list" "task"
         {| body_id := Some "task"; body_title := Some ""; body_notes := Some "buy milk";
            body_due := None; body_status := Some "completed" |};
       tasks_get "list" "task"]
    ∧ map fst (sent _ (complete _ quiet_api store_of_known_account "a@x.com" "list" "task"
                         no_clients).2)
      = [client; client].
Proof.
  eexists. unfold complete.
  pose proof (update_sends_the_merged_task quiet_api store_of_known_account "a@x.com"
                "list" "task"
                {| UpdateTaskOptions.title := None; UpdateTaskOptions.notes := None;
                   UpdateTaskOptions.due := None;
                   UpdateTaskOptions.status := Some "completed" |}
                no_clients _ _ eq_refl) as H.
  simpl in H. rewrite H. split; reflexivity.
Defined.

Lemma a_cached_client_ignores_the_store_witness :
  let first := (get _ quiet_api store_of_known_account "a@x.com" "list" "task" no_clients).2 in
  let second := (perform _ quiet_api fresh_store "a@x.com" (Clear "list") first).2 in
  service _ second = service _ first
  ∧ List.length (sent _ second) = 2%nat.
Proof.
  intros first second.
  destruct (a_cached_client_ignores_the_store quiet_api store_of_known_account fresh_store
              "a@x.com" (Clear "list") (service _ no_clients) _ first eq_refl)
    as [Hservice _].
  split; [exact Hservice | reflexivity].
Defined.

Lemma the_client_carries_the_stored_credentials_witness :
  ∃ client this',
    getTasksClient store_of_known_account "a@x.com" (service _ no_clients)
    = Ok (client, this')
    ∧ BaseService.refresh_token_ (auth client) = Some (JString "r").
Proof.
  destruct (the_client_carries_the_stored_credentials Example.known_account
              store_of_known_account (service _ no_clients) eq_refl eq_refl eq_refl)
    as (client & this' & Hget & _ & Hauth & _).
  exists client, this'. split; [exact Hget|]. by rewrite Hauth.
Defined.

Lemma a_cleared_client_is_built_again_witness :
  ∃ client this',
    getTasksClient store_of_known_account "a@x.com"
      (clearTasksClientCache (Some "a@x.com") (service _ no_clients))
    = Ok (client, this')
    ∧ BaseService.refresh_token_ (auth client) = Some (JString "r").
Proof.
  destruct (a_cleared_client_is_built_again Example.known_account store_of_known_account
              (service _ no_clients) ltac:(discriminate) eq_refl)
    as [(client & this' & Hget & Hbuilt) _].
  exists client, this'. split; [exact Hget|].
  by injection Hbuilt as <-.
Defined.

End services_examples.

(** ** The redirect of a successful authorization *)

Lemma all_chars_app (p : ascii → bool) (a b : string) :
  all_chars p (a +:+ b) = all_chars p a && all_chars p b.
Proof.
  induction a as [|c a IH]; [done|].
  rewrite append_cons. simpl. by rewrite IH, andb_assoc.
Qed.

Lemma all_chars_impl (p q : ascii → bool) (s : string) :
  (∀ c, p c = true → q c = true) → all_chars p s = true → all_chars q s = true.
Proof.
  intros Hpq. induction s as [|c s IH]; [done|]. simpl.
  intros [Hc Hs]%andb_true_iff. by rewrite (Hpq c Hc), IH.
Qed.

Lemma plain_char_range (c : ascii) :
  plain_char c = true → (45 ≤ code c ≤ 126)%N.
Proof.
  unfold plain_char, is_alpha, is_digit, in_range.
  rewrite !orb_true_iff, !andb_true_iff, !N.leb_le, !N.eqb_eq. lia.
Qed.

Lemma rev_onto_app (a b acc : string) :
  string_rev_onto (a +:+ b) acc = string_rev_onto b (string_rev_onto a acc).
Proof.
  revert acc. induction a as [|c a IH]; intros acc; [done|].
  rewrite append_cons. simpl. apply IH.
Qed.

Lemma rev_app (a b : string) :
  string_rev_onto (a +:+ b) "" = string_rev_onto b "" +:+ string_rev_onto a "".
Proof. by rewrite rev_onto_app, string_rev_onto_acc. Qed.

Lemma rev_rev (s : string) : string_rev_onto (string_rev_onto s "") "" = s.
Proof. by rewrite string_rev_onto_app, append_nil_r. Qed.

Lemma trim_left_app (x y : string) (c : ascii) :
  URL.is_c0_or_space c = false →
  ∃ dropped kept,
    x = dropped +:+ kept
    ∧ URL.trim_left (x +:+ String c y) = kept +:+ String c y.
Proof.
  intros Hc. induction x as [|d x IH].
  - exists "", "". split; [done|]. simpl. by rewrite Hc.
  - rewrite append_cons. simpl. destruct (URL.is_c0_or_space d) eqn:Hd.
    + destruct IH as (dropped & kept & -> & ->). by exists (String d dropped), kept.
    + exists "", (String d x). by rewrite append_cons.
Qed.

(** Trimming keeps a text from its first character to a character that
    is not a space, and after it a part of what follows. *)
Lemma rev_cons (c : ascii) (s : string) :
  string_rev_onto (String c s) "" = string_rev_onto s "" +:+ String c "".
Proof. simpl. apply string_rev_onto_acc. Qed.

Lemma trim_keeps (c d : ascii) (a t : string) :
  URL.is_c0_or_space c = false → URL.is_c0_or_space d = false →
  ∃ kept dropped,
    t = kept +:+ dropped
    ∧ URL.trim (String c a +:+ String d t) = String c a +:+ String d kept.
Proof.
  intros Hc Hd. unfold URL.trim.
  assert (URL.trim_left (String c a +:+ String d t) = String c a +:+ String d t) as ->.
  { rewrite append_cons. simpl. by rewrite Hc. }
  remember (String c a) as A eqn:HA.
  assert (string_rev_onto (A +:+ String d t) ""
          = string_rev_onto t "" +:+ String d (string_rev_onto A "")) as ->.
  { by rewrite rev_app, rev_cons, append_assoc'. }
  destruct (trim_left_app (string_rev_onto t "") (string_rev_onto A "") d Hd)
    as (dropped & kept & Ht & ->).
  exists (string_rev_onto kept ""), (string_rev_onto dropped "").
  split.
  - by rewrite <- rev_app, <- Ht, rev_rev.
  - by rewrite rev_app, rev_cons, rev_rev, !append_assoc'.
Qed.

Lemma last_char (s : string) : s ≠ "" → ∃ s' c, s = s' +:+ String c "".
Proof.
  induction s as [|c s IH]; [done|]. intros _.
  destruct s as [|d s]; [by exists "", c|].
  destruct IH as (s' & e & ->); [done|]. by exists (String c s'), e.
Qed.

Lemma remove_tab_newline_app (a s : string) :
  all_chars (λ c, negb (URL.is_tab_or_newline c)) a = true →
  URL.remove_tab_newline (a +:+ s) = a +:+ URL.remove_tab_newline s.
Proof.
  induction a as [|c a IH]; [done|]. simpl.
  intros [Hc Ha]%andb_true_iff. rewrite !append_cons. simpl.
  apply negb_true_iff in Hc. by rewrite Hc, IH.
Qed.

Lemma span_until_app (stop : N) (a s : string) :
  all_chars (λ c, negb (code c =? stop)%N) a = true →
  span_until stop (a +:+ s) = (a +:+ (span_until stop s).1, (span_until stop s).2).
Proof.
  induction a as [|c a IH].
  { intros _. rewrite !append_nil_l. by destruct (span_until stop s). }
  simpl. intros [Hc Ha]%andb_true_iff. rewrite !append_cons. simpl.
  apply negb_true_iff in Hc. by rewrite Hc, IH.
Qed.

Lemma split_on_app (sep : N) (a s current : string) :
  all_chars (λ c, negb (code c =? sep)%N) a = true →
  URL.split_on sep (a +:+ s) current = URL.split_on sep s (string_rev_onto a current).
Proof.
  revert current. induction a as [|c a IH]; intros current; [done|]. simpl.
  intros [Hc Ha]%andb_true_iff. rewrite ?append_cons. simpl.
  apply negb_true_iff in Hc. by rewrite Hc, IH.
Qed.

Lemma percent_decode_plain (s : string) :
  all_chars (λ c, negb (code c =? percent)%N) s = true →
  percent_decode s = list_ascii_of_string s.
Proof.
  induction s as [|c s IH]; [done|]. simpl.
  intros [Hc Hs]%andb_true_iff. apply negb_true_iff in Hc.
  rewrite Hc, IH by done. by destruct s as [|h1 [|h2 rest]].
Qed.

Lemma plus_to_space_plain (s : string) :
  all_chars (λ c, negb (code c =? 43)%N) s = true → URL.plus_to_space s = s.
Proof.
  induction s as [|c s IH]; [done|]. simpl.
  intros [Hc Hs]%andb_true_iff. apply negb_true_iff in Hc. by rewrite Hc, IH.
Qed.

Lemma decode_lossy_ascii (s : string) :
  all_chars (λ c, (code c <? 128)%N) s = true →
  Utf8.decode_lossy Utf8.initial (list_ascii_of_string s) = list_ascii_of_string s.
Proof.
  induction s as [|c s IH]; [done|]. simpl.
  intros [Hc Hs]%andb_true_iff. unfold Utf8.step, Utf8.start. simpl.
  by rewrite Hc, IH.
Qed.

Lemma form_decode_plain (s : string) :
  all_chars plain_char s = true → URL.form_decode s = s.
Proof.
  intros Hs. unfold URL.form_decode.
  assert (∀ q : ascii → bool,
            (∀ c, (45 ≤ code c ≤ 126)%N → q c = true) → all_chars q s = true) as Hq.
  { intros q Hrange. eapply all_chars_impl; [|exact Hs].
    intros c Hc. by apply Hrange, plain_char_range. }
  rewrite plus_to_space_plain, percent_decode_plain, decode_lossy_ascii.
  - apply string_of_list_ascii_of_string.
  - apply Hq. intros c Hc. apply N.ltb_lt. lia.
  - apply Hq. intros c Hc. apply negb_true_iff, N.eqb_neq. unfold percent. lia.
  - apply Hq. intros c Hc. apply negb_true_iff, N.eqb_neq. lia.
Qed.

Lemma parse_localhost (slash : bool) (input q : string) :
  URL.remove_tab_newline (URL.trim input)
  = (if slash then "http://localhost:3000/?" else "http://localhost:3000?") +:+ q →
  URL.parse input = Ok {| URL.scheme := "http"; URL.query := (span_until 35 q).1 |}.
Proof.
  intros Hnormal. unfold URL.parse. rewrite Hnormal. destruct slash.
  - change (URL.parse_scheme ("http://localhost:3000/?" +:+ q))
      with (Some ("http", "//localhost:3000/?" +:+ q)).
    cbv beta iota zeta.
    rewrite (span_until_app 35 "//localhost:3000/?" q) by done.
    cbn [fst snd].
    change ("//localhost:3000/?" +:+ (span_until 35 q).1)
      with ("//localhost:3000/" +:+ String "?" (span_until 35 q).1).
    rewrite (span_until_app 63 "//localhost:3000/" (String "?" (span_until 35 q).1))
      by done.
    done.
  - change (URL.parse_scheme ("http://localhost:3000?" +:+ q))
      with (Some ("http", "//localhost:3000?" +:+ q)).
    cbv beta iota zeta.
    rewrite (span_until_app 35 "//localhost:3000?" q) by done.
    cbn [fst snd].
    change ("//localhost:3000?" +:+ (span_until 35 q).1)
      with ("//localhost:3000" +:+ String "?" (span_until 35 q).1).
    rewrite (span_until_app 63 "//localhost:3000" (String "?" (span_until 35 q).1))
      by done.
    done.
Qed.

Lemma further_parameters_cases (f : string → string) (rest : string) :
  f "" = "" → (∀ t, ∃ t', f (String "&" t) = String "&" t') →
  further_parameters rest → further_parameters (f rest).
Proof.
  intros Hnil Hcons [->|[t ->]]; [left; done|].
  right. destruct (Hcons t) as [t' ->]. by exists t'.
Qed.

Lemma searchParams_get_code (value rest : string) :
  all_chars plain_char value = true → further_parameters rest →
  URL.searchParams_get "code"
    (URL.searchParams {| URL.scheme := "http"; URL.query := "code=" +:+ value +:+ rest |})
  = Some value.
Proof.
  intros Hplain Hrest. unfold URL.searchParams. cbn [URL.query].
  assert (all_chars (λ c, negb (code c =? 38)%N) ("code=" +:+ value) = true) as Hamp.
  { rewrite all_chars_app. apply andb_true_iff. split; [done|].
    eapply all_chars_impl; [|exact Hplain]. intros c Hc.
    apply plain_char_range in Hc. unfold code in *.
    apply negb_true_iff, N.eqb_neq. lia. }
  assert (∃ pieces,
            URL.split_on 38 ("code=" +:+ value +:+ rest) "" = ("code=" +:+ value) :: pieces)
    as [pieces ->].
  { rewrite <- append_assoc', split_on_app by done.
    set (current := string_rev_onto ("code=" +:+ value) "").
    assert (string_rev_onto current "" = "code=" +:+ value) as Hcurrent
      by apply rev_rev.
    destruct Hrest as [->|[t ->]].
    - exists []. change (URL.split_on 38 "" current) with [string_rev_onto current ""].
      by rewrite Hcurrent.
    - exists (URL.split_on 38 t "").
      change (URL.split_on 38 (String "&" t) current)
        with (string_rev_onto current "" :: URL.split_on 38 t "").
      by rewrite Hcurrent. }
  cbn [List.filter].
  replace (negb (("code=" +:+ value) =? "")%string) with true by done.
  cbn [map URL.searchParams_get].
  unfold URL.form_pair at 1.
  replace (span_until 61 ("code=" +:+ value)) with ("code", String "=" value) by done.
  cbv beta iota zeta. rewrite (form_decode_plain value) by done.
  by rewrite (form_decode_plain "code").
Qed.

(** X18: on the redirect URI of the flow with a query that starts
    with [code=<value>], where the value is made of letters, digits and
    [-._~/], [extractCodeFromUrl] returns that value, with or without a
    slash before the query and whatever parameters follow it. *)
Theorem extractCodeFromUrl_of_the_redirect (slash : bool) (value rest : string) :
  value ≠ "" →
  all_chars plain_char value = true →
  further_parameters rest →
  OAuthFlow.extractCodeFromUrl (redirect_with_code slash value +:+ rest) = Ok value.
Proof.
  intros Hvalue Hplain Hrest.
  set (start := if slash then "http://localhost:3000/?" else "http://localhost:3000?").
  assert (redirect_with_code slash value +:+ rest
          = start +:+ ("code=" +:+ value +:+ rest)) as Hshape.
  { unfold redirect_with_code. subst start.
    destruct slash; rewrite append_assoc'; reflexivity. }
  assert (∀ q : ascii → bool,
            (∀ c, (45 ≤ N_of_ascii c ≤ 126)%N → q c = true) →
            all_chars q value = true) as Hq.
  { intros q Hrange. eapply all_chars_impl; [|exact Hplain].
    intros c Hc. apply Hrange. by apply plain_char_range in Hc. }
  set (head := if slash then "ttp://localhost:3000/?code=" else "ttp://localhost:3000?code=").
  assert (∀ r, start +:+ ("code=" +:+ value +:+ r) = String "h" (head +:+ value) +:+ r)
    as Hhead.
  { intros r. transitivity (String "h" (head +:+ (value +:+ r))).
    - subst start head. by destruct slash.
    - by rewrite <- append_assoc'. }
  assert (all_chars (λ c, negb (URL.is_tab_or_newline c)) (String "h" (head +:+ value))
          = true) as Hline.
  { change (String "h" (head +:+ value)) with (String "h" head +:+ value).
    rewrite all_chars_app. apply andb_true_iff. split; [by destruct slash|].
    apply Hq. intros c Hc. unfold URL.is_tab_or_newline, code.
    rewrite !negb_orb, !andb_true_iff, !negb_true_iff, !N.eqb_neq. lia. }
  (* trimming and removing tabs and newlines keep the value *)
  assert (∃ rest1, further_parameters rest1
                   ∧ URL.remove_tab_newline
                       (URL.trim (start +:+ ("code=" +:+ value +:+ rest)))
                     = start +:+ ("code=" +:+ value +:+ rest1))
    as (rest1 & Hrest1 & Hnormal).
  { destruct Hrest as [->|[t ->]].
    - exists "". split; [by left|]. rewrite Hhead, append_nil_r.
      destruct (last_char value Hvalue) as (value' & d & Hlast).
      assert (URL.is_c0_or_space d = false) as Hd.
      { assert (plain_char d = true) as Hplain_d.
        { rewrite Hlast, all_chars_app in Hplain. simpl in Hplain.
          apply andb_true_iff in Hplain as [_ H]. by apply andb_true_iff in H as [H _]. }
        apply plain_char_range in Hplain_d. unfold URL.is_c0_or_space, code in *.
        apply N.leb_gt. lia. }
      assert (String "h" (head +:+ value) = String "h" (head +:+ value') +:+ String d "")
        as Hsplit by (by rewrite Hlast, append_cons, !append_assoc').
      destruct (trim_keeps "h" d (head +:+ value') "" eq_refl Hd)
        as (kept & dropped & Hkept & Htrim).
      destruct kept; [|done].
      rewrite Hsplit, Htrim, <- Hsplit.
      rewrite <- (append_nil_r (String "h" (head +:+ value))) at 1.
      rewrite remove_tab_newline_app by done. by rewrite append_nil_r.
    - rewrite Hhead.
      destruct (trim_keeps "h" "&" (head +:+ value) t eq_refl eq_refl)
        as (kept & dropped & Hkept & ->).
      exists (String "&" (URL.remove_tab_newline kept)). split; [right; by eexists|].
      by rewrite remove_tab_newline_app, Hhead. }
  rewrite extractCodeFromUrl_cases, Hshape.
  rewrite (parse_localhost slash _ _ Hnormal).
  assert (∃ rest2, further_parameters rest2
                   ∧ (span_until 35 ("code=" +:+ value +:+ rest1)).1
                     = "code=" +:+ value +:+ rest2) as (rest2 & Hrest2 & ->).
  { rewrite <- append_assoc', span_until_app.
    - cbn [fst]. destruct Hrest1 as [->|[t ->]].
      + exists "". split; [by left|]. by rewrite append_assoc'.
      + exists (String "&" (span_until 35 t).1). split; [right; by eexists|].
        rewrite append_assoc'. simpl. by destruct (span_until 35 t).
    - rewrite all_chars_app. apply andb_true_iff. split; [done|].
      apply Hq. intros c Hc. unfold code. apply negb_true_iff, N.eqb_neq. lia. }
  cbv zeta. rewrite searchParams_get_code by done.
  by destruct value.
Qed.

Lemma extractCodeFromUrl_of_the_redirect_witness :
  OAuthFlow.extractCodeFromUrl
    "http://localhost:3000/?code=4/0Ab_x-Y.z~9&scope=https://www.googleapis.com/auth/tasks"
  = Ok "4/0Ab_x-Y.z~9".
Proof.
  apply (extractCodeFromUrl_of_the_redirect true "4/0Ab_x-Y.z~9"
           "&scope=https://www.googleapis.com/auth/tasks").
  - done.
  - reflexivity.
  - right. by eexists.
Defined.

(** ** From one run of the program to the next *)

Section program_runs_again.
Import Cli Program.

Lemma setCredentials_untyped_in_step (homedir : string) (dir : option string)
    (clientId clientSecret : option JSON) (this : AccountStorage.t) (fs : FileSystem) :
  in_step homedir dir (this, fs) →
  in_step homedir dir (this, setCredentials_untyped clientId clientSecret this fs).
Proof.
  unfold in_step. simpl. intros (Hdir & Hfile & Hcred & Hexists & Hok & Hstored).
  repeat split; try done; try apply Hok.
  - by apply existsSync_writeFileSync.
  - rewrite <- Hstored. unfold stored_accounts, setCredentials_untyped. simpl.
    rewrite lookup_insert_ne; [done|].
    rewrite Hfile, Hcred. apply not_eq_sym, accounts_file_ne_credentials_file.
Qed.

Lemma handleAccounts_in_step (homedir : string) (dir : option string)
    (env : OAuthFlow.Environment) (args : list string) (w : World) :
  in_step homedir dir (storage w, fs w) →
  in_step homedir dir (storage (handleAccounts env args w).2,
                       fs (handleAccounts env args w).2).
Proof.
  intros Hw. unfold handleAccounts.
  destruct (head args) as [[|c rest]|]; try done.
  destruct (String.eqb _ "list").
  { unfold handleAccounts_list. destruct (_ =? _)%nat; [done|]. cbn [snd].
    by destruct (console_of_logs (AccountStorage.getAllAccounts (storage w)) w)
      as (-> & -> & _). }
  destruct (String.eqb _ "credentials").
  { unfold handleAccounts_credentials, bindR.
    destruct (args !! 1%nat) as [[|c' rest']|]; try done.
    destruct (readFileSync _ _); [|done].
    destruct (parse _) as [creds|]; [|done].
    destruct (member (Some creds) "installed") as [first|]; [|done].
    destruct (if to_boolean first then _ else _) as [installed|]; [|done].
    destruct (negb (to_boolean installed)); [done|].
    destruct (member installed "client_id"); [|done].
    destruct (member installed "client_secret"); [|done].
    by apply setCredentials_untyped_in_step. }
  destruct (String.eqb _ "add").
  { unfold handleAccounts_add.
    destruct (head _) as [[|c' rest']|]; try done.
    destruct (AccountStorage.hasAccount _ _); [done|].
    destruct (AccountStorage.getCredentials _ _) as [[creds|]|err]; try done.
    destruct (OAuthFlow.authorize env _ _) as [lines [[result|err]| |err]]; try done.
    match goal with
    | |- context [AccountStorage.addAccount ?account _ _] =>
        pose proof (call_in_step homedir dir (storage w, fs w) (AddAccount account) Hw) as H
    end.
    simpl in H. exact H. }
  destruct (String.eqb _ "remove"); [|done].
  unfold handleAccounts_remove.
  destruct (args !! 1%nat) as [[|c' rest']|]; try done.
  set (email := String c' rest').
  pose proof (call_in_step homedir dir (storage w, fs w) (DeleteAccount email) Hw) as H.
  simpl in H.
  by destruct (AccountStorage.deleteAccount email (storage w) (fs w)) as [[deleted s'] fs'].
Qed.

(** X19: the store that the program builds when it starts is the store
    that the previous run left: after any [accounts] command - whether
    it ended normally, failed or was left waiting - a new run on the
    files of that run starts with the same collection (for stores whose
    loaded records write their numbers as JavaScript prints them). *)
Theorem the_next_run_finds_the_store
    (homedir : string) (env : OAuthFlow.Environment) (handleLists handleTasks : Handler)
    (rest : list string) (disk : FileSystem) (w : World) :
  start homedir disk = Ok w →
  forallb plain_numbers (AccountStorage.getAllAccounts (storage w)) = true →
  let w' := (main env handleLists handleTasks ("accounts" :: rest) w).2 in
  ∃ next,
    start homedir (fs w') = Ok next
    ∧ storage next = storage w'
    ∧ fs next = fs w'.
Proof.
  intros Hstart _ w'.
  assert (in_step homedir None (storage w, fs w)) as Hw.
  { unfold start in Hstart.
    destruct (new_in_step homedir None disk) as ([this fs1] & Hnew & Hstep).
    rewrite Hnew in Hstart. simpl in Hstart. by injection Hstart as <-. }
  assert (in_step homedir None (storage w', fs w')) as Hw'.
  { subst w'. unfold main.
    destruct (_ || _); [done|].
    change (default "" (head ("accounts" :: rest))) with "accounts".
    change ("accounts" =? "accounts")%string with true. cbv iota.
    change (tail ("accounts" :: rest)) with rest.
    pose proof (handleAccounts_in_step homedir None env rest w Hw) as H.
    destruct (handleAccounts env rest w) as [outcome w1]. simpl in H.
    by destruct outcome. }
  apply new_of_in_step in Hw'. simpl in Hw'.
  unfold start. rewrite Hw'. simpl. by eexists.
Qed.

End program_runs_again.

Section program_runs_again_example.
Import Cli Program.

Lemma the_next_run_finds_the_store_witness :
  let w := {| storage := fresh_store; fs := mkdirSync "/home/u/.gtcli" empty_disk;
              console := []; network := [] |} in
  let nothing : Handler := λ _ _ w, (Returned, w) in
  let w' := (main Example.quiet_environment nothing nothing
               ["accounts"; "remove"; "nobody@x.com"] w).2 in
  console w' = ["Not found: nobody@x.com"]
  ∧ ∃ next, start "/home/u" (fs w') = Ok next ∧ storage next = storage w'.
Proof.
  intros w nothing w'. split; [reflexivity|].
  destruct (the_next_run_finds_the_store "/home/u" Example.quiet_environment nothing nothing
              ["remove"; "nobody@x.com"] empty_disk w
              ltac:(vm_compute; reflexivity) eq_refl)
    as (next & Hnext & Hstorage & _).
  by exists next.
Defined.

End program_runs_again_example.
